(** * ZCANT core: zero-cross signals, slopes, smoothing and the Anabat writer

    A shallow embedding of [zcant/core.pyx] and the properties of its
    windowing, slope, smoothing and serialisation code.

    NumPy [float64] arrays are lists of Rocq's primitive binary64 floats
    ([PrimFloat.float]): arithmetic, comparisons, NaN and the infinities are
    those of IEEE 754, which is what Python and NumPy compute with.  Python
    exceptions are an explicit error monad.  General facts about float
    comparisons come from the bit-level specification [SpecFloat] through the
    specification of the primitives. *)

From stdpp Require Import base option list strings gmap pretty.
From Stdlib Require Import ZArith QArith Qabs Floats Lia Sorted.

Close Scope Q_scope.

(** * Part I: the embedding *)

(** ** Python exceptions

    A computation returns a value or raises.  [OutOfFuel] is not a Python
    exception: it marks a loop of the model that was cut short, and the
    properties below show that it never comes out. *)

Module Py.

Inductive exn : Type :=
| ValueError (msg : string)
| IndexError (msg : string)
| OutOfFuel.

Inductive res (A : Type) : Type :=
| Ok (a : A)
| Raise (e : exn).

Arguments Ok {A} a.
Arguments Raise {A} e.

#[export] Instance res_ret : MRet res := @Ok.

#[export] Instance res_bind : MBind res := λ A B f m,
  match m with
  | Ok a => f a
  | Raise e => Raise e
  end.

End Py.

Import Py.

(** ** Floats as Python sees them *)

Module F64.

(** Python's [a >= b] and [a > b]. *)
Definition geb (a b : float) : bool := (b <=? a)%float.
Definition gtb (a b : float) : bool := (b <? a)%float.

Definition sf_nan (x : spec_float) : bool :=
  match x with S754_nan => true | _ => false end.

(** The exact rational value of a finite float; [0] for the others. *)
Definition SF2Q (x : spec_float) : Q :=
  match x with
  | S754_finite s m e =>
      let a := if s then Zneg m else Zpos m in
      match e with
      | Z0 => (a # 1)%Q
      | Zpos p => ((a * 2 ^ Zpos p) # 1)%Q
      | Zneg p => (a # (2 ^ p))%Q
      end
  | _ => 0%Q
  end.

Definition value (x : float) : Q := SF2Q (Prim2SF x).

(** [k] is [q] truncated toward zero. *)
Definition truncation_of (q : Q) (k : Z) : Prop :=
  (Qabs (inject_Z k) <= Qabs q)%Q ∧
  (Qabs q < Qabs (inject_Z k) + 1)%Q ∧
  (0 <= q * inject_Z k)%Q.

End F64.

(** ** The NumPy functions the module calls, on one-dimensional arrays

    NumPy is not part of the program; each function below follows NumPy's
    documented behaviour on a one-dimensional [float64] array. *)

Module Np.

Abbreviation array := (list float).

(** [a[i]] for a Python integer [i]: negative indices count from the end. *)
Definition getitem (a : array) (i : Z) : res float :=
  let n := Z.of_nat (length a) in
  if (i <? - n)%Z || (n <=? i)%Z then
    Raise (IndexError "index out of bounds")
  else
    match a !! Z.to_nat (if (i <? 0)%Z then i + n else i)%Z with
    | Some v => Ok v
    | None => Raise (IndexError "index out of bounds")
    end.

(** [a[i:j]] for non-negative [i] and [j]. *)
Definition slice (i j : nat) {A} (a : list A) : list A :=
  take (j - i) (drop i a).

(** [np.insert(a, i, v)]: [v] goes before position [i]. *)
Definition insert (a : array) (i : Z) (v : float) : res array :=
  let n := Z.of_nat (length a) in
  if (i <? - n)%Z || (n <? i)%Z then
    Raise (IndexError "index out of bounds")
  else
    let j := Z.to_nat (if (i <? 0)%Z then i + n else i)%Z in
    Ok (take j a ++ v :: drop j a).

Definition append (a : array) (v : float) : array := a ++ [v].

Definition zeros (n : nat) : array := replicate n 0%float.

Definition isnan (a : array) : list bool := is_nan <$> a.

(** [np.where(c, x, a)] with a scalar [x]. *)
Definition where_ (c : list bool) (x : float) (a : array) : array :=
  zip_with (λ (b : bool) v, if b then x else v) c a.

(** [a[mask] = x]. *)
Definition putmask (a : array) (mask : list bool) (x : float) : array :=
  zip_with (λ (b : bool) v, if b then x else v) mask a.

(** [np.diff]: [a[1:] - a[:-1]]. *)
Fixpoint diff (a : array) : array :=
  match a with
  | x :: (y :: _) as t => (y - x)%float :: diff t
  | _ => []
  end.

(** [np.cumsum]: running sum, left to right. *)
Fixpoint cumsum_from (acc : float) (a : array) : array :=
  match a with
  | [] => []
  | x :: t => let s := (acc + x)%float in s :: cumsum_from s t
  end.

Definition cumsum (a : array) : array :=
  match a with
  | [] => []
  | x :: t => x :: cumsum_from x t
  end.

(** [np.any]: some element is not zero (NaN counts as not zero). *)
Definition any (a : array) : bool :=
  existsb (λ v, negb (v =? 0)%float) a.

Definition abs (a : array) : array := PrimFloat.abs <$> a.

(** Element-wise binary operation with NumPy's broadcasting of a
    one-element operand. *)
Definition broadcast2 (op : float → float → float) (a b : array) : res array :=
  if (length a =? length b)%nat then Ok (zip_with op a b)
  else match a, b with
       | [x], _ => Ok (op x <$> b)
       | _, [y] => Ok ((λ v, op v y) <$> a)
       | _, _ => Raise (ValueError "operands could not be broadcast together")
       end.

(** [a > x] against a scalar. *)
Definition gt_scalar (a : array) (x : float) : list bool :=
  (λ v, F64.gtb v x) <$> a.

Definition div_scalar (a : array) (x : float) : array :=
  (λ v, v / x)%float <$> a.

Definition mul_scalar (a : array) (x : float) : array :=
  (λ v, v * x)%float <$> a.

(** [astype(int)] on one value: the C conversion to a 64-bit integer, which
    drops the fraction.  NaN, infinities and values out of range give the
    x86-64 "integer indefinite" value (C leaves them undefined). *)
Definition int64_min : Z := (- 2 ^ 63)%Z.

Definition astype_int1 (x : float) : Z :=
  match Prim2SF x with
  | S754_zero _ => 0%Z
  | S754_finite s m e =>
      let mag := Z.shiftl (Zpos m) e in
      let v := if s then (- mag)%Z else mag in
      if (int64_min <=? v)%Z && (v <? 2 ^ 63)%Z then v else int64_min
  | _ => int64_min
  end.

Definition astype_int (a : array) : list Z := astype_int1 <$> a.

End Np.

(** ** [bisect.bisect] (that is, [bisect_right]) from Python's library

    [lo, hi = 0, len(a)]; while [lo < hi]: [mid = (lo + hi) // 2]; if
    [x < a[mid]] then [hi = mid] else [lo = mid + 1]; return [lo]. *)

Module Bisect.

(** The loop [while lo < hi]; [fuel] bounds the number of iterations. *)
Fixpoint bisect_loop (fuel : nat) (a : Np.array) (x : float) (lo hi : nat)
  : res nat :=
  if (lo <? hi)%nat then
    match fuel with
    | O => Raise OutOfFuel
    | S fuel' =>
        let mid := ((lo + hi) / 2)%nat in
        am ← Np.getitem a (Z.of_nat mid);
        if (x <? am)%float then bisect_loop fuel' a x lo mid
        else bisect_loop fuel' a x (mid + 1) hi
    end
  else Ok lo.

Definition bisect (a : Np.array) (x : float) : res nat :=
  bisect_loop (length a) a x 0 (length a).

End Bisect.

(** ** [zcant/core.pyx] *)

Import Bisect.

(** *** class [ZeroCross]

    The metadata dictionary is a finite map from keys to text: the species,
    the notes and the timestamp that the writer reads are kept as text, and
    no property below depends on any other value. *)

Record ZeroCross : Type := mkZeroCross {
  times : Np.array;
  freqs : Np.array;
  amplitudes : option Np.array;
  metadata : gmap string string
}.

(** [ZeroCross.__init__]: the two length checks, then the four fields. *)
Definition __init__ (times freqs : Np.array) (amplitudes : option Np.array)
    (metadata : gmap string string) : res ZeroCross :=
  if negb (length times =? length freqs)%nat then
    Raise (ValueError ("times (" +:+ pretty (length times) +:+ ") and freqs ("
                       +:+ pretty (length freqs) +:+ ") disagree"))
  else
    match amplitudes with
    | Some a =>
        if negb (length times =? length a)%nat then
          Raise (ValueError ("times (" +:+ pretty (length times)
                             +:+ ") and amplitudes (" +:+ pretty (length a)
                             +:+ ") disagree"))
        else Ok (mkZeroCross times freqs amplitudes metadata)
    | None => Ok (mkZeroCross times freqs amplitudes metadata)
    end.

(** [supports_amplitude]: [self.amplitudes is not None]. *)
Definition supports_amplitude (self : ZeroCross) : bool :=
  match amplitudes self with Some _ => true | None => false end.

(** [__getitem__] on a slice [i:j] with non-negative bounds. *)
Definition __getitem__ (self : ZeroCross) (i j : nat) : res ZeroCross :=
  let amplitudes' :=
    if supports_amplitude self then Np.slice i j <$> amplitudes self
    else None in
  __init__ (Np.slice i j (times self)) (Np.slice i j (freqs self))
           amplitudes' (metadata self).

Definition __len__ (self : ZeroCross) : nat := length (times self).

(** [duration]: zero below two dots, else last time minus first time. *)
Definition duration (self : ZeroCross) : res float :=
  if (length (times self) <? 2)%nat then Ok 0%float
  else
    tn ← Np.getitem (times self) (-1);
    t0 ← Np.getitem (times self) 0;
    Ok (tn - t0)%float.

(** [get_pulses]: the indices whose gap to the next dot exceeds [time_gap]. *)
Definition get_pulses (self : ZeroCross) (time_gap : float) : list nat :=
  (λ p, p.1) <$>
    filter (λ p, F64.gtb p.2 time_gap = true) (imap pair (Np.diff (times self))).

(** The three branches of [windowed] that pick the slice bounds. *)
Definition window_bounds (self : ZeroCross) (start duration : float)
  : res (nat * nat) :=
  tn ← Np.getitem (times self) (-1);
  if F64.geb (tn - start) duration then               (* normal *)
    window_from ← bisect (times self) start;
    window_to ← bisect (times self) (start + duration);
    Ok (window_from, window_to)
  else if F64.geb duration tn then                    (* window too big *)
    Ok (0, length (times self) - 1)%nat
  else                                                (* EOF *)
    window_from ← bisect (times self) (tn - duration);
    Ok (window_from, length (times self) - 1)%nat.

(** [len(zc) == 0 or zc.times[0] > start] *)
Definition needs_leading (zc : ZeroCross) (start : float) : res bool :=
  if (__len__ zc =? 0)%nat then Ok true
  else t0 ← Np.getitem (times zc) 0; Ok (F64.gtb t0 start).

(** The synthetic dot put in front: [start] in all three arrays. *)
Definition insert_leading (zc : ZeroCross) (start : float) : res ZeroCross :=
  times' ← Np.insert (times zc) 0 start;
  freqs' ← Np.insert (freqs zc) 0 start;
  amplitudes' ←
    match amplitudes zc with
    | Some a => a' ← Np.insert a 0 start; Ok (Some a')
    | None => Ok None
    end;
  Ok (mkZeroCross times' freqs' amplitudes' (metadata zc)).

(** [zc.times[-1] < start + duration] *)
Definition needs_trailing (zc : ZeroCross) (start duration : float) : res bool :=
  tn ← Np.getitem (times zc) (-1);
  Ok (tn <? start + duration)%float.

(** The synthetic dot put at the end: time [start + duration], frequency and
    amplitude [0]. *)
Definition append_trailing (zc : ZeroCross) (start duration : float) : ZeroCross :=
  mkZeroCross (Np.append (times zc) (start + duration))
              (Np.append (freqs zc) 0)
              ((λ a, Np.append a 0) <$> amplitudes zc)
              (metadata zc).

Definition windowed (self : ZeroCross) (start duration : float) : res ZeroCross :=
  if (length (times self) <? 2)%nat then Ok self
  else
    '(window_from, window_to) ← window_bounds self start duration;
    zc ← __getitem__ self window_from window_to;
    lead ← needs_leading zc start;
    zc ← (if lead : bool then insert_leading zc start else Ok zc);
    trail ← needs_trailing zc start duration;
    Ok (if trail : bool then append_trailing zc start duration else zc).

(** *** [_smooth]

    [_smooth] and [_slopes] are wrapped in the [print_timing] decorator of
    the package's [__init__], which is not among the sources at hand; it is
    taken to time the call and hand its result through. *)

Definition WINDOW_SIZE : nat := 3.

Definition _smooth (slopes : Np.array) : res Np.array :=
  if (length slopes <=? WINDOW_SIZE)%nat then Ok (Np.zeros (length slopes))
  else
    let slopes := Np.where_ (Np.isnan slopes) 0 slopes in
    slopes0 ← Np.insert slopes 0 0;
    let cumsum := Np.cumsum slopes0 in
    d ← Np.broadcast2 PrimFloat.sub
          (drop WINDOW_SIZE cumsum)
          (take (length cumsum - WINDOW_SIZE) cumsum);
    let smoothed := Np.div_scalar d 3 in
    s0 ← Np.getitem smoothed 0;
    smoothed ← Np.insert smoothed 0 s0;
    sn ← Np.getitem smoothed (-1);
    Np.insert smoothed (-1) sn.

(** *** [_slopes] *)

Section Slopes.

(** [np.log2] on one value; the results below hold whatever it computes. *)
Variable log2 : float → float.

Definition _slopes (x y : Np.array) (max_slope : float) : res Np.array :=
  if (length x =? 0)%nat || (length y =? 0)%nat then Ok []
  else if (length x =? 1)%nat then Ok [0%float]
  else
    let y_octaves :=
      if negb (Np.any y) then y
      else
        let y_octaves := log2 <$> y in
        Np.putmask y_octaves (Np.isnan y_octaves) 0 in
    slopes ← Np.broadcast2 PrimFloat.div (Np.diff y_octaves) (Np.diff x);
    sn ← Np.getitem slopes (-1);
    let slopes := Np.append slopes sn in
    let slopes := Np.abs slopes in
    let slopes := Np.putmask slopes (Np.gt_scalar slopes max_slope) 0 in
    let slopes := Np.putmask slopes (Np.isnan slopes) 0 in
    Ok slopes.

(** [ZeroCross.get_slopes] *)
Definition get_slopes (self : ZeroCross) (smooth : bool) (max_slope : float)
  : res Np.array :=
  slopes ← _slopes (times self) (freqs self) max_slope;
  if smooth then _smooth slopes else Ok slopes.

End Slopes.

(** *** [os.path.dirname], [os.path.exists] and [os.makedirs]

    Python's library, not part of the program.  The application is built
    for macOS, where [os.path] is [posixpath].  [dirname] depends on the
    text of the path alone and is written out; what exists and what can be
    created depends on the file system, a parameter of the writer below. *)

Module OsPath.

(** The separator ['/']. *)
Definition sep : Ascii.ascii := Ascii.ascii_of_nat 47.

(** [p.rfind(c)] from position [i] on: the highest index at which [c]
    occurs, or [-1]. *)
Fixpoint rfind_from (c : Ascii.ascii) (p : list Ascii.ascii) (i : Z) : Z :=
  match p with
  | [] => (-1)%Z
  | x :: t =>
      let r := rfind_from c t (i + 1)%Z in
      if (r =? -1)%Z then (if Ascii.eqb x c then i else (-1)%Z) else r
  end.

Definition rfind (c : Ascii.ascii) (p : list Ascii.ascii) : Z :=
  rfind_from c p 0.

(** [p.rstrip(c)]: [p] without its trailing run of [c]. *)
Fixpoint rstrip (c : Ascii.ascii) (p : list Ascii.ascii) : list Ascii.ascii :=
  match p with
  | [] => []
  | x :: t =>
      match rstrip c t with
      | [] => if Ascii.eqb x c then [] else [x]
      | t' => x :: t'
      end
  end.

(** [posixpath.dirname]: [i = p.rfind('/') + 1]; [head = p[:i]]; if [head]
    is not empty and not made of slashes only, [head = head.rstrip('/')];
    return [head]. *)
Definition dirname (p : string) : string :=
  let l := String.list_ascii_of_string p in
  let i := (rfind sep l + 1)%Z in
  let head := take (Z.to_nat i) l in
  let head :=
    if negb (length head =? 0)%nat && negb (forallb (Ascii.eqb sep) head)
    then rstrip sep head else head in
  String.string_of_list_ascii head.

End OsPath.

(** [OSError(errno, strerror, filename)]. *)
Inductive os_error : Type :=
| OSError (errno : Z) (strerror filename : string).

(** *** [AnabatFileWriteThread.run] *)

(** What [run] hands to the [AnabatFileWriter]: the arguments of
    [write_header] and of [write_intervals], and the directory it created. *)
Record header : Type := mkHeader {
  h_timestamp : option string;
  h_divratio : Z;
  h_species : string;
  h_note1 : string;
  h_note2 : string;
  h_guano : option (gmap string Np.array)
}.

Record written : Type := mkWritten {
  w_makedirs : option string;
  w_header : header;
  w_intervals : list Z
}.

(** How [run] ends: it returns, having made its calls on the writer, or
    [os.makedirs] raised before the writer was opened and the exception
    leaves [run]. *)
Inductive ran : Type :=
| Wrote (w : written)
| Died (e : os_error).

Section Writer.

(** The file system: which non-empty paths exist, and what [os.makedirs]
    answers on a non-empty path ([None] when it made the directories). *)
Variable fs_exists : string → bool.
Variable fs_makedirs : string → option os_error.

(** [os.path.exists]: [os.stat('')] fails, so the empty path never
    exists. *)
Definition path_exists (p : string) : bool :=
  if String.eqb p "" then false else fs_exists p.

(** [os.makedirs]: on the empty path it ends in [mkdir('')], which raises
    [OSError: [Errno 2] No such file or directory: ''] whatever the file
    system holds. *)
Definition makedirs (name : string) : option os_error :=
  if String.eqb name "" then Some (OSError 2 "No such file or directory" "")
  else fs_makedirs name.

Definition AnabatFileWriteThread_run (zc : ZeroCross) (fname : string)
    (divratio : Z) : ran :=
  let md := metadata zc in
  let timestamp := md !! "timestamp" in
  let species := default "" (md !! "species") in
  let note1 := default "" (md !! "note1") in
  let '(note1, note2) :=
    if negb (String.eqb note1 "") then (note1, "Myotisoft ZCANT")
    else ("Myotisoft ZCANT", "") in
  let guano :=
    match amplitudes zc with
    | Some a => Some {[ "ZCANT|Amplitudes" := a ]}
    | None => None
    end in
  let outdir := OsPath.dirname fname in
  let missing := negb (path_exists outdir) in
  match (if missing then makedirs outdir else None) with
  | Some e => Died e
  | None =>
      let made := if missing then Some outdir else None in
      let time_indexes_us := Np.mul_scalar (times zc) 1000000 in
      let intervals_us := Np.diff time_indexes_us in
      let intervals_us := Np.astype_int intervals_us in
      Wrote (mkWritten made
               (mkHeader timestamp divratio species note1 note2 guano)
               intervals_us)
  end.

End Writer.

(** ** Vocabulary of the statements *)

(** The invariant [__init__] enforces: parallel arrays of one length. *)
Definition well_formed (zc : ZeroCross) : bool :=
  (length (times zc) =? length (freqs zc))%nat &&
  match amplitudes zc with
  | Some a => (length (times zc) =? length a)%nat
  | None => true
  end.

(** Times in ascending order, as the windowing code assumes. *)
Fixpoint ascending (a : Np.array) : bool :=
  match a with
  | x :: (y :: _) as t => (x <=? y)%float && ascending t
  | _ => true
  end.

(** No NaN among the values of an array. *)
Definition nan_free (a : Np.array) : bool :=
  forallb (λ v, negb (is_nan v)) a.

(** The test of the first branch of [windowed]. *)
Definition normal_branch (zc : ZeroCross) (start duration : float) : bool :=
  match last (times zc) with
  | Some tn => F64.geb (tn - start) duration
  | None => false
  end.

(** The dots [i:j] of a signal, and a signal with a dot put in front. *)
Definition sliced (zc : ZeroCross) (i j : nat) : ZeroCross :=
  mkZeroCross (Np.slice i j (times zc)) (Np.slice i j (freqs zc))
              (Np.slice i j <$> amplitudes zc) (metadata zc).

Definition with_leading (zc : ZeroCross) (start : float) : ZeroCross :=
  mkZeroCross (start :: times zc) (start :: freqs zc)
              (cons start <$> amplitudes zc) (metadata zc).

(** The test [len(zc) == 0 or zc.times[0] > start], and what the two edge
    repairs make of a slice. *)
Definition leading_test (zc : ZeroCross) (start : float) : bool :=
  match times zc with
  | [] => true
  | t0 :: _ => F64.gtb t0 start
  end.

Definition padded_front (zc : ZeroCross) (start : float) : ZeroCross :=
  if leading_test zc start then with_leading zc start else zc.

(** What a window with exact edges would be: first time equal to [start],
    last time equal to [start + duration] (Python's [==]). *)
Definition window_edges_exact (zc : ZeroCross) (start duration : float) : Prop :=
  ∃ w t0 tn,
    windowed zc start duration = Ok w ∧
    head (times w) = Some t0 ∧ last (times w) = Some tn ∧
    (t0 =? start)%float = true ∧ (tn =? start + duration)%float = true.

(** Three dots at 1, 2 and 3 seconds, with amplitudes. *)
Definition three_dots : ZeroCross :=
  mkZeroCross [1; 2; 3]%float [10; 20; 30]%float (Some [7; 8; 9]%float) ∅.

(** Two dots 2^-20 seconds apart, without amplitudes. *)
Definition two_close_dots : ZeroCross :=
  mkZeroCross [0; 0x1p-20]%float [40; 41]%float None ∅.

(** Arrays with the NaN values, or with all non-finite values, set to zero. *)
Definition nan_to_zero (a : Np.array) : Np.array :=
  (λ v, if is_nan v then 0%float else v) <$> a.

Definition nonfinite_to_zero (a : Np.array) : Np.array :=
  (λ v, if is_finite v then v else 0%float) <$> a.

(** The moving average of [_smooth], before its two ends are padded:
    [(cumsum[3:] - cumsum[:-3]) / 3] on the running sum with a zero in
    front. *)
Definition moving_average (a : Np.array) : Np.array :=
  let cumsum := Np.cumsum (0%float :: a) in
  Np.div_scalar
    (zip_with PrimFloat.sub (drop WINDOW_SIZE cumsum)
       (take (length cumsum - WINDOW_SIZE) cumsum)) 3.

(** What [_slopes] makes of one raw quotient: magnitude, then zero above
    [max_slope], then zero for NaN. *)
Definition clipped (max_slope r : float) : float :=
  let v := PrimFloat.abs r in
  let v := if F64.gtb v max_slope then 0%float else v in
  if is_nan v then 0%float else v.

(** A stand-in for [np.log2] to run [_slopes] on examples: exact on powers
    of two, rounded down to an integer elsewhere.  No theorem depends on
    it. *)
Definition log2_floor (v : float) : float :=
  match Prim2SF v with
  | S754_nan => nan
  | S754_zero _ => neg_infinity
  | S754_infinity false => infinity
  | S754_infinity true => nan
  | S754_finite true _ _ => nan
  | S754_finite false m e =>
      SF2Prim (binary_normalize prec emax (Z.log2 (Zpos m) + e) 0 false)
  end.

(** The output directory is there when the writer is opened: it exists,
    or [os.makedirs] makes it. *)
Definition directory_ready (fs_exists : string → bool)
    (fs_makedirs : string → option os_error) (fname : string) : bool :=
  path_exists fs_exists (OsPath.dirname fname)
  || match makedirs fs_makedirs (OsPath.dirname fname) with
     | None => true
     | Some _ => false
     end.

(** Three dots with a first note in the metadata, without amplitudes. *)
Definition noted_dots : ZeroCross :=
  mkZeroCross [1; 2; 3]%float [10; 20; 30]%float None {[ "note1" := "Site 4" ]}.

(** ** [MainThread]: extraction off the caller's thread

    The two decoders ([zcant.anabat.extract_anabat], [zcant.conversion.wav2zc])
    and [os.path.splitext], [os.path.basename] are taken as given.  What the
    thread hands to its callback is the result of [run]: a signal, or
    [None]. *)

Module Str.

(** [str.lower] and [str.endswith] on ASCII text. *)
Definition lower_ascii (c : Ascii.ascii) : Ascii.ascii :=
  let n := Ascii.nat_of_ascii c in
  if (65 <=? n)%nat && (n <=? 90)%nat then Ascii.ascii_of_nat (n + 32) else c.

Fixpoint lower (s : string) : string :=
  match s with
  | EmptyString => EmptyString
  | String c s' => String (lower_ascii c) (lower s')
  end.

Definition endswith (s suffix : string) : bool :=
  let n := String.length s in
  let m := String.length suffix in
  (m <=? n)%nat && String.eqb (String.substring (n - m) m s) suffix.

End Str.

(** What a call may raise: one of the exceptions above, or the plain
    [Exception] of [extract] with its arguments. *)
Inductive raised : Type :=
| Builtin (e : exn)
| PlainException (args : list string).

Inductive attempt (A : Type) : Type :=
| Done (a : A)
| Failed (e : raised).

Arguments Done {A} a.
Arguments Failed {A} e.

Section Extraction.

(** The keyword arguments, passed on to the decoders as they are. *)
Variable kwargs : Type.

(** [(times, freqs, amplitudes, metadata)] *)
Variable extract_anabat :
  string → kwargs →
  attempt (Np.array * Np.array * option Np.array * gmap string string).
Variable wav2zc :
  string → kwargs →
  attempt (Np.array * Np.array * option Np.array * gmap string string).

(** [os.path.splitext(path)[1]] and [os.path.basename]. *)
Variable splitext_ext : string → string.
Variable basename : string → string.

Definition MainThread_extract (path : string) (kw : kwargs)
  : attempt (Np.array * Np.array * option Np.array * gmap string string) :=
  let ext := Str.lower (splitext_ext path) in
  if Str.endswith ext "#" || String.eqb ext ".zc" then extract_anabat path kw
  else if String.eqb ext ".wav" then wav2zc path kw
  else Failed (PlainException ["Unknown file type: %s"; path]).

(** [run]: the argument with which the callback is called. *)
Definition MainThread_run (path : string) (kw : kwargs) : option ZeroCross :=
  let filename := basename path in
  match MainThread_extract path kw with
  | Done (times, freqs, amplitudes, metadata) =>
      let metadata := <["path" := path]> metadata in
      let metadata := <["filename" := filename]> metadata in
      match __init__ times freqs amplitudes metadata with
      | Ok result => Some result
      | Raise _ => None
      end
  | Failed _ => None
  end.

End Extraction.

(** A float that is neither NaN nor infinite, for every value of an array. *)
Definition all_finite (a : Np.array) : bool := forallb is_finite a.

(** Zero of either sign, or NaN, at the bit level. *)
Definition sf_zero (x : spec_float) : bool :=
  match x with S754_zero _ => true | _ => false end.

Definition sf_zero_or_nan (x : spec_float) : bool :=
  match x with S754_zero _ | S754_nan => true | _ => false end.

(** Two stand-in decoders and the signal the first one leads to, to run the
    extraction on examples. *)
Definition two_dots_decoder (path : string) (kw : unit)
  : attempt (Np.array * Np.array * option Np.array * gmap string string) :=
  Done ([1; 2]%float, [10; 20]%float, None, ∅).

Definition failing_decoder (path : string) (kw : unit)
  : attempt (Np.array * Np.array * option Np.array * gmap string string) :=
  Failed (Builtin (ValueError "not a wave file")).

Definition delivered_two_dots : ZeroCross :=
  mkZeroCross [1; 2]%float [10; 20]%float None
              (<["filename" := "a.ZC"]> (<["path" := "a.ZC"]> ∅)).

(** Finite values, and values that are not below zero, at the bit level. *)
Definition sf_finite (x : spec_float) : bool :=
  match x with S754_zero _ | S754_finite _ _ _ => true | _ => false end.

Definition sf_nonneg (x : spec_float) : bool :=
  match x with
  | S754_zero _ | S754_infinity false | S754_finite false _ _ => true
  | _ => false
  end.

(** ** Rounding to binary64

    The integers behind [SpecFloat]'s rounding of an exact value
    [m * 2^e]: what the two shifts and the round-to-nearest-even step
    leave. *)

(** The record [shr_1] reaches after [k] halvings of an exact mantissa. *)
Definition halved (m : Z) (k : nat) : shr_record :=
  Build_shr_record (m / 2 ^ Z.of_nat k)
    (match k with O => false | S j => Z.odd (m / 2 ^ Z.of_nat j) end)
    (match k with O => false | S j => negb (m mod 2 ^ Z.of_nat j =? 0)%Z end).

(** [m / 2^k] rounded to the nearest integer, ties to even. *)
Definition rne (m : Z) (k : nat) : Z :=
  match k with
  | O => m
  | S j => (m + 2 ^ Z.of_nat j - 1 + Z.b2z (Z.odd (m / 2 ^ Z.of_nat k)))
           / 2 ^ Z.of_nat k
  end%Z.

(** Mantissa and exponent of [m * 2^e] rounded to binary64. *)
Definition round_key (m e : Z) : Z * Z :=
  let n := (fexp prec emax (Zdigits2 m + e) - e)%Z in
  let R := rne m (Z.to_nat n) in
  if (R =? 2 ^ 53)%Z then (2 ^ 52, e + n + 1)%Z else (R, e + n)%Z.

Definition of_key (s : bool) (k : Z * Z) : spec_float :=
  match k.1 with
  | Z0 => S754_zero s
  | Zpos p => if (k.2 <=? emax - prec)%Z then S754_finite s p k.2
              else S754_infinity s
  | Zneg _ => S754_nan
  end.

(** An exponent no coarser than the one the format gives the value. *)
Definition fine (m e : Z) : Prop :=
  (e ≤ fexp prec emax (Zdigits2 m + e))%Z.

(** The exact value of a finite float as a signed mantissa and an exponent
    (zero for the others). *)
Definition mant (x : spec_float) : Z :=
  match x with
  | S754_finite s m _ => if s then Zneg m else Zpos m
  | _ => 0%Z
  end.

Definition expo (x : spec_float) : Z :=
  match x with S754_finite _ _ e => e | _ => 0%Z end.

(** A float with the sign of a zero forgotten; comparisons do not see it. *)
Definition unsigned_zero (x : spec_float) : spec_float :=
  match x with S754_zero _ => S754_zero false | _ => x end.

(** * Part II: properties *)

(** ** IEEE 754 comparisons

    [SFcompare] orders every value that is not NaN, lexicographically on
    sign, exponent and mantissa. *)

Module F64Facts.

Import F64.

Lemma pos_compare_cont_eq m1 m2 :
  Pos.compare_cont Eq m1 m2 = Pos.compare m1 m2.
Proof. reflexivity. Qed.

Ltac sf_cases :=
  repeat match goal with
  | x : spec_float |- _ => destruct x
  | s : bool |- _ => destruct s
  end;
  simpl in *; try congruence; try done.

Ltac cmp_cases :=
  repeat match goal with
  | |- context [Z.compare ?a ?b] =>
      destruct (Z.compare_spec a b); simpl in *; try congruence
  | H : context [Z.compare ?a ?b] |- _ =>
      destruct (Z.compare_spec a b); simpl in *; try congruence
  | |- context [Pos.compare ?a ?b] =>
      destruct (Pos.compare_spec a b); simpl in *; try congruence
  | H : context [Pos.compare ?a ?b] |- _ =>
      destruct (Pos.compare_spec a b); simpl in *; try congruence
  end;
  try done; try lia.

Ltac sf_solve :=
  unfold SFltb, SFleb, SFeqb in *; sf_cases;
  rewrite ?pos_compare_cont_eq in *; cmp_cases.

Lemma SFeqb_refl x : sf_nan x = false → SFeqb x x = true.
Proof.
  intros. unfold SFeqb. sf_cases;
    rewrite Z.compare_refl, pos_compare_cont_eq, Pos.compare_refl; done.
Qed.

Lemma SFeqb_nan_false x : sf_nan x = true → SFeqb x x = false.
Proof. by destruct x. Qed.

Lemma SFltb_false_leb x y :
  sf_nan x = false → sf_nan y = false → SFltb x y = false → SFleb y x = true.
Proof. intros. sf_solve. Qed.

Lemma SFltb_leb x y : SFltb x y = true → SFleb x y = true.
Proof. intros. sf_solve. Qed.

Lemma SFleb_ltb_false x y : SFleb x y = true → SFltb y x = false.
Proof. intros. sf_solve. Qed.

Lemma SFleb_not_ltb_eqb x y :
  SFleb x y = true → SFltb x y = false → SFeqb x y = true.
Proof. intros. sf_solve. Qed.

Lemma SFltb_nan_l x y : SFltb x y = true → sf_nan x = false.
Proof. by destruct x. Qed.

Lemma SFltb_nan_r x y : SFltb x y = true → sf_nan y = false.
Proof. by destruct x, y. Qed.

Lemma SFleb_nan_l x y : SFleb x y = true → sf_nan x = false.
Proof. by destruct x. Qed.

Lemma SFleb_nan_r x y : SFleb x y = true → sf_nan y = false.
Proof. by destruct x, y. Qed.

Lemma SFleb_trans x y z :
  SFleb x y = true → SFleb y z = true → SFleb x z = true.
Proof. intros. sf_solve. Qed.

Lemma SFltb_leb_trans x y z :
  SFltb x y = true → SFleb y z = true → SFltb x z = true.
Proof. intros. sf_solve. Qed.

(** The same facts for the primitive floats the model computes with. *)

Lemma is_nan_spec x : is_nan x = sf_nan (Prim2SF x).
Proof.
  unfold is_nan. rewrite eqb_spec.
  destruct (sf_nan (Prim2SF x)) eqn:E.
  - by rewrite SFeqb_nan_false.
  - by rewrite SFeqb_refl.
Qed.

Lemma eqb_refl x : is_nan x = false → (x =? x)%float = true.
Proof. unfold is_nan. by destruct (x =? x)%float. Qed.

Lemma ltb_false_leb x y :
  is_nan x = false → is_nan y = false →
  (x <? y)%float = false → (y <=? x)%float = true.
Proof. rewrite !is_nan_spec, ltb_spec, leb_spec. apply SFltb_false_leb. Qed.

Lemma ltb_leb x y : (x <? y)%float = true → (x <=? y)%float = true.
Proof. rewrite ltb_spec, leb_spec. apply SFltb_leb. Qed.

Lemma leb_ltb_false x y : (x <=? y)%float = true → (y <? x)%float = false.
Proof. rewrite ltb_spec, leb_spec. apply SFleb_ltb_false. Qed.

Lemma leb_not_ltb_eqb x y :
  (x <=? y)%float = true → (x <? y)%float = false → (x =? y)%float = true.
Proof. rewrite ltb_spec, leb_spec, eqb_spec. apply SFleb_not_ltb_eqb. Qed.

Lemma ltb_not_nan_l x y : (x <? y)%float = true → is_nan x = false.
Proof. rewrite is_nan_spec, ltb_spec. apply SFltb_nan_l. Qed.

Lemma ltb_not_nan_r x y : (x <? y)%float = true → is_nan y = false.
Proof. rewrite is_nan_spec, ltb_spec. apply SFltb_nan_r. Qed.

Lemma leb_not_nan_l x y : (x <=? y)%float = true → is_nan x = false.
Proof. rewrite is_nan_spec, leb_spec. apply SFleb_nan_l. Qed.

Lemma leb_not_nan_r x y : (x <=? y)%float = true → is_nan y = false.
Proof. rewrite is_nan_spec, leb_spec. apply SFleb_nan_r. Qed.

Lemma leb_refl x : is_nan x = false → (x <=? x)%float = true.
Proof.
  intros Hx. apply ltb_false_leb; try done.
  destruct (x <? x)%float eqn:E; [|done].
  pose proof (ltb_leb _ _ E) as Hle.
  by rewrite (leb_ltb_false _ _ Hle) in E.
Qed.

Lemma leb_trans x y z :
  (x <=? y)%float = true → (y <=? z)%float = true → (x <=? z)%float = true.
Proof. rewrite !leb_spec. apply SFleb_trans. Qed.

Lemma ltb_leb_trans x y z :
  (x <? y)%float = true → (y <=? z)%float = true → (x <? z)%float = true.
Proof. rewrite !ltb_spec, leb_spec. apply SFltb_leb_trans. Qed.

End F64Facts.

(** ** The error monad *)

Module PyFacts.

Lemma bind_Ok {A B} (a : A) (f : A → res B) : (Ok a ≫= f) = f a.
Proof. reflexivity. Qed.

End PyFacts.

(** ** NumPy indexing *)

Module NpFacts.

Ltac z_cases :=
  repeat match goal with
  | |- context [(?a <? ?b)%Z] => destruct (Z.ltb_spec a b); try lia
  | |- context [(?a <=? ?b)%Z] => destruct (Z.leb_spec a b); try lia
  end.

Lemma getitem_nat (a : Np.array) (i : nat) :
  Np.getitem a (Z.of_nat i) =
  match a !! i with
  | Some v => Ok v
  | None => Raise (IndexError "index out of bounds")
  end.
Proof.
  unfold Np.getitem. destruct (decide (i < length a)) as [Hi|Hi].
  - z_cases. simpl. by rewrite Nat2Z.id.
  - z_cases. rewrite orb_true_r, lookup_ge_None_2; [done|lia].
Qed.

Lemma getitem_0 (a : Np.array) :
  Np.getitem a 0 =
  match head a with
  | Some v => Ok v
  | None => Raise (IndexError "index out of bounds")
  end.
Proof. change 0%Z with (Z.of_nat 0). rewrite getitem_nat. by destruct a. Qed.

Lemma getitem_last (a : Np.array) :
  Np.getitem a (-1) =
  match last a with
  | Some v => Ok v
  | None => Raise (IndexError "index out of bounds")
  end.
Proof.
  unfold Np.getitem. rewrite last_lookup.
  destruct a as [|x a]; [done|].
  remember (length (x :: a)) as n eqn:Hn.
  assert (1 ≤ n) by (subst n; simpl; lia).
  z_cases. simpl orb. cbv iota.
  replace (Z.to_nat (-1 + Z.of_nat n)) with (pred n) by lia.
  destruct ((x :: a) !! pred n) eqn:E; [done|].
  apply lookup_ge_None in E. lia.
Qed.

Lemma getitem_0_cons x (a : Np.array) : Np.getitem (x :: a) 0 = Ok x.
Proof. by rewrite getitem_0. Qed.

Lemma getitem_last_Some (a : Np.array) v :
  last a = Some v → Np.getitem a (-1) = Ok v.
Proof. intros H. by rewrite getitem_last, H. Qed.

Lemma insert_0 (a : Np.array) v : Np.insert a 0 v = Ok (v :: a).
Proof. unfold Np.insert. z_cases. simpl. by rewrite drop_0. Qed.

Lemma length_slice {A} i j (a : list A) :
  length (Np.slice i j a) = (j - i) `min` (length a - i).
Proof. unfold Np.slice. by rewrite length_take, length_drop. Qed.

Lemma lookup_slice {A} i j (a : list A) k :
  Np.slice i j a !! k = if decide (k < j - i) then a !! (i + k) else None.
Proof.
  unfold Np.slice. case_decide.
  - by rewrite lookup_take_lt, lookup_drop.
  - rewrite lookup_take_ge; [done|lia].
Qed.

Lemma length_diff a : length (Np.diff a) = pred (length a).
Proof.
  induction a as [|x [|y t] IH]; simpl in *; try done.
  by rewrite IH.
Qed.

Lemma lookup_diff a i x y :
  a !! i = Some x → a !! S i = Some y → Np.diff a !! i = Some (y - x)%float.
Proof.
  revert i. induction a as [|x0 [|y0 t] IH]; intros i Hx Hy; try done.
  destruct i as [|i]; simpl in *.
  - congruence.
  - by apply IH.
Qed.

End NpFacts.

(** ** Binary search *)

Module BisectFacts.

Import PyFacts F64Facts NpFacts.

Lemma bisect_loop_O (a : Np.array) x lo hi :
  bisect_loop 0 a x lo hi = if (lo <? hi)%nat then Raise OutOfFuel else Ok lo.
Proof. reflexivity. Qed.

Lemma bisect_loop_S fuel (a : Np.array) x lo hi :
  bisect_loop (S fuel) a x lo hi =
  if (lo <? hi)%nat then
    am ← Np.getitem a (Z.of_nat ((lo + hi) / 2));
    if (x <? am)%float then bisect_loop fuel a x lo ((lo + hi) / 2)
    else bisect_loop fuel a x ((lo + hi) / 2 + 1) hi
  else Ok lo.
Proof. reflexivity. Qed.

Lemma mid_bounds lo hi : lo < hi → lo ≤ (lo + hi) / 2 < hi.
Proof.
  intros. split.
  - apply Nat.div_le_lower_bound; lia.
  - apply Nat.Div0.div_lt_upper_bound; lia.
Qed.

(** The loop ends within [hi - lo] iterations at an index [r] such that the
    element before [r], if the search moved past one, is not above [x], and
    the element at [r], if the search stopped at one, is above [x].  No order
    on [a] is needed for this. *)
Lemma bisect_loop_spec fuel (a : Np.array) x lo hi :
  hi - lo ≤ fuel → lo ≤ hi → hi ≤ length a →
  ∃ r, bisect_loop fuel a x lo hi = Ok r ∧ lo ≤ r ≤ hi ∧
       (r = lo ∨ ∃ v, a !! (r - 1) = Some v ∧ (x <? v)%float = false) ∧
       (r = hi ∨ ∃ v, a !! r = Some v ∧ (x <? v)%float = true).
Proof.
  revert lo hi. induction fuel as [|fuel IH]; intros lo hi Hf Hle Hhi.
  { rewrite bisect_loop_O. destruct (Nat.ltb_spec lo hi); [lia|].
    exists lo. repeat split; auto; lia. }
  rewrite bisect_loop_S. destruct (Nat.ltb_spec lo hi) as [Hlt|Hge];
    [|exists lo; repeat split; auto; lia].
  pose proof (mid_bounds lo hi Hlt) as [Hm1 Hm2].
  set (mid := (lo + hi) / 2) in *.
  rewrite getitem_nat.
  destruct (a !! mid) as [am|] eqn:Ham;
    [|apply lookup_ge_None in Ham; lia].
  rewrite bind_Ok. destruct (x <? am)%float eqn:Hx.
  - destruct (IH lo mid) as (r & Hr & Hb & Hl & Hh); [lia..|].
    exists r. repeat split; [done|lia|lia|done|].
    destruct Hh as [->|Hh]; [|by right].
    right. eauto.
  - destruct (IH (mid + 1) hi) as (r & Hr & Hb & Hl & Hh); [lia..|].
    exists r. repeat split; [done|lia|lia| |done].
    destruct Hl as [->|Hl]; [|by right].
    right. exists am. by replace (mid + 1 - 1) with mid by lia.
Qed.

Lemma bisect_spec (a : Np.array) x :
  ∃ r, bisect a x = Ok r ∧ r ≤ length a ∧
       (r = 0 ∨ ∃ v, a !! (r - 1) = Some v ∧ (x <? v)%float = false) ∧
       (r = length a ∨ ∃ v, a !! r = Some v ∧ (x <? v)%float = true).
Proof.
  destruct (bisect_loop_spec (length a) a x 0 (length a))
    as (r & Hr & Hb & Hl & Hh); [lia..|].
  exists r. repeat split; [done|lia|done|done].
Qed.

(** More fuel does not change the answer. *)
Lemma bisect_loop_fuel f1 f2 (a : Np.array) x lo hi :
  hi - lo ≤ f1 → hi - lo ≤ f2 → lo ≤ hi → hi ≤ length a →
  bisect_loop f1 a x lo hi = bisect_loop f2 a x lo hi.
Proof.
  revert f2 lo hi. induction f1 as [|f1 IH]; intros f2 lo hi H1 H2 Hle Hhi;
    destruct f2 as [|f2]; rewrite ?bisect_loop_O, ?bisect_loop_S;
    destruct (Nat.ltb_spec lo hi) as [Hlt|Hge]; try lia; try done.
  pose proof (mid_bounds lo hi Hlt) as [Hm1 Hm2].
  destruct (Np.getitem a _) as [am|]; [|done].
  rewrite !bind_Ok. destruct (x <? am)%float; apply IH; lia.
Qed.

(** On ascending arrays the boundary facts extend to every index. *)
Lemma ascending_cons x y (t : Np.array) :
  ascending (x :: y :: t) = (x <=? y)%float && ascending (y :: t).
Proof. reflexivity. Qed.

Lemma ascending_lookup (a : Np.array) i j x y :
  ascending a = true → i < j → a !! i = Some x → a !! j = Some y →
  (x <=? y)%float = true.
Proof.
  revert i j x y. induction a as [|x0 [|y0 t] IH]; intros i j x y Hasc Hij Hx Hy.
  - done.
  - destruct j as [|j]; [lia|]. by destruct j.
  - rewrite ascending_cons in Hasc. apply andb_true_iff in Hasc as [H0 Hasc].
    destruct j as [|j]; [lia|]. destruct i as [|i].
    + simpl in Hx. injection Hx as <-. destruct j as [|j].
      * simpl in Hy. by injection Hy as <-.
      * apply (leb_trans _ y0); [done|].
        apply (IH 0 (S j)); [done|lia|done|done].
    + apply (IH i j); [done|lia|done|done].
Qed.

Lemma bisect_ascending (a : Np.array) x :
  ascending a = true →
  ∃ r, bisect a x = Ok r ∧ r ≤ length a ∧
       ∀ i v, a !! i = Some v → (x <? v)%float = true ↔ r ≤ i.
Proof.
  intros Hasc.
  destruct (bisect_spec a x) as (r & Hr & Hb & Hl & Hh).
  exists r. split; [done|]. split; [done|].
  intros i v Hv. pose proof (lookup_lt_Some _ _ _ Hv) as Hi.
  destruct (decide (r ≤ i)) as [Hri|Hri].
  - split; [done|intros _].
    destruct Hh as [->|(v' & Hv' & Hx)]; [lia|].
    destruct (decide (i = r)) as [->|Hne]; [congruence|].
    apply (ltb_leb_trans _ v'); [done|].
    apply (ascending_lookup a r i); [done|lia|done|done].
  - split; [|lia]. intros Hx.
    destruct Hl as [->|(v' & Hv' & Hx')]; [lia|].
    destruct (decide (i = r - 1)) as [->|Hne]; [congruence|].
    assert ((x <? v')%float = true); [|congruence].
    apply (ltb_leb_trans _ v); [done|].
    apply (ascending_lookup a i (r - 1)); [done|lia|done|done].
Qed.

End BisectFacts.

(** ** Windowing *)

Module WindowFacts.

Import PyFacts F64Facts NpFacts BisectFacts.

Lemma well_formed_lengths zc :
  well_formed zc = true →
  length (freqs zc) = length (times zc) ∧
  ∀ a, amplitudes zc = Some a → length a = length (times zc).
Proof.
  unfold well_formed. intros [H1 H2]%andb_true_iff.
  apply Nat.eqb_eq in H1. split; [done|].
  intros a Ha. rewrite Ha in H2. by apply Nat.eqb_eq in H2.
Qed.

Lemma init_ok t f a md :
  well_formed (mkZeroCross t f a md) = true →
  __init__ t f a md = Ok (mkZeroCross t f a md).
Proof.
  unfold well_formed, __init__. simpl. intros [H1 H2]%andb_true_iff.
  rewrite H1. simpl. destruct a as [a|]; [|done]. by rewrite H2.
Qed.

Lemma init_well_formed t f a md zc :
  __init__ t f a md = Ok zc → well_formed zc = true.
Proof.
  unfold __init__, well_formed.
  destruct (length t =? length f)%nat eqn:E1; simpl; [|done].
  destruct a as [a|].
  - destruct (length t =? length a)%nat eqn:E2; simpl; [|done].
    intros [= <-]. simpl. by rewrite E1, E2.
  - intros [= <-]. simpl. by rewrite E1.
Qed.

Lemma sliced_well_formed zc i j :
  well_formed zc = true → well_formed (sliced zc i j) = true.
Proof.
  intros [Hf Ha]%well_formed_lengths. unfold well_formed, sliced. simpl.
  rewrite !length_slice, Hf, Nat.eqb_refl. simpl.
  destruct (amplitudes zc) as [a|]; simpl; [|done].
  rewrite length_slice, (Ha a eq_refl). apply Nat.eqb_refl.
Qed.

Lemma getitem_sliced zc i j :
  well_formed zc = true → __getitem__ zc i j = Ok (sliced zc i j).
Proof.
  intros Hwf. unfold __getitem__.
  replace (if supports_amplitude zc then Np.slice i j <$> amplitudes zc else None)
    with (Np.slice i j <$> amplitudes zc)
    by (unfold supports_amplitude; by destruct (amplitudes zc)).
  apply (init_ok _ _ _ _ (sliced_well_formed zc i j Hwf)).
Qed.

Lemma insert_leading_ok zc s : insert_leading zc s = Ok (with_leading zc s).
Proof.
  unfold insert_leading, with_leading.
  rewrite !insert_0, !bind_Ok.
  destruct (amplitudes zc) as [a|]; [|done].
  by rewrite insert_0, !bind_Ok.
Qed.

Lemma window_bounds_spec zc s d :
  times zc ≠ [] →
  ∃ f t, window_bounds zc s d = Ok (f, t) ∧
         f ≤ length (times zc) ∧ t ≤ length (times zc) ∧
         (normal_branch zc s d = true →
            bisect (times zc) s = Ok f ∧ bisect (times zc) (s + d) = Ok t) ∧
         (normal_branch zc s d = false → t = length (times zc) - 1).
Proof.
  intros Hne. unfold window_bounds, normal_branch.
  rewrite getitem_last.
  destruct (last (times zc)) as [tn|] eqn:Hlast;
    [|by apply last_None in Hlast].
  rewrite bind_Ok.
  destruct (bisect_spec (times zc) s) as (f & Hf & Hfn & _).
  destruct (bisect_spec (times zc) (s + d)) as (t & Ht & Htn & _).
  destruct (bisect_spec (times zc) (tn - d)) as (f' & Hf' & Hfn' & _).
  destruct (F64.geb (tn - s) d).
  - exists f, t. rewrite Hf, bind_Ok, Ht, bind_Ok. by repeat split.
  - destruct (F64.geb d tn).
    + exists 0, (length (times zc) - 1). repeat split; try done; lia.
    + exists f', (length (times zc) - 1). rewrite Hf', bind_Ok.
      repeat split; try done; lia.
Qed.

Lemma needs_leading_ok zc s : needs_leading zc s = Ok (leading_test zc s).
Proof.
  unfold needs_leading, leading_test, __len__. rewrite getitem_0.
  by destruct (times zc).
Qed.

Lemma padded_front_last sl s : ∃ tn, last (times (padded_front sl s)) = Some tn.
Proof.
  unfold padded_front, leading_test, with_leading.
  destruct sl as [[|t0 ts] fs am md]; simpl; [eauto|].
  destruct (F64.gtb t0 s); simpl.
  - destruct (last (s :: t0 :: ts)) eqn:E; [eauto|by apply last_None in E].
  - destruct (last (t0 :: ts)) eqn:E; [eauto|by apply last_None in E].
Qed.

(** [windowed] on a well-formed signal of two dots or more: it never raises,
    and its result is the slice, with the leading and the trailing dot added
    as their tests say. *)
Lemma windowed_shape zc s d :
  well_formed zc = true → 2 ≤ length (times zc) →
  ∃ f t tn,
    window_bounds zc s d = Ok (f, t) ∧
    f ≤ length (times zc) ∧ t ≤ length (times zc) ∧
    (normal_branch zc s d = true →
       bisect (times zc) s = Ok f ∧ bisect (times zc) (s + d) = Ok t) ∧
    (normal_branch zc s d = false → t = length (times zc) - 1) ∧
    last (times (padded_front (sliced zc f t) s)) = Some tn ∧
    windowed zc s d =
      Ok (if (tn <? s + d)%float
          then append_trailing (padded_front (sliced zc f t) s) s d
          else padded_front (sliced zc f t) s).
Proof.
  intros Hwf Hlen.
  destruct (window_bounds_spec zc s d) as (f & t & Hwb & Hf & Ht & Hn & Hnn).
  { intros E. rewrite E in Hlen. simpl in Hlen. lia. }
  destruct (padded_front_last (sliced zc f t) s) as [tn Htn].
  exists f, t, tn. do 6 (split; [done|]).
  unfold windowed.
  destruct (Nat.ltb_spec (length (times zc)) 2) as [|_]; [lia|].
  rewrite Hwb, bind_Ok. rewrite getitem_sliced by done. rewrite bind_Ok.
  rewrite needs_leading_ok, bind_Ok.
  assert ((if leading_test (sliced zc f t) s
           then insert_leading (sliced zc f t) s else Ok (sliced zc f t))
          = Ok (padded_front (sliced zc f t) s)) as ->.
  { unfold padded_front.
    destruct (leading_test _ s); [apply insert_leading_ok|done]. }
  rewrite bind_Ok. unfold needs_trailing.
  by rewrite getitem_last, Htn, !bind_Ok.
Qed.

Lemma nan_free_lookup (a : Np.array) i v :
  nan_free a = true → a !! i = Some v → is_nan v = false.
Proof.
  unfold nan_free. rewrite forallb_forall. intros H Hv.
  apply negb_true_iff, H, list_elem_of_In, list_elem_of_lookup. eauto.
Qed.

Lemma slice_empty {A} f t (a : list A) : t ≤ f → Np.slice f t a = [].
Proof. intros. unfold Np.slice. by replace (t - f) with 0 by lia. Qed.

Lemma head_slice {A} f t (a : list A) :
  f < t → head (Np.slice f t a) = a !! f.
Proof.
  intros. rewrite head_lookup, lookup_slice.
  case_decide; [|lia]. by rewrite Nat.add_0_r.
Qed.

Lemma last_slice {A} f t (a : list A) :
  f < t → t ≤ length a → last (Np.slice f t a) = a !! (t - 1).
Proof.
  intros. rewrite last_lookup, lookup_slice, length_slice.
  case_decide; [|lia]. f_equal. lia.
Qed.

(** The times of a window, from the times of the slice. *)
Lemma windowed_times zc s d :
  well_formed zc = true → 2 ≤ length (times zc) →
  ∃ f t tn w,
    f ≤ length (times zc) ∧ t ≤ length (times zc) ∧
    (normal_branch zc s d = true →
       bisect (times zc) s = Ok f ∧ bisect (times zc) (s + d) = Ok t) ∧
    (normal_branch zc s d = false → t = length (times zc) - 1) ∧
    windowed zc s d = Ok w ∧
    let ts := Np.slice f t (times zc) in
    let ts1 := if match ts with [] => true | t0 :: _ => (s <? t0)%float end
               then s :: ts else ts in
    last ts1 = Some tn ∧
    times w = if (tn <? s + d)%float then ts1 ++ [(s + d)%float] else ts1.
Proof.
  intros Hwf Hlen.
  destruct (windowed_shape zc s d Hwf Hlen)
    as (f & t & tn & _ & Hf & Ht & Hn & Hnn & Htn & Hw).
  exists f, t, tn. eexists. do 4 (split; [done|]). split; [exact Hw|].
  revert Htn.
  unfold padded_front, leading_test, F64.gtb, with_leading, append_trailing,
    sliced, Np.append.
  simpl. destruct (Np.slice f t (times zc)) as [|t0 ts]; simpl.
  - intros [= <-]. split; [done|]. by destruct (s <? s + d)%float.
  - destruct (s <? t0)%float; simpl; intros Htn; (split; [done|]);
      by destruct (tn <? s + d)%float.
Qed.

(** All three arrays of a window: the slice, with [start] in front of each
    when the leading test holds, and [start + duration], [0], [0] behind
    when the trailing test holds. *)
Lemma windowed_arrays zc s d :
  well_formed zc = true → 2 ≤ length (times zc) →
  ∃ f t tn w,
    window_bounds zc s d = Ok (f, t) ∧
    f ≤ length (times zc) ∧ t ≤ length (times zc) ∧
    (normal_branch zc s d = true →
       bisect (times zc) s = Ok f ∧ bisect (times zc) (s + d) = Ok t) ∧
    (normal_branch zc s d = false → t = length (times zc) - 1) ∧
    windowed zc s d = Ok w ∧
    last (times (padded_front (sliced zc f t) s)) = Some tn ∧
    let lead := leading_test (sliced zc f t) s in
    let trail := (tn <? s + d)%float in
    times w = (if lead then [s] else []) ++ Np.slice f t (times zc)
              ++ (if trail then [(s + d)%float] else []) ∧
    freqs w = (if lead then [s] else []) ++ Np.slice f t (freqs zc)
              ++ (if trail then [0%float] else []) ∧
    amplitudes w =
      (λ a, (if lead then [s] else []) ++ Np.slice f t a
            ++ (if trail then [0%float] else [])) <$> amplitudes zc ∧
    metadata w = metadata zc.
Proof.
  intros Hwf Hlen.
  destruct (windowed_shape zc s d Hwf Hlen)
    as (f & t & tn & Hwb & Hf & Ht & Hn & Hnn & Htn & Hw).
  exists f, t, tn. eexists. do 5 (split; [done|]). split; [exact Hw|].
  split; [done|]. clear Hw Htn.
  unfold padded_front, with_leading, append_trailing, Np.append.
  destruct (leading_test (sliced zc f t) s), (tn <? s + d)%float;
    unfold sliced; simpl; rewrite ?app_nil_r;
    (repeat split; try done);
    destruct (amplitudes zc); simpl; by rewrite ?app_nil_r.
Qed.

End WindowFacts.

(** ** The edges of a window (C1) *)

Module WindowEdges.

Import PyFacts F64Facts NpFacts BisectFacts WindowFacts.

Lemma bisect_above (a : Np.array) x r :
  bisect a x = Ok r → r < length a →
  ∃ v, a !! r = Some v ∧ (x <? v)%float = true.
Proof.
  intros Hr Hlt. destruct (bisect_spec a x) as (r' & Hr' & _ & _ & Hh).
  rewrite Hr in Hr'. injection Hr' as <-.
  destruct Hh as [->|Hh]; [lia|done].
Qed.

Lemma bisect_below (a : Np.array) x r :
  bisect a x = Ok r → 0 < r →
  ∃ v, a !! (r - 1) = Some v ∧ (x <? v)%float = false.
Proof.
  intros Hr Hlt. destruct (bisect_spec a x) as (r' & Hr' & _ & Hl & _).
  rewrite Hr in Hr'. injection Hr' as <-.
  destruct Hl as [->|Hl]; [lia|done].
Qed.

(** The trailing repair: whatever the front of the window, its last time
    ends at or after [sd], and on [sd] when the last time before the repair
    is not beyond it. *)
Lemma trailing_edges (ts1 tsw : Np.array) t0 tn sd :
  head ts1 = Some t0 → last ts1 = Some tn →
  is_nan tn = false → is_nan sd = false →
  tsw = (if (tn <? sd)%float then ts1 ++ [sd] else ts1) →
  ∃ tn', head tsw = Some t0 ∧ last tsw = Some tn' ∧
         (sd <=? tn')%float = true ∧
         ((tn <=? sd)%float = true → (tn' =? sd)%float = true).
Proof.
  intros Hh Hl Hn Hsd ->. destruct (tn <? sd)%float eqn:Hlt.
  - exists sd. split; [by destruct ts1|]. split; [apply last_snoc|].
    split; [by apply leb_refl|]. intros _. by apply eqb_refl.
  - exists tn. split; [done|]. split; [done|].
    split; [by apply ltb_false_leb|]. intros Hle. by apply leb_not_ltb_eqb.
Qed.

(** C1 as stated fails in the oversized-window branch: with dots at 1, 2
    and 3, the window from 2 lasting 5 comes back starting at 1, because the
    retained dot at 1 is not later than [start] and no leading dot is put
    in. *)
Lemma windowed_first_time_not_start :
  well_formed three_dots = true ∧ 2 ≤ length (times three_dots) ∧
  windowed three_dots 2 5 =
    Ok (mkZeroCross [1; 2; 7]%float [10; 20; 0]%float (Some [7; 8; 0]%float) ∅) ∧
  ¬ window_edges_exact three_dots 2 5.
Proof.
  split; [reflexivity|]. split; [simpl; lia|]. split; [reflexivity|].
  intros (w & t0 & tn & Hw & Hh & _ & H0 & _).
  vm_compute in Hw. injection Hw as <-.
  simpl in Hh. injection Hh as <-.
  vm_compute in H0. discriminate.
Qed.

End WindowEdges.

(** ** The oversized window (C2) *)

Module WindowOversized.

Import PyFacts F64Facts NpFacts BisectFacts WindowFacts.

(** Outside the normal branch the slice stops at index [len - 1], which
    leaves the last dot out. *)
Lemma window_bounds_short zc s d :
  times zc ≠ [] → normal_branch zc s d = false →
  ∃ f, window_bounds zc s d = Ok (f, length (times zc) - 1).
Proof.
  intros Hne Hnn.
  destruct (window_bounds_spec zc s d Hne) as (f & t & Hwb & _ & _ & _ & Ht).
  exists f. by rewrite Hwb, (Ht Hnn).
Qed.

(** C2 at a failing input.  Dots at 1, 2 and 3; the window from 0 lasting 5
    is larger than the recording and the normal branch does not apply.  The
    slice taken is [0 : len - 1], so the dot at 3 (frequency 30) is not in
    the window returned. *)
Theorem windowed_oversized_drops_last_dot :
  normal_branch three_dots 0 5 = false ∧
  F64.geb 5 3 = true ∧
  window_bounds three_dots 0 5 = Ok (0, 2) ∧
  windowed three_dots 0 5 =
    Ok (mkZeroCross [0; 1; 2; 5]%float [0; 10; 20; 0]%float
                    (Some [0; 7; 8; 0]%float) ∅) ∧
  ∀ w, windowed three_dots 0 5 = Ok w → 3%float ∉ times w.
Proof.
  do 4 (split; [reflexivity|]).
  intros w Hw. vm_compute in Hw. injection Hw as <-. simpl.
  rewrite !elem_of_cons, elem_of_nil.
  intros [H|[H|[H|[H|[]]]]];
    apply (f_equal (λ x, (x =? 3)%float)) in H; vm_compute in H; discriminate.
Qed.

End WindowOversized.

(** ** The synthetic dots (C10) *)

Module WindowPadding.

Import PyFacts F64Facts NpFacts BisectFacts WindowFacts.

(** C10.  For a well-formed signal of two dots or more that carries
    amplitudes, the window's three arrays are the slice of each array with
    the same synthetic dots around it.  A leading dot is put in exactly when
    the slice is empty or begins after [start], and its time, frequency and
    amplitude are all [start].  A trailing dot is put in exactly when the
    last time so far is before [start + duration]; its time is
    [start + duration] and its frequency and amplitude are [0]. *)
Theorem windowed_synthetic_amplitudes zc start duration a :
  well_formed zc = true →
  2 ≤ length (times zc) →
  amplitudes zc = Some a →
  ∃ f t (lead trail : bool) tn w,
    window_bounds zc start duration = Ok (f, t) ∧
    windowed zc start duration = Ok w ∧
    lead = leading_test (sliced zc f t) start ∧
    last (times (padded_front (sliced zc f t) start)) = Some tn ∧
    trail = (tn <? start + duration)%float ∧
    times w = (if lead then [start] else []) ++ Np.slice f t (times zc)
              ++ (if trail then [(start + duration)%float] else []) ∧
    freqs w = (if lead then [start] else []) ++ Np.slice f t (freqs zc)
              ++ (if trail then [0%float] else []) ∧
    amplitudes w =
      Some ((if lead then [start] else []) ++ Np.slice f t a
            ++ (if trail then [0%float] else [])).
Proof.
  intros Hwf Hlen Ha.
  destruct (windowed_arrays zc start duration Hwf Hlen)
    as (f & t & tn & w & Hwb & _ & _ & _ & _ & Hw & Htn & Ht & Hfr & Ham & _).
  exists f, t, (leading_test (sliced zc f t) start),
    (tn <? start + duration)%float, tn, w.
  do 7 (split; [done|]). by rewrite Ham, Ha.
Qed.

(** C10 on three dots: the window from 1.5 lasting 1 gets both synthetic
    dots. *)
Lemma windowed_synthetic_amplitudes_witness :
  ∃ f t (lead trail : bool) tn w,
    window_bounds three_dots 1.5 1 = Ok (f, t) ∧
    windowed three_dots 1.5 1 = Ok w ∧
    lead = leading_test (sliced three_dots f t) 1.5 ∧
    last (times (padded_front (sliced three_dots f t) 1.5)) = Some tn ∧
    trail = (tn <? 1.5 + 1)%float ∧
    times w = (if lead then [1.5%float] else [])
              ++ Np.slice f t (times three_dots)
              ++ (if trail then [(1.5 + 1)%float] else []) ∧
    freqs w = (if lead then [1.5%float] else [])
              ++ Np.slice f t (freqs three_dots)
              ++ (if trail then [0%float] else []) ∧
    amplitudes w =
      Some ((if lead then [1.5%float] else []) ++ Np.slice f t [7; 8; 9]%float
            ++ (if trail then [0%float] else [])).
Proof.
  apply (windowed_synthetic_amplitudes three_dots 1.5 1 [7; 8; 9]%float);
    [reflexivity | simpl; lia | reflexivity].
Defined.

End WindowPadding.

(** ** The dots a normal window keeps (C9) *)

Module WindowNormal.

Import PyFacts F64Facts NpFacts BisectFacts WindowFacts.

Lemma ascending_nan_free (a : Np.array) :
  ascending a = true → 2 ≤ length a → nan_free a = true.
Proof.
  intros Hasc Hlen. unfold nan_free. apply forallb_forall.
  intros x [i Hi]%list_elem_of_In%list_elem_of_lookup.
  apply negb_true_iff.
  pose proof (lookup_lt_Some _ _ _ Hi) as Hlt.
  destruct (decide (S i < length a)) as [Hs|Hs].
  - destruct (lookup_lt_is_Some_2 a (S i) Hs) as [y Hy].
    eapply leb_not_nan_l, (ascending_lookup a i (S i)); eauto.
  - destruct i as [|i]; [lia|].
    destruct (lookup_lt_is_Some_2 a i) as [y Hy]; [lia|].
    eapply leb_not_nan_r, (ascending_lookup a i (S i)); eauto.
Qed.

(** A slice that holds exactly the elements satisfying [P] is the filter. *)
Lemma slice_filter {A} (P : A → Prop) `{∀ x, Decision (P x)} (a : list A) f t :
  (∀ i v, a !! i = Some v → P v ↔ f ≤ i < t) →
  Np.slice f t a = filter P a.
Proof.
  revert f t. induction a as [|x a IH]; intros f t Hchar.
  { unfold Np.slice. by rewrite drop_nil, take_nil. }
  pose proof (Hchar 0 x eq_refl) as H0.
  destruct (decide (P x)) as [Hx|Hx].
  - rewrite filter_cons_True by done. apply H0 in Hx as Hr.
    destruct f as [|f]; [|lia]. destruct t as [|t]; [lia|].
    unfold Np.slice. simpl. f_equal.
    rewrite <- (IH 0 t).
    + unfold Np.slice. by rewrite Nat.sub_0_r.
    + intros i v Hi. rewrite (Hchar (S i) v Hi). lia.
  - rewrite filter_cons_False by done.
    destruct f as [|f].
    + assert (t = 0) as -> by (destruct t; [done|]; exfalso; apply Hx, H0; lia).
      rewrite <- (IH 0 0); [done|].
      intros i v Hi. rewrite (Hchar (S i) v Hi). lia.
    + rewrite <- (IH f (t - 1)).
      * unfold Np.slice. simpl. f_equal. lia.
      * intros i v Hi. rewrite (Hchar (S i) v Hi). lia.
Qed.

(** C9.  In the normal branch, on ascending times, the dots of the signal
    kept in the window are those at indices [f <= i < t], which are exactly
    the dots whose time [v] has [start < v <= start + duration]: a dot at
    [start] itself is left out.  The window returned begins with the
    synthetic dot [(start, start)], then holds those dots, then the trailing
    dot if one is needed. *)
Theorem windowed_normal_retains zc start duration :
  well_formed zc = true →
  2 ≤ length (times zc) →
  ascending (times zc) = true →
  is_nan (start + duration) = false →
  normal_branch zc start duration = true →
  ∃ f t w (trail : bool),
    window_bounds zc start duration = Ok (f, t) ∧
    windowed zc start duration = Ok w ∧
    (∀ i v, times zc !! i = Some v →
       (f ≤ i < t ↔
        (start <? v)%float = true ∧ (v <=? start + duration)%float = true)) ∧
    Np.slice f t (times zc) =
      filter (λ v, (start <? v)%float = true ∧
                   (v <=? start + duration)%float = true) (times zc) ∧
    times w = start :: Np.slice f t (times zc)
              ++ (if trail then [(start + duration)%float] else []) ∧
    freqs w = start :: Np.slice f t (freqs zc)
              ++ (if trail then [0%float] else []).
Proof.
  intros Hwf Hlen Hasc Hsd Hnorm.
  destruct (windowed_arrays zc start duration Hwf Hlen)
    as (f & t & tn & w & Hwb & Hf & Ht & Hn & _ & Hw & _ & Hts & Hfr & _).
  destruct (Hn Hnorm) as [Hbf Hbt].
  destruct (bisect_ascending (times zc) start Hasc) as (f' & Hf' & _ & Hcf).
  destruct (bisect_ascending (times zc) (start + duration) Hasc)
    as (t' & Ht' & _ & Hct).
  rewrite Hbf in Hf'. injection Hf' as <-.
  rewrite Hbt in Ht'. injection Ht' as <-.
  pose proof (ascending_nan_free _ Hasc Hlen) as Hnf.
  assert (∀ i v, times zc !! i = Some v →
            (f ≤ i < t ↔
             (start <? v)%float = true ∧ (v <=? start + duration)%float = true))
    as Hchar.
  { intros i v Hv. pose proof (nan_free_lookup _ _ _ Hnf Hv) as Hvn.
    rewrite (Hcf i v Hv). split.
    - intros [H1 H2]. split; [done|].
      apply ltb_false_leb; [done|done|].
      destruct (start + duration <? v)%float eqn:E; [|done].
      apply (Hct i v Hv) in E. lia.
    - intros [H1 H2]. split; [done|].
      destruct (decide (t ≤ i)) as [Hti|]; [|lia].
      apply (Hct i v Hv) in Hti. by rewrite (leb_ltb_false _ _ H2) in Hti. }
  assert (leading_test (sliced zc f t) start = true) as Hlead.
  { unfold leading_test, sliced, F64.gtb. simpl.
    destruct (Np.slice f t (times zc)) as [|t0 ts] eqn:Hsl; [done|].
    assert (f < t) as Hft.
    { destruct (decide (f < t)); [done|]. rewrite slice_empty in Hsl by lia.
      done. }
    pose proof (head_slice f t (times zc) Hft) as Hh.
    rewrite Hsl in Hh. simpl in Hh. symmetry in Hh.
    apply (Hcf f t0 Hh). lia. }
  exists f, t, w, (tn <? start + duration)%float.
  split; [done|]. split; [done|]. split; [done|].
  split; [by apply slice_filter; intros i v Hv; rewrite (Hchar i v Hv)|].
  simpl in Hts, Hfr. rewrite Hlead in Hts, Hfr. done.
Qed.

(** C9 on three dots: the window from 1 lasting 1 keeps the dot at 2 only;
    the dot at 1, at [start] itself, gives way to the synthetic dot. *)
Lemma windowed_normal_retains_witness :
  ∃ f t w (trail : bool),
    window_bounds three_dots 1 1 = Ok (f, t) ∧
    windowed three_dots 1 1 = Ok w ∧
    (∀ i v, times three_dots !! i = Some v →
       (f ≤ i < t ↔ (1 <? v)%float = true ∧ (v <=? 1 + 1)%float = true)) ∧
    Np.slice f t (times three_dots) =
      filter (λ v, (1 <? v)%float = true ∧ (v <=? 1 + 1)%float = true)
             (times three_dots) ∧
    times w = 1%float :: Np.slice f t (times three_dots)
              ++ (if trail then [(1 + 1)%float] else []) ∧
    freqs w = 1%float :: Np.slice f t (freqs three_dots)
              ++ (if trail then [0%float] else []).
Proof.
  apply (windowed_normal_retains three_dots 1 1);
    [reflexivity | simpl; lia | reflexivity | reflexivity | reflexivity].
Defined.

End WindowNormal.

(** ** Smoothing (C4, C8) *)

Module SmoothFacts.

Import PyFacts F64Facts NpFacts.

Lemma where_isnan (a : Np.array) :
  Np.where_ (Np.isnan a) 0 a = nan_to_zero a.
Proof.
  unfold Np.where_, Np.isnan, nan_to_zero.
  induction a as [|x a IH]; simpl; [done|]. f_equal. exact IH.
Qed.

Lemma nan_to_zero_idemp (a : Np.array) :
  nan_to_zero (nan_to_zero a) = nan_to_zero a.
Proof.
  unfold nan_to_zero. rewrite <- list_fmap_compose.
  apply list_fmap_ext. intros _ x _. simpl.
  destruct (is_nan x) eqn:E; [done|]. by rewrite E.
Qed.

Lemma length_nan_to_zero (a : Np.array) :
  length (nan_to_zero a) = length a.
Proof. apply length_fmap. Qed.

Lemma length_cumsum_from acc (a : Np.array) :
  length (Np.cumsum_from acc a) = length a.
Proof.
  revert acc. induction a as [|x a IH]; intros acc; simpl; [done|].
  by rewrite IH.
Qed.

Lemma length_cumsum (a : Np.array) : length (Np.cumsum a) = length a.
Proof. destruct a; simpl; [done|]. by rewrite length_cumsum_from. Qed.

Lemma insert_m1 (a : Np.array) v :
  a ≠ [] →
  Np.insert a (-1) v =
  Ok (take (length a - 1) a ++ v :: drop (length a - 1) a).
Proof.
  intros Hne. unfold Np.insert.
  assert (1 ≤ length a) by (destruct a; [done|simpl; lia]).
  remember (length a) as n.
  z_cases. simpl orb. cbv iota.
  by replace (Z.to_nat (-1 + Z.of_nat n)) with (n - 1) by lia.
Qed.

Lemma broadcast2_same op (a b : Np.array) :
  length a = length b → Np.broadcast2 op a b = Ok (zip_with op a b).
Proof. intros E. unfold Np.broadcast2. by rewrite E, Nat.eqb_refl. Qed.

Lemma length_moving_average (a : Np.array) :
  length (moving_average a) = length a - 2.
Proof.
  unfold moving_average, Np.div_scalar, WINDOW_SIZE.
  rewrite length_fmap, length_zip_with, length_drop, length_take,
    length_cumsum. simpl. lia.
Qed.

Lemma smooth_long (slopes : Np.array) :
  WINDOW_SIZE < length slopes →
  ∃ s0 sn m,
    moving_average (nan_to_zero slopes) = m ∧
    head m = Some s0 ∧ last m = Some sn ∧
    _smooth slopes =
      Ok (take (length m) (s0 :: m) ++ sn :: drop (length m) (s0 :: m)).
Proof.
  unfold WINDOW_SIZE. intros Hlen.
  pose proof (length_moving_average (nan_to_zero slopes)) as Hm.
  rewrite length_nan_to_zero in Hm.
  destruct (moving_average (nan_to_zero slopes)) as [|s0 m] eqn:E;
    [simpl in Hm; lia|].
  destruct (last (s0 :: m)) as [sn|] eqn:El; [|by apply last_None in El].
  exists s0, sn, (s0 :: m). do 3 (split; [done|]).
  unfold _smooth, WINDOW_SIZE.
  destruct (Nat.leb_spec (length slopes) 3); [lia|].
  rewrite where_isnan, insert_0, bind_Ok.
  rewrite broadcast2_same
    by (rewrite length_drop, length_take, length_cumsum; simpl; lia).
  rewrite bind_Ok.
  unfold moving_average, WINDOW_SIZE in E. rewrite E.
  rewrite getitem_0_cons, bind_Ok, insert_0, bind_Ok.
  rewrite (getitem_last_Some _ sn) by (by rewrite last_cons_cons).
  rewrite bind_Ok, insert_m1 by done.
  by replace (length (s0 :: s0 :: m) - 1) with (length (s0 :: m))
    by (simpl; lia).
Qed.

(** [_smooth] always returns, and an array as long as its input. *)
Lemma smooth_total (slopes : Np.array) :
  ∃ out, _smooth slopes = Ok out ∧ length out = length slopes.
Proof.
  destruct (decide (WINDOW_SIZE < length slopes)) as [Hlen|Hlen].
  - destruct (smooth_long slopes Hlen) as (s0 & sn & m & Hm & _ & _ & ->).
    eexists. split; [done|].
    pose proof (length_moving_average (nan_to_zero slopes)) as Hl.
    rewrite Hm, length_nan_to_zero in Hl. unfold WINDOW_SIZE in Hlen.
    rewrite length_app, length_take. simpl. rewrite length_drop. simpl. lia.
  - exists (Np.zeros (length slopes)). unfold _smooth.
    destruct (Nat.leb_spec (length slopes) WINDOW_SIZE); [|lia].
    split; [done|]. apply length_replicate.
Qed.

(** C8.  On an input no longer than the window, [_smooth] returns zeros,
    as many as the input has values. *)
Theorem smooth_short_is_zero (slopes : Np.array) :
  length slopes ≤ WINDOW_SIZE →
  ∃ out, _smooth slopes = Ok out ∧
         length out = length slopes ∧
         Forall (λ v, v = 0%float) out.
Proof.
  intros Hlen. exists (replicate (length slopes) 0%float). unfold _smooth.
  destruct (Nat.leb_spec (length slopes) WINDOW_SIZE); [|lia].
  split; [done|]. split; [apply length_replicate|].
  apply Forall_forall. by intros v ->%elem_of_replicate_inv.
Qed.

(** C8 on a three-value input, NaN and infinity included. *)
Lemma smooth_short_is_zero_witness :
  ∃ out, _smooth [nan; infinity; 7%float] = Ok out ∧
         length out = length [nan; infinity; 7%float] ∧
         Forall (λ v, v = 0%float) out.
Proof.
  apply (smooth_short_is_zero [nan; infinity; 7%float]).
  unfold WINDOW_SIZE. simpl. lia.
Defined.

(** Putting the last value before the last place is putting it at the end. *)
Lemma pad_shape (m : Np.array) s0 sn :
  last m = Some sn →
  take (length m) (s0 :: m) ++ sn :: drop (length m) (s0 :: m)
  = s0 :: m ++ [sn].
Proof.
  intros [m' ->]%last_Some.
  change (s0 :: m' ++ [sn]) with ((s0 :: m') ++ [sn]).
  rewrite take_app_length', drop_app_length'
    by (rewrite length_app; simpl; lia).
  by rewrite <- app_assoc.
Qed.

(** C4, as the code has it.  On an input longer than the window, [_smooth]
    returns an array of the input's length: the moving average of the input
    with every NaN replaced by [0.0], with its first value repeated in front
    and its last value repeated behind.  It returns the same array when the
    NaN values are replaced beforehand: no NaN input value contributes to
    the averages.  Infinite values are not replaced. *)
Theorem smooth_replaces_nan (slopes : Np.array) :
  WINDOW_SIZE < length slopes →
  ∃ out s0 sn,
    _smooth slopes = Ok out ∧
    length out = length slopes ∧
    head (moving_average (nan_to_zero slopes)) = Some s0 ∧
    last (moving_average (nan_to_zero slopes)) = Some sn ∧
    out = s0 :: moving_average (nan_to_zero slopes) ++ [sn] ∧
    _smooth (nan_to_zero slopes) = Ok out.
Proof.
  intros Hlen.
  destruct (smooth_long slopes Hlen) as (s0 & sn & m & Hm & Hh & Hl & Hs).
  destruct (smooth_total slopes) as (out & Hout & Hlo).
  exists out, s0, sn. rewrite Hm. do 4 (split; [done|]).
  assert (out = s0 :: m ++ [sn]) as Hshape.
  { rewrite Hs, pad_shape in Hout by done. by injection Hout. }
  split; [done|].
  destruct (smooth_long (nan_to_zero slopes))
    as (s0' & sn' & m' & Hm' & Hh' & Hl' & ->);
    [by rewrite length_nan_to_zero|].
  rewrite nan_to_zero_idemp, Hm in Hm'. subst m'.
  rewrite Hh in Hh'. injection Hh' as <-.
  rewrite Hl in Hl'. injection Hl' as <-.
  by rewrite pad_shape, Hshape.
Qed.

(** C4 on a five-value input with a NaN in front. *)
Lemma smooth_replaces_nan_witness :
  ∃ out s0 sn,
    _smooth [nan; 1; 2; 3; 4]%float = Ok out ∧
    length out = length [nan; 1; 2; 3; 4]%float ∧
    head (moving_average (nan_to_zero [nan; 1; 2; 3; 4]%float)) = Some s0 ∧
    last (moving_average (nan_to_zero [nan; 1; 2; 3; 4]%float)) = Some sn ∧
    out = s0 :: moving_average (nan_to_zero [nan; 1; 2; 3; 4]%float) ++ [sn] ∧
    _smooth (nan_to_zero [nan; 1; 2; 3; 4]%float) = Ok out.
Proof.
  apply (smooth_replaces_nan [nan; 1; 2; 3; 4]%float).
  unfold WINDOW_SIZE. simpl. lia.
Defined.

(** C4 as stated fails: an infinite input value is not replaced.  With
    [inf, 1, 2, 3] the running sum becomes infinite and the output holds
    infinities and NaN, where the input with [0.0] in place of the infinity
    gives [1, 1, 2, 2]. *)
Lemma smooth_keeps_infinity :
  WINDOW_SIZE < length [infinity; 1; 2; 3]%float ∧
  nonfinite_to_zero [infinity; 1; 2; 3]%float = [0; 1; 2; 3]%float ∧
  _smooth [infinity; 1; 2; 3]%float = Ok [infinity; infinity; nan; nan] ∧
  _smooth [0; 1; 2; 3]%float = Ok [1; 1; 2; 2]%float ∧
  _smooth [infinity; 1; 2; 3]%float
    ≠ _smooth (nonfinite_to_zero [infinity; 1; 2; 3]%float).
Proof.
  split; [unfold WINDOW_SIZE; simpl; lia|].
  do 3 (split; [reflexivity|]).
  vm_compute. discriminate.
Qed.

End SmoothFacts.

(** ** Slopes (C3) *)

Module SlopeFacts.

Import PyFacts F64Facts NpFacts SmoothFacts.

Lemma is_finite_spec x :
  is_finite x =
  match Prim2SF x with
  | S754_zero _ | S754_finite _ _ _ => true
  | _ => false
  end.
Proof.
  unfold is_finite, is_infinity. rewrite is_nan_spec, eqb_spec, abs_spec.
  change (Prim2SF infinity) with (S754_infinity false).
  by destruct (Prim2SF x) as [[]|[]| |[] m e].
Qed.

Lemma zero_leb_abs r :
  is_nan (PrimFloat.abs r) = false → (0 <=? PrimFloat.abs r)%float = true.
Proof.
  rewrite is_nan_spec, leb_spec, abs_spec.
  change (Prim2SF 0) with (S754_zero false).
  by destruct (Prim2SF r) as [[]|[]| |[] m e].
Qed.

Lemma leb_finite_abs r m :
  is_finite m = true → (PrimFloat.abs r <=? m)%float = true →
  is_finite (PrimFloat.abs r) = true.
Proof.
  rewrite !is_finite_spec, leb_spec, abs_spec.
  destruct (Prim2SF r) as [[]|[]| |[] mr er],
    (Prim2SF m) as [[]|[]| |[] mm em]; simpl; done.
Qed.

(** One value of the result of [_slopes]. *)
Lemma clipped_bounds max_slope r :
  is_finite max_slope = true → (0 <=? max_slope)%float = true →
  (0 <=? clipped max_slope r)%float = true ∧
  is_finite (clipped max_slope r) = true ∧
  (clipped max_slope r <=? max_slope)%float = true.
Proof.
  intros Hfin Hpos. unfold clipped, F64.gtb.
  assert (is_nan max_slope = false) as Hmn by (by eapply leb_not_nan_r).
  destruct (max_slope <? PrimFloat.abs r)%float eqn:Hgt.
  { change (is_nan 0) with false. cbv iota. by repeat split. }
  destruct (is_nan (PrimFloat.abs r)) eqn:Hnan.
  { by repeat split. }
  assert ((PrimFloat.abs r <=? max_slope)%float = true) as Hle
    by (by apply ltb_false_leb).
  split; [by apply zero_leb_abs|]. split; [by eapply leb_finite_abs|done].
Qed.

Lemma putmask_fmap (f : float → bool) (a : Np.array) x :
  Np.putmask a (f <$> a) x = (λ v, if f v then x else v) <$> a.
Proof.
  unfold Np.putmask. induction a as [|y a IH]; simpl; [done|].
  f_equal. exact IH.
Qed.

(** Past the two length tests, [_slopes] is [clipped] mapped over the raw
    quotients, the last one repeated. *)
Lemma slopes_clipped log2 (x y : Np.array) max_slope :
  length x = length y → 2 ≤ length x →
  ∃ raw sn,
    length raw = length x - 1 ∧ last raw = Some sn ∧
    _slopes log2 x y max_slope = Ok (clipped max_slope <$> (raw ++ [sn])).
Proof.
  intros Hxy Hlen. unfold _slopes.
  destruct (Nat.eqb_spec (length x) 0) as [|_]; [lia|].
  destruct (Nat.eqb_spec (length y) 0) as [|_]; [lia|].
  destruct (Nat.eqb_spec (length x) 1) as [|_]; [lia|].
  simpl orb. cbv iota.
  set (y_octaves := if negb (Np.any y) then y else _).
  assert (length y_octaves = length y) as Hyo.
  { unfold y_octaves. destruct (negb (Np.any y)); [done|].
    unfold Np.isnan. by rewrite putmask_fmap, !length_fmap. }
  rewrite broadcast2_same by (rewrite !length_diff; lia).
  set (raw := zip_with PrimFloat.div (Np.diff y_octaves) (Np.diff x)).
  assert (length raw = length x - 1) as Hraw.
  { unfold raw. rewrite length_zip_with, !length_diff. lia. }
  destruct (last raw) as [sn|] eqn:Hsn;
    [|apply last_None in Hsn; rewrite Hsn in Hraw; simpl in Hraw; lia].
  exists raw, sn. split; [done|]. split; [done|].
  rewrite bind_Ok, (getitem_last_Some _ _ Hsn), bind_Ok.
  unfold Np.gt_scalar, Np.isnan, Np.abs, Np.append.
  rewrite !putmask_fmap, <- !list_fmap_compose. done.
Qed.

(** C3.  For [x] and [y] of one length, two values or more, and a
    [max_slope] that is finite and not negative, [_slopes] returns an array
    of that length whose every value is at least zero, finite, and at most
    [max_slope] -- whatever [np.log2] computes, and whether or not [x] is
    ascending. *)
Theorem slopes_bounded log2 (x y : Np.array) max_slope :
  length x = length y →
  2 ≤ length x →
  is_finite max_slope = true →
  (0 <=? max_slope)%float = true →
  ∃ slopes,
    _slopes log2 x y max_slope = Ok slopes ∧
    length slopes = length x ∧
    Forall (λ v, (0 <=? v)%float = true ∧ is_finite v = true ∧
                 (v <=? max_slope)%float = true) slopes.
Proof.
  intros Hxy Hlen Hfin Hpos.
  destruct (slopes_clipped log2 x y max_slope Hxy Hlen)
    as (raw & sn & Hraw & _ & ->).
  eexists. split; [done|]. split.
  - rewrite length_fmap, length_app, Hraw. simpl. lia.
  - apply Forall_fmap, Forall_forall. intros r _. simpl.
    by apply clipped_bounds.
Qed.

(** C3 on the doubling frequencies 1, 2, 4, 8 at times 0, 1, 2, 3, with the
    default [max_slope] of 5000. *)
Lemma slopes_bounded_witness :
  ∃ slopes,
    _slopes log2_floor [0; 1; 2; 3]%float [1; 2; 4; 8]%float 5000 = Ok slopes ∧
    length slopes = length [0; 1; 2; 3]%float ∧
    Forall (λ v, (0 <=? v)%float = true ∧ is_finite v = true ∧
                 (v <=? 5000)%float = true) slopes.
Proof.
  apply (slopes_bounded log2_floor [0; 1; 2; 3]%float [1; 2; 4; 8]%float 5000);
    [reflexivity | simpl; lia | reflexivity | reflexivity].
Defined.

End SlopeFacts.

(** ** Construction (C5) *)

Module InitFacts.

(** C5.  When [times] and [freqs] differ in length, or [amplitudes] is
    given with a length other than that of [times], [__init__] raises
    [ValueError] and yields no [ZeroCross]. *)
Theorem init_rejects_mismatch (t f : Np.array) (a : option Np.array)
    (md : gmap string string) :
  length t ≠ length f ∨ (∃ a', a = Some a' ∧ length t ≠ length a') →
  (∃ msg, __init__ t f a md = Raise (ValueError msg)) ∧
  ∀ zc, __init__ t f a md ≠ Ok zc.
Proof.
  intros H.
  assert (∃ msg, __init__ t f a md = Raise (ValueError msg)) as [msg Hm].
  { unfold __init__.
    destruct (Nat.eqb_spec (length t) (length f)) as [Htf|Htf]; simpl;
      [|eauto].
    destruct H as [H|(a' & -> & H)]; [done|].
    destruct (Nat.eqb_spec (length t) (length a')); simpl; [done|eauto]. }
  split; [eauto|]. intros zc. by rewrite Hm.
Qed.

(** C5 on two times against one frequency, and on two times and
    frequencies against three amplitudes. *)
Lemma init_rejects_mismatch_witness :
  ((∃ msg, __init__ [1; 2]%float [10]%float None ∅ = Raise (ValueError msg)) ∧
   ∀ zc, __init__ [1; 2]%float [10]%float None ∅ ≠ Ok zc) ∧
  ((∃ msg, __init__ [1; 2]%float [10; 20]%float (Some [7; 8; 9]%float) ∅
           = Raise (ValueError msg)) ∧
   ∀ zc, __init__ [1; 2]%float [10; 20]%float (Some [7; 8; 9]%float) ∅ ≠ Ok zc).
Proof.
  split.
  - apply (init_rejects_mismatch [1; 2]%float [10]%float None ∅).
    left. simpl. lia.
  - apply (init_rejects_mismatch [1; 2]%float [10; 20]%float
             (Some [7; 8; 9]%float) ∅).
    right. exists [7; 8; 9]%float. split; [reflexivity|simpl; lia].
Defined.

End InitFacts.

(** ** The Anabat writer (C6, C7) *)

Module WriterFacts.

Import PyFacts F64Facts NpFacts SlopeFacts.

(** When the output directory is ready, [run] makes its calls on the
    writer, with these arguments. *)
Lemma run_ready (fs_exists : string → bool)
    (fs_makedirs : string → option os_error) (zc : ZeroCross) (fname : string)
    (divratio : Z) :
  directory_ready fs_exists fs_makedirs fname = true →
  ∃ w,
    AnabatFileWriteThread_run fs_exists fs_makedirs zc fname divratio
    = Wrote w ∧
    w_makedirs w
    = (if path_exists fs_exists (OsPath.dirname fname) then None
       else Some (OsPath.dirname fname)) ∧
    h_timestamp (w_header w) = metadata zc !! "timestamp" ∧
    h_divratio (w_header w) = divratio ∧
    h_species (w_header w) = default "" (metadata zc !! "species") ∧
    (h_note1 (w_header w), h_note2 (w_header w))
    = (let note1 := default "" (metadata zc !! "note1") in
       if negb (String.eqb note1 "") then (note1, "Myotisoft ZCANT")
       else ("Myotisoft ZCANT", "")) ∧
    h_guano (w_header w)
    = (match amplitudes zc with
       | Some a => Some {[ "ZCANT|Amplitudes" := a ]}
       | None => None
       end) ∧
    w_intervals w
    = Np.astype_int1 <$> Np.diff ((λ v, v * 1000000)%float <$> times zc).
Proof.
  unfold directory_ready, AnabatFileWriteThread_run. intros Hr.
  destruct (path_exists fs_exists (OsPath.dirname fname)); simpl in *.
  - destruct (String.eqb _ ""); eexists; repeat split.
  - destruct (makedirs fs_makedirs (OsPath.dirname fname)); [done|].
    destruct (String.eqb _ ""); eexists; repeat split.
Qed.

(** When it is not, [run] ends with the exception of [os.makedirs]. *)
Lemma run_not_ready (fs_exists : string → bool)
    (fs_makedirs : string → option os_error) (zc : ZeroCross) (fname : string)
    (divratio : Z) :
  directory_ready fs_exists fs_makedirs fname = false →
  ∃ e,
    AnabatFileWriteThread_run fs_exists fs_makedirs zc fname divratio
    = Died e ∧
    path_exists fs_exists (OsPath.dirname fname) = false ∧
    makedirs fs_makedirs (OsPath.dirname fname) = Some e.
Proof.
  unfold directory_ready, AnabatFileWriteThread_run. intros Hr.
  destruct (path_exists fs_exists (OsPath.dirname fname)); [done|].
  simpl in *.
  destruct (makedirs fs_makedirs (OsPath.dirname fname)) as [e|]; [|done].
  exists e. by destruct (String.eqb _ "").
Qed.

(** C6.  Whenever the output directory exists or can be made, [run] opens
    the writer and hands it a header.  With [note1] the first note of the
    metadata (empty when absent): if it is not empty the header keeps it
    and carries the application signature as second note; if it is empty
    the header carries the signature as first note and an empty second
    note. *)
Theorem run_note_fields (fs_exists : string → bool)
    (fs_makedirs : string → option os_error) (zc : ZeroCross) (fname : string)
    (divratio : Z) :
  let note1 := default "" (metadata zc !! "note1") in
  directory_ready fs_exists fs_makedirs fname = true →
  ∃ w,
    AnabatFileWriteThread_run fs_exists fs_makedirs zc fname divratio
    = Wrote w ∧
    (note1 ≠ "" →
     h_note1 (w_header w) = note1 ∧ h_note2 (w_header w) = "Myotisoft ZCANT") ∧
    (note1 = "" →
     h_note1 (w_header w) = "Myotisoft ZCANT" ∧ h_note2 (w_header w) = "").
Proof.
  intros note1 Hr.
  destruct (run_ready fs_exists fs_makedirs zc fname divratio Hr)
    as (w & Hw & _ & _ & _ & _ & Hn & _).
  exists w. split; [done|]. fold note1 in Hn. simpl in Hn.
  destruct (String.eqb_spec note1 "") as [He|Hne]; simpl in Hn;
    injection Hn as -> ->; split; done.
Qed.

(** C6 on a signal with the first note ["Site 4"], saved under a directory
    that does not exist yet and is made. *)
Lemma run_note_fields_witness :
  ∃ w,
    AnabatFileWriteThread_run (λ _, false) (λ _, None) noted_dots
      "out/a.00#" 8 = Wrote w ∧
    (default "" (metadata noted_dots !! "note1") ≠ "" →
     h_note1 (w_header w) = default "" (metadata noted_dots !! "note1") ∧
     h_note2 (w_header w) = "Myotisoft ZCANT") ∧
    (default "" (metadata noted_dots !! "note1") = "" →
     h_note1 (w_header w) = "Myotisoft ZCANT" ∧ h_note2 (w_header w) = "").
Proof.
  apply (run_note_fields (λ _, false) (λ _, None) noted_dots "out/a.00#" 8).
  reflexivity.
Defined.

Lemma pos_pow_Z p : Zpos (2 ^ p) = (2 ^ Zpos p)%Z.
Proof. apply Pos2Z.inj_pow. Qed.

Lemma pow2_pos p : (0 < 2 ^ Zpos p)%Z.
Proof. apply Z.pow_pos_nonneg; lia. Qed.

(** The magnitude [m * 2^e] of a finite float, cut to an integer. *)
Lemma shiftl_neg_bounds m p :
  let k := Z.shiftl (Zpos m) (Zneg p) in
  (0 ≤ k ∧ k * 2 ^ Zpos p ≤ Zpos m < (k + 1) * 2 ^ Zpos p)%Z.
Proof.
  intros k. unfold k. rewrite Z.shiftl_div_pow2 by lia.
  change (- Zneg p)%Z with (Zpos p).
  pose proof (pow2_pos p) as HD.
  pose proof (Z.div_pos (Zpos m) (2 ^ Zpos p) ltac:(lia) HD).
  pose proof (Z.mul_div_le (Zpos m) (2 ^ Zpos p) HD).
  pose proof (Z.mul_succ_div_gt (Zpos m) (2 ^ Zpos p) HD).
  lia.
Qed.

Lemma in_range_if (v : Z) :
  (- 2 ^ 63 < v < 2 ^ 63)%Z →
  (if (Np.int64_min <=? v)%Z && (v <? 2 ^ 63)%Z then v else Np.int64_min) = v.
Proof.
  intros H. unfold Np.int64_min.
  destruct (Z.leb_spec (- 2 ^ 63) v); [|lia].
  destruct (Z.ltb_spec v (2 ^ 63)); [|lia]. done.
Qed.

(** [astype(int)] on a finite value within the 64-bit range is truncation
    toward zero of its exact value. *)
Lemma astype_int1_truncates x :
  is_finite x = true →
  (Qabs (F64.value x) < inject_Z (2 ^ 63))%Q →
  F64.truncation_of (F64.value x) (Np.astype_int1 x).
Proof.
  rewrite is_finite_spec. unfold F64.value, Np.astype_int1.
  destruct (Prim2SF x) as [s| | |s m e]; try done; intros _.
  unfold F64.SF2Q, F64.truncation_of.
  destruct e as [|p|p].
  - rewrite Z.shiftl_0_r.
    destruct s; unfold Qabs, Qlt, Qle, Qmult, Qplus, inject_Z;
      cbn [Qnum Qden Z.abs]; intros Hr; rewrite in_range_if by lia; lia.
  - rewrite Z.shiftl_mul_pow2 by lia. pose proof (pow2_pos p).
    destruct s; unfold Qabs, Qlt, Qle, Qmult, Qplus, inject_Z;
      cbn [Qnum Qden]; intros Hr; rewrite in_range_if by lia; nia.
  - destruct (shiftl_neg_bounds m p) as (Hk0 & Hk1 & Hk2).
    pose proof (pow2_pos p).
    set (k := Z.shiftl (Zpos m) (Zneg p)) in *.
    destruct s; unfold Qabs, Qlt, Qle, Qmult, Qplus, inject_Z;
      cbn [Qnum Qden]; rewrite ?Pos2Z.inj_mul, ?pos_pow_Z; intros Hr;
      rewrite in_range_if by nia; nia.
Qed.

(** C7.  Whenever the output directory exists or can be made, [run] hands
    a body to [write_intervals].  Its intervals are one fewer than the
    dots, and the [i]-th is [astype(int)] of the difference of the two
    neighbouring times, each multiplied by 1,000,000 beforehand.  When that
    difference is finite and within the 64-bit range, the interval is its
    exact value truncated toward zero: of magnitude at most that of the
    difference and less than one below it, and never of the opposite
    sign. *)
Theorem run_intervals_truncated (fs_exists : string → bool)
    (fs_makedirs : string → option os_error) (zc : ZeroCross) (fname : string)
    (divratio : Z) (i : nat) (t0 t1 : float) :
  directory_ready fs_exists fs_makedirs fname = true →
  times zc !! i = Some t0 →
  times zc !! S i = Some t1 →
  let d := (t1 * 1000000 - t0 * 1000000)%float in
  ∃ w,
    AnabatFileWriteThread_run fs_exists fs_makedirs zc fname divratio
    = Wrote w ∧
    length (w_intervals w) = length (times zc) - 1 ∧
    w_intervals w !! i = Some (Np.astype_int1 d) ∧
    (is_finite d = true →
     (Qabs (F64.value d) < inject_Z (2 ^ 63))%Q →
     F64.truncation_of (F64.value d) (Np.astype_int1 d)).
Proof.
  intros Hr H0 H1 d.
  destruct (run_ready fs_exists fs_makedirs zc fname divratio Hr)
    as (w & Hw & _ & _ & _ & _ & _ & _ & Hi).
  exists w. split; [done|]. rewrite Hi. split; [|split].
  - rewrite length_fmap, length_diff, length_fmap. lia.
  - rewrite list_lookup_fmap.
    rewrite (lookup_diff _ i (t0 * 1000000)%float (t1 * 1000000)%float);
      [done| |]; by rewrite list_lookup_fmap, ?H0, ?H1.
  - apply astype_int1_truncates.
Qed.

(** C7 on dots at 0 and 2^-20 seconds, saved into an existing directory:
    0.95367431640625 microseconds apart, written as the interval 0
    (rounding would give 1). *)
Lemma run_intervals_truncated_witness :
  (∃ w,
     AnabatFileWriteThread_run (λ _, true) (λ _, None) two_close_dots
       "out/a.00#" 8 = Wrote w ∧
     length (w_intervals w) = length (times two_close_dots) - 1 ∧
     w_intervals w !! 0
     = Some (Np.astype_int1 (0x1p-20 * 1000000 - 0 * 1000000)%float) ∧
     (is_finite (0x1p-20 * 1000000 - 0 * 1000000)%float = true →
      (Qabs (F64.value (0x1p-20 * 1000000 - 0 * 1000000)%float)
       < inject_Z (2 ^ 63))%Q →
      F64.truncation_of (F64.value (0x1p-20 * 1000000 - 0 * 1000000)%float)
        (Np.astype_int1 (0x1p-20 * 1000000 - 0 * 1000000)%float))) ∧
  (0x1p-20 * 1000000 - 0 * 1000000)%float = 0.95367431640625%float ∧
  AnabatFileWriteThread_run (λ _, true) (λ _, None) two_close_dots
    "out/a.00#" 8
  = Wrote (mkWritten None
             (mkHeader None 8 "" "Myotisoft ZCANT" "" None) [0%Z]).
Proof.
  split; [|split; reflexivity].
  apply (run_intervals_truncated (λ _, true) (λ _, None) two_close_dots
           "out/a.00#" 8 0 0%float 0x1p-20%float); reflexivity.
Defined.

End WriterFacts.

(** ** The code on small inputs *)

Module Examples.

(** Frequencies doubling every second: one octave per second throughout. *)
Example slopes_doubling :
  _slopes log2_floor [0; 1; 2; 3; 4; 5]%float [1; 2; 4; 8; 16; 32]%float 5000
  = Ok [1; 1; 1; 1; 1; 1]%float.
Proof. reflexivity. Qed.

Example slopes_single_dot : _slopes log2_floor [7]%float [40]%float 5000 = Ok [0%float].
Proof. reflexivity. Qed.

Example slopes_no_dots : _slopes log2_floor [] [] 5000 = Ok [].
Proof. reflexivity. Qed.

(** A jump of three octaves within 2^-11 seconds (6144 octaves per second)
    is zeroed as too steep. *)
Example slopes_too_steep :
  _slopes log2_floor [0; 0.00048828125; 1.00048828125]%float
          [1; 8; 16]%float 5000
  = Ok [0; 1; 1]%float.
Proof. reflexivity. Qed.

Example smooth_ramp :
  _smooth [0; 1; 2; 3; 4]%float = Ok [1; 1; 2; 3; 3]%float.
Proof. reflexivity. Qed.

(** One gap above the threshold, after the dot of index 1. *)
Example pulses_one_split :
  get_pulses
    (mkZeroCross [0; 0.0009765625; 0.5; 0.5009765625]%float
                 [40; 41; 42; 43]%float None ∅) 0.0078125
  = [1].
Proof. reflexivity. Qed.

Example duration_three_dots : duration three_dots = Ok 2%float.
Proof. reflexivity. Qed.

(** The three branches of [windowed]. *)
Example windowed_normal :
  windowed three_dots 1.5 1
  = Ok (mkZeroCross [1.5; 2; 2.5]%float [1.5; 20; 0]%float
                    (Some [1.5; 8; 0]%float) ∅).
Proof. reflexivity. Qed.

Example windowed_oversized :
  windowed three_dots 0 5
  = Ok (mkZeroCross [0; 1; 2; 5]%float [0; 10; 20; 0]%float
                    (Some [0; 7; 8; 0]%float) ∅).
Proof. reflexivity. Qed.

Example windowed_end_of_file :
  windowed three_dots 2.5 1
  = Ok (mkZeroCross [2.5; 3.5]%float [2.5; 0]%float (Some [2.5; 0]%float) ∅).
Proof. reflexivity. Qed.

(** A signal of fewer than two dots comes back as it is. *)
Example windowed_degenerate :
  windowed (mkZeroCross [1]%float [10]%float None ∅) 0 5
  = Ok (mkZeroCross [1]%float [10]%float None ∅).
Proof. reflexivity. Qed.

(** [posixpath.dirname] on a few paths. *)
Example dirname_paths :
  OsPath.dirname "out/a.00#" = "out" ∧ OsPath.dirname "/a.00#" = "/" ∧
  OsPath.dirname "a.00#" = "" ∧ OsPath.dirname "x//y/" = "x//y" ∧
  OsPath.dirname "//a" = "//" ∧ OsPath.dirname "" = "".
Proof. repeat split. Qed.

(** The header notes, with and without a first note in the metadata. *)
Example notes_kept :
  AnabatFileWriteThread_run (λ _, true) (λ _, None) noted_dots "a/b.00#" 8
  = Wrote (mkWritten None
             (mkHeader None 8 "" "Site 4" "Myotisoft ZCANT" None)
             [1000000%Z; 1000000%Z]).
Proof. reflexivity. Qed.

Example notes_signed :
  AnabatFileWriteThread_run (λ _, false) (λ _, None) three_dots "a/b.00#" 8
  = Wrote (mkWritten (Some "a")
             (mkHeader None 8 "" "Myotisoft ZCANT" ""
                (Some {[ "ZCANT|Amplitudes" := [7; 8; 9]%float ]}))
             [1000000%Z; 1000000%Z]).
Proof. reflexivity. Qed.

(** Negative differences are cut toward zero as well: -0.95 gives 0. *)
Example intervals_negative :
  AnabatFileWriteThread_run (λ _, true) (λ _, None)
    (mkZeroCross [0x1p-20; 0; 0.5]%float [] None ∅) "a/b.00#" 8
  = Wrote (mkWritten None (mkHeader None 8 "" "Myotisoft ZCANT" "" None)
             [0%Z; 500000%Z]).
Proof. reflexivity. Qed.

(** A file name without a directory part: nothing is written. *)
Example bare_name_raises :
  AnabatFileWriteThread_run (λ _, true) (λ _, None) three_dots "out.00#" 8
  = Died (OSError 2 "No such file or directory" "").
Proof. reflexivity. Qed.

End Examples.

(** ** What windowing keeps *)

Module WindowInvariants.

Import PyFacts F64Facts NpFacts BisectFacts WindowFacts.

Lemma windowed_few_dots zc s d :
  length (times zc) < 2 → windowed zc s d = Ok zc.
Proof.
  intros H. unfold windowed.
  by destruct (Nat.ltb_spec (length (times zc)) 2); [|lia].
Qed.

(** [windowed] never raises on a well-formed signal, whatever [start] and
    [duration] (NaN and infinities included), and what it returns is
    well-formed again: the three arrays stay of one length after the edge
    repairs.  The metadata is handed through and amplitudes are there exactly
    when the signal had them. *)
Theorem windowed_keeps_well_formed zc start duration :
  well_formed zc = true →
  ∃ w, windowed zc start duration = Ok w ∧
       well_formed w = true ∧
       metadata w = metadata zc ∧
       supports_amplitude w = supports_amplitude zc.
Proof.
  intros Hwf.
  destruct (decide (length (times zc) < 2)) as [Hlt|Hge].
  { exists zc. by rewrite windowed_few_dots. }
  destruct (windowed_arrays zc start duration Hwf) as
    (f & t & tn & w & _ & _ & _ & _ & _ & Hw & _ & Ht & Hfr & Ham & Hmd);
    [lia|].
  exists w. split; [done|]. simpl in Ht, Hfr, Ham.
  destruct (well_formed_lengths zc Hwf) as [Hlf Hla].
  split; [|split; [done|]].
  - unfold well_formed. rewrite Ht, Hfr, Ham, !length_app, !length_slice, Hlf.
    assert (∀ (b : bool) (x y : float),
              length (if b then [x] else []) = length (if b then [y] else []))
      as Hb by (by intros []).
    rewrite (Hb _ (start + duration)%float 0%float), Nat.eqb_refl. simpl.
    destruct (amplitudes zc) as [a|]; simpl; [|done].
    rewrite !length_app, !length_slice, (Hla a eq_refl).
    apply Nat.eqb_refl.
  - unfold supports_amplitude. rewrite Ham. by destruct (amplitudes zc).
Qed.

Lemma windowed_keeps_well_formed_witness :
  ∃ w, windowed three_dots nan infinity = Ok w ∧
       well_formed w = true ∧
       metadata w = metadata three_dots ∧
       supports_amplitude w = supports_amplitude three_dots.
Proof. apply (windowed_keeps_well_formed three_dots nan infinity). reflexivity. Defined.

(** A window of a signal of two dots or more is never empty, and holds at
    most two dots more than the signal: the dots kept and the two synthetic
    ones. *)
Theorem windowed_size zc start duration :
  well_formed zc = true →
  2 ≤ length (times zc) →
  ∃ w, windowed zc start duration = Ok w ∧
       1 ≤ length (times w) ≤ length (times zc) + 2.
Proof.
  intros Hwf Hlen.
  destruct (windowed_arrays zc start duration Hwf Hlen) as
    (f & t & tn & w & _ & _ & _ & _ & _ & Hw & _ & Ht & _).
  exists w. split; [done|]. simpl in Ht. rewrite Ht, !length_app, length_slice.
  unfold leading_test, sliced. simpl.
  destruct (Np.slice f t (times zc)) as [|t0 ts] eqn:Hsl.
  - destruct (tn <? start + duration)%float; simpl; lia.
  - pose proof (length_slice f t (times zc)) as Hl. rewrite Hsl in Hl.
    simpl in Hl.
    destruct (F64.gtb t0 start), (tn <? start + duration)%float; simpl; lia.
Qed.

Lemma windowed_size_witness :
  ∃ w, windowed three_dots 10 (-1) = Ok w ∧
       1 ≤ length (times w) ≤ length (times three_dots) + 2.
Proof.
  apply (windowed_size three_dots 10 (-1)); [reflexivity | simpl; lia].
Defined.

Lemma ascending_tail x (l : Np.array) : ascending (x :: l) = true → ascending l = true.
Proof. destruct l; [done|]. rewrite ascending_cons. by intros [_ ?]%andb_true_iff. Qed.

Lemma ascending_drop n (l : Np.array) :
  ascending l = true → ascending (drop n l) = true.
Proof.
  revert l. induction n as [|n IH]; intros l H; [done|].
  destruct l as [|x l]; [done|]. simpl. apply IH. by eapply ascending_tail.
Qed.

Lemma ascending_take n (l : Np.array) :
  ascending l = true → ascending (take n l) = true.
Proof.
  revert n. induction l as [|x [|y l] IH]; intros n H.
  - by destruct n.
  - by destruct n as [|[|n]].
  - destruct n as [|[|n]]; [done..|].
    rewrite ascending_cons in H. apply andb_true_iff in H as [Hxy H].
    change (take (S (S n)) (x :: y :: l)) with (x :: take (S n) (y :: l)).
    specialize (IH (S n) H). simpl in IH |- *.
    by rewrite Hxy.
Qed.

Lemma ascending_slice f t (l : Np.array) :
  ascending l = true → ascending (Np.slice f t l) = true.
Proof. intros. by apply ascending_take, ascending_drop. Qed.

Lemma ascending_snoc (l : Np.array) tn x :
  ascending l = true → last l = Some tn → (tn <=? x)%float = true →
  ascending (l ++ [x]) = true.
Proof.
  induction l as [|y [|z l] IH]; intros Hl Hlast Hle.
  - done.
  - simpl in *. injection Hlast as ->. by rewrite Hle.
  - rewrite ascending_cons in Hl. apply andb_true_iff in Hl as [Hyz Hl].
    rewrite last_cons_cons in Hlast.
    change ((y :: z :: l) ++ [x]) with (y :: z :: (l ++ [x])).
    rewrite ascending_cons, Hyz. simpl. by apply IH.
Qed.

(** [windowed] keeps the times in ascending order, in all its branches: the
    leading dot goes in only before a later one, the trailing dot only after
    an earlier one. *)
Theorem windowed_keeps_ascending zc start duration :
  well_formed zc = true →
  ascending (times zc) = true →
  ∃ w, windowed zc start duration = Ok w ∧ ascending (times w) = true.
Proof.
  intros Hwf Hasc.
  destruct (decide (length (times zc) < 2)) as [Hlt|Hge].
  { exists zc. by rewrite windowed_few_dots. }
  destruct (windowed_times zc start duration Hwf) as
    (f & t & tn & w & _ & _ & _ & _ & Hw & Htn & Ht); [lia|].
  exists w. split; [done|]. simpl in Htn, Ht.
  pose proof (ascending_slice f t _ Hasc) as Hsl.
  set (ts := Np.slice f t (times zc)) in *.
  set (ts1 := if match ts with [] => true | t0 :: _ => (start <? t0)%float end
              then start :: ts else ts) in *.
  assert (ascending ts1 = true) as H1.
  { unfold ts1. destruct ts as [|t0 ts']; [done|].
    destruct (start <? t0)%float eqn:E; [|done].
    rewrite ascending_cons, (ltb_leb _ _ E). done. }
  rewrite Ht. destruct (tn <? start + duration)%float eqn:E; [|done].
  apply (ascending_snoc _ tn); [done|done|by apply ltb_leb].
Qed.

Lemma windowed_keeps_ascending_witness :
  ∃ w, windowed three_dots 2.5 1 = Ok w ∧ ascending (times w) = true.
Proof.
  apply (windowed_keeps_ascending three_dots 2.5 1); reflexivity.
Defined.

Lemma window_bounds_cases zc s d tn :
  last (times zc) = Some tn →
  window_bounds zc s d =
  if F64.geb (tn - s) d then
    window_from ← bisect (times zc) s;
    window_to ← bisect (times zc) (s + d);
    Ok (window_from, window_to)
  else if F64.geb d tn then Ok (0, length (times zc) - 1)
  else
    window_from ← bisect (times zc) (tn - d);
    Ok (window_from, length (times zc) - 1).
Proof.
  intros H. unfold window_bounds. by rewrite (getitem_last_Some _ _ H), bind_Ok.
Qed.

(** Outside the normal branch the slice is [times[f : len - 1]]: the dots a
    window keeps never include the last dot of the signal, in the oversized
    branch ([f = 0]) as in the end-of-file branch. *)
Theorem windowed_outside_normal zc start duration tl :
  well_formed zc = true →
  2 ≤ length (times zc) →
  last (times zc) = Some tl →
  normal_branch zc start duration = false →
  ∃ f (lead trail : bool) w,
    window_bounds zc start duration = Ok (f, length (times zc) - 1) ∧
    (F64.geb duration tl = true → f = 0) ∧
    windowed zc start duration = Ok w ∧
    times w = (if lead then [start] else [])
              ++ Np.slice f (length (times zc) - 1) (times zc)
              ++ (if trail then [(start + duration)%float] else []) ∧
    ∀ i v, Np.slice f (length (times zc) - 1) (times zc) !! i = Some v →
           times zc !! (f + i) = Some v ∧ f + i < length (times zc) - 1.
Proof.
  intros Hwf Hlen Hlast Hnn.
  destruct (windowed_arrays zc start duration Hwf Hlen) as
    (f & t & tn & w & Hwb & _ & _ & _ & Ht & Hw & _ & Hts & _).
  specialize (Ht Hnn). subst t.
  exists f, (leading_test (sliced zc f (length (times zc) - 1)) start),
    (tn <? start + duration)%float, w.
  split; [done|]. split.
  { intros Hbig. rewrite (window_bounds_cases _ _ _ tl Hlast) in Hwb.
    unfold normal_branch in Hnn. rewrite Hlast in Hnn. rewrite Hnn, Hbig in Hwb.
    by injection Hwb. }
  split; [done|]. split; [done|].
  intros i v. rewrite lookup_slice. case_decide; [|done].
  intros Hv. split; [done|lia].
Qed.

Lemma windowed_outside_normal_witness :
  ∃ f (lead trail : bool) w,
    window_bounds three_dots 0 5 = Ok (f, length (times three_dots) - 1) ∧
    (F64.geb 5 3 = true → f = 0) ∧
    windowed three_dots 0 5 = Ok w ∧
    times w = (if lead then [0%float] else [])
              ++ Np.slice f (length (times three_dots) - 1) (times three_dots)
              ++ (if trail then [(0 + 5)%float] else []) ∧
    ∀ i v, Np.slice f (length (times three_dots) - 1) (times three_dots) !! i
           = Some v →
           times three_dots !! (f + i) = Some v ∧
           f + i < length (times three_dots) - 1.
Proof.
  apply (windowed_outside_normal three_dots 0 5 3);
    [reflexivity | simpl; lia | reflexivity | reflexivity].
Defined.

(** In the end-of-file branch, on ascending times, the dots kept are the
    dots later than [last time - duration], the last dot left out. *)
Theorem windowed_end_of_file_retains zc start duration tl :
  well_formed zc = true →
  2 ≤ length (times zc) →
  ascending (times zc) = true →
  last (times zc) = Some tl →
  normal_branch zc start duration = false →
  F64.geb duration tl = false →
  ∃ f, window_bounds zc start duration = Ok (f, length (times zc) - 1) ∧
       ∀ i v, times zc !! i = Some v →
              (f ≤ i < length (times zc) - 1 ↔
               (tl - duration <? v)%float = true ∧ i < length (times zc) - 1).
Proof.
  intros Hwf Hlen Hasc Hlast Hnn Hsmall.
  destruct (bisect_ascending (times zc) (tl - duration) Hasc)
    as (f & Hf & _ & Hchar).
  exists f. split.
  - rewrite (window_bounds_cases _ _ _ tl Hlast).
    unfold normal_branch in Hnn. rewrite Hlast in Hnn.
    by rewrite Hnn, Hsmall, Hf, bind_Ok.
  - intros i v Hv. rewrite (Hchar i v Hv). lia.
Qed.

Lemma windowed_end_of_file_retains_witness :
  ∃ f, window_bounds three_dots 1.5 2 = Ok (f, length (times three_dots) - 1) ∧
       ∀ i v, times three_dots !! i = Some v →
              (f ≤ i < length (times three_dots) - 1 ↔
               (3 - 2 <? v)%float = true ∧ i < length (times three_dots) - 1).
Proof.
  apply (windowed_end_of_file_retains three_dots 1.5 2 3);
    [reflexivity | simpl; lia | reflexivity..].
Defined.

End WindowInvariants.

(** ** Slicing a signal *)

Module SliceFacts.

Import PyFacts NpFacts WindowFacts.

Lemma slice_slice {A} i j k l (a : list A) :
  Np.slice k l (Np.slice i j a) = Np.slice (i + k) (j `min` (i + l)) a.
Proof.
  apply list_eq. intros x. rewrite !lookup_slice.
  repeat case_decide; try done; try lia.
  f_equal. lia.
Qed.

Lemma slice_all {A} (a : list A) n : length a ≤ n → Np.slice 0 n a = a.
Proof. intros. unfold Np.slice. rewrite drop_0, Nat.sub_0_r. by apply take_ge. Qed.

(** [zc[i:j]] on a well-formed signal never raises.  It holds the dots of
    index [i] up to [min j len], all three arrays cut alike, with the
    metadata of the signal. *)
Theorem getitem_slice zc i j :
  well_formed zc = true →
  ∃ sl, __getitem__ zc i j = Ok sl ∧
        well_formed sl = true ∧
        __len__ sl = (j `min` __len__ zc) - i ∧
        metadata sl = metadata zc ∧
        supports_amplitude sl = supports_amplitude zc ∧
        ∀ k, k < __len__ sl →
             times sl !! k = times zc !! (i + k) ∧
             freqs sl !! k = freqs zc !! (i + k) ∧
             ((λ a, a !! k) <$> amplitudes sl)
             = ((λ a, a !! (i + k)) <$> amplitudes zc).
Proof.
  intros Hwf. exists (sliced zc i j).
  split; [by apply getitem_sliced|]. split; [by apply sliced_well_formed|].
  unfold __len__, sliced, supports_amplitude. simpl.
  rewrite length_slice. split; [lia|]. split; [done|].
  split; [by destruct (amplitudes zc)|].
  intros k Hk. rewrite !lookup_slice.
  case_decide; [|lia]. do 2 (split; [done|]).
  destruct (amplitudes zc); simpl; [|done].
  rewrite lookup_slice. by case_decide.
Qed.

Lemma getitem_slice_witness :
  ∃ sl, __getitem__ three_dots 1 7 = Ok sl ∧
        well_formed sl = true ∧
        __len__ sl = (7 `min` __len__ three_dots) - 1 ∧
        metadata sl = metadata three_dots ∧
        supports_amplitude sl = supports_amplitude three_dots ∧
        ∀ k, k < __len__ sl →
             times sl !! k = times three_dots !! (1 + k) ∧
             freqs sl !! k = freqs three_dots !! (1 + k) ∧
             ((λ a, a !! k) <$> amplitudes sl)
             = ((λ a, a !! (1 + k)) <$> amplitudes three_dots).
Proof. apply (getitem_slice three_dots 1 7). reflexivity. Defined.

(** Slices compose: [zc[i:j][k:l]] is [zc[i+k : min(j, i+l)]]; and the slice
    over the whole length is the signal itself. *)
Theorem getitem_slice_compose zc i j k l :
  well_formed zc = true →
  (sl ← __getitem__ zc i j; __getitem__ sl k l)
  = __getitem__ zc (i + k) (j `min` (i + l)) ∧
  __getitem__ zc 0 (__len__ zc) = Ok zc.
Proof.
  intros Hwf. split.
  - rewrite (getitem_sliced zc i j Hwf), bind_Ok.
    rewrite (getitem_sliced _ k l (sliced_well_formed zc i j Hwf)).
    rewrite (getitem_sliced zc _ _ Hwf). f_equal.
    unfold sliced. simpl. rewrite !slice_slice. f_equal.
    destruct (amplitudes zc); simpl; [|done]. by rewrite slice_slice.
  - rewrite (getitem_sliced zc _ _ Hwf). f_equal.
    destruct (well_formed_lengths zc Hwf) as [Hf Ha].
    destruct zc as [t f a md]. unfold sliced, __len__. simpl in *.
    rewrite !slice_all by lia. f_equal.
    destruct a as [a|]; simpl; [|done].
    by rewrite slice_all by (rewrite (Ha a eq_refl); lia).
Qed.

Lemma getitem_slice_compose_witness :
  (sl ← __getitem__ three_dots 1 3; __getitem__ sl 1 5)
  = __getitem__ three_dots (1 + 1) (3 `min` (1 + 5)) ∧
  __getitem__ three_dots 0 (__len__ three_dots) = Ok three_dots.
Proof. apply (getitem_slice_compose three_dots 1 3 1 5). reflexivity. Defined.

End SliceFacts.

(** ** Pulses *)

Module PulseFacts.

Import NpFacts F64Facts.

Lemma lookup_diff_inv (a : Np.array) i d :
  Np.diff a !! i = Some d →
  ∃ x y, a !! i = Some x ∧ a !! S i = Some y ∧ d = (y - x)%float.
Proof.
  intros Hd. pose proof (lookup_lt_Some _ _ _ Hd) as Hlt.
  rewrite length_diff in Hlt.
  destruct (lookup_lt_is_Some_2 a i) as [x Hx]; [lia|].
  destruct (lookup_lt_is_Some_2 a (S i)) as [y Hy]; [lia|].
  exists x, y. do 2 (split; [done|]).
  rewrite (lookup_diff a i x y Hx Hy) in Hd. by injection Hd.
Qed.

(** The indices kept by a filter over an indexed list come out in
    increasing order. *)
Lemma filter_indices_sorted {A} (P : nat * A → Prop) `{∀ p, Decision (P p)}
    (l : list A) k :
  StronglySorted lt ((λ p, p.1) <$> filter P (imap (λ i, pair (k + i)) l)) ∧
  Forall (λ j, k ≤ j) ((λ p, p.1) <$> filter P (imap (λ i, pair (k + i)) l)).
Proof.
  revert k. induction l as [|x l IH]; intros k.
  { split; constructor. }
  rewrite imap_cons.
  assert (imap ((λ i, pair (k + i)) ∘ S) l = imap (λ i, pair (S k + i)) l) as ->.
  { apply imap_ext. intros i y _. simpl. f_equal. lia. }
  destruct (IH (S k)) as [Hs Hb].
  destruct (decide (P (k + 0, x))) as [Hp|Hp].
  - rewrite filter_cons_True by done. simpl. split.
    + constructor; [done|]. eapply Forall_impl; [exact Hb|]. simpl. lia.
    + constructor; [lia|]. eapply Forall_impl; [exact Hb|]. simpl. lia.
  - rewrite filter_cons_False by done. split; [done|].
    eapply Forall_impl; [exact Hb|]. simpl. lia.
Qed.

(** [get_pulses] returns, in increasing order, exactly the indices [i] of
    the dots whose successor comes more than [time_gap] later; none for a
    signal of fewer than two dots. *)
Theorem get_pulses_spec zc time_gap :
  StronglySorted lt (get_pulses zc time_gap) ∧
  (∀ i, i ∈ get_pulses zc time_gap ↔
        ∃ t0 t1, times zc !! i = Some t0 ∧ times zc !! S i = Some t1 ∧
                 (time_gap <? t1 - t0)%float = true) ∧
  (length (times zc) < 2 → get_pulses zc time_gap = []).
Proof.
  unfold get_pulses. split; [|split].
  - pose proof (filter_indices_sorted
                  (λ p : nat * float, F64.gtb p.2 time_gap = true)
                  (Np.diff (times zc)) 0) as [Hs _].
    erewrite imap_ext in Hs; [exact Hs|]. by intros i x _.
  - intros i. rewrite list_elem_of_fmap. split.
    + intros ([j d] & -> & [Hp Hin]%list_elem_of_filter). simpl in *.
      apply elem_of_lookup_imap in Hin as (j' & d' & [= -> ->] & Hd).
      destruct (lookup_diff_inv _ _ _ Hd) as (x & y & Hx & Hy & ->).
      by exists x, y.
    + intros (x & y & Hx & Hy & Hgap).
      exists (i, (y - x)%float). split; [done|].
      apply list_elem_of_filter. split; [done|].
      apply elem_of_lookup_imap. exists i, (y - x)%float.
      split; [done|]. by apply lookup_diff.
  - intros Hlt.
    assert (Np.diff (times zc) = []) as ->; [|done].
    apply length_zero_iff_nil. rewrite length_diff. lia.
Qed.

End PulseFacts.

(** ** Slopes of a whole signal *)

Module SlopeExtras.

Import PyFacts F64Facts NpFacts SmoothFacts SlopeFacts WindowFacts.

(** The octaves [_slopes] works on, and its raw quotients. *)
Lemma slopes_unfold log2 (x y : Np.array) max_slope :
  length x = length y → 2 ≤ length x →
  ∃ y_octaves sn,
    y_octaves =
      (if negb (Np.any y) then y
       else Np.putmask (log2 <$> y) (Np.isnan (log2 <$> y)) 0) ∧
    last (zip_with PrimFloat.div (Np.diff y_octaves) (Np.diff x)) = Some sn ∧
    _slopes log2 x y max_slope =
      Ok (clipped max_slope <$>
            (zip_with PrimFloat.div (Np.diff y_octaves) (Np.diff x) ++ [sn])).
Proof.
  intros Hxy Hlen. unfold _slopes.
  destruct (Nat.eqb_spec (length x) 0) as [|_]; [lia|].
  destruct (Nat.eqb_spec (length y) 0) as [|_]; [lia|].
  destruct (Nat.eqb_spec (length x) 1) as [|_]; [lia|].
  simpl orb. cbv iota.
  set (y_octaves := if negb (Np.any y) then y else _).
  assert (length y_octaves = length y) as Hyo.
  { unfold y_octaves. destruct (negb (Np.any y)); [done|].
    unfold Np.isnan. by rewrite putmask_fmap, !length_fmap. }
  rewrite broadcast2_same by (rewrite !length_diff; lia).
  set (raw := zip_with PrimFloat.div (Np.diff y_octaves) (Np.diff x)).
  assert (length raw = length x - 1) as Hraw.
  { unfold raw. rewrite length_zip_with, !length_diff. lia. }
  destruct (last raw) as [sn|] eqn:Hsn;
    [|apply last_None in Hsn; rewrite Hsn in Hraw; simpl in Hraw; lia].
  exists y_octaves, sn. split; [done|]. split; [done|].
  rewrite bind_Ok, (getitem_last_Some _ _ Hsn), bind_Ok.
  unfold Np.gt_scalar, Np.isnan, Np.abs, Np.append.
  rewrite !putmask_fmap, <- !list_fmap_compose. done.
Qed.

Lemma slopes_total log2 (x y : Np.array) max_slope :
  length x = length y →
  ∃ s, _slopes log2 x y max_slope = Ok s ∧ length s = length x.
Proof.
  intros Hxy.
  destruct (decide (2 ≤ length x)) as [Hlen|Hlen].
  - destruct (slopes_unfold log2 x y max_slope Hxy Hlen)
      as (yo & sn & Hyo & Hsn & ->).
    eexists. split; [done|].
    rewrite length_fmap, length_app, length_zip_with, !length_diff. simpl.
    assert (length yo = length y) as Hl.
    { rewrite Hyo. destruct (negb (Np.any y)); [done|].
      unfold Np.isnan. by rewrite putmask_fmap, !length_fmap. }
    lia.
  - unfold _slopes. destruct x as [|x0 [|x1 x]]; [| |simpl in Hlen; lia].
    + by exists [].
    + destruct y as [|y0 [|y1 y]]; try done. by exists [0%float].
Qed.

(** [get_slopes] never raises on a well-formed signal and returns one slope
    for every dot, smoothed or not -- for an empty signal and for a single
    dot as well. *)
Theorem get_slopes_one_per_dot log2 zc (smooth : bool) max_slope :
  well_formed zc = true →
  ∃ s, get_slopes log2 zc smooth max_slope = Ok s ∧ length s = __len__ zc.
Proof.
  intros [Hf _]%well_formed_lengths. unfold get_slopes, __len__.
  destruct (slopes_total log2 (times zc) (freqs zc) max_slope) as (s & -> & Hs);
    [done|].
  rewrite bind_Ok. destruct smooth; [|eauto].
  destruct (smooth_total s) as (out & Hout & Hl). exists out.
  split; [done|lia].
Qed.

Lemma get_slopes_one_per_dot_witness :
  ∃ s, get_slopes log2_floor three_dots true 5000 = Ok s ∧
       length s = __len__ three_dots.
Proof. apply (get_slopes_one_per_dot log2_floor three_dots true 5000). reflexivity. Defined.

(** The slope of the last dot repeats the slope before it. *)
Theorem slopes_last_repeated log2 (x y : Np.array) max_slope :
  length x = length y →
  2 ≤ length x →
  ∃ s v, _slopes log2 x y max_slope = Ok s ∧
         s !! (length x - 1) = Some v ∧ s !! (length x - 2) = Some v.
Proof.
  intros Hxy Hlen.
  destruct (slopes_unfold log2 x y max_slope Hxy Hlen)
    as (yo & sn & Hyo & Hsn & ->).
  set (raw := zip_with PrimFloat.div (Np.diff yo) (Np.diff x)) in *.
  assert (length raw = length x - 1) as Hraw.
  { unfold raw. rewrite length_zip_with, !length_diff.
    assert (length yo = length y) as Hl.
    { rewrite Hyo. destruct (negb (Np.any y)); [done|].
      unfold Np.isnan. by rewrite putmask_fmap, !length_fmap. }
    lia. }
  eexists _, (clipped max_slope sn). split; [done|].
  rewrite !list_lookup_fmap. split.
  - rewrite lookup_app_r by lia.
    by replace (length x - 1 - length raw) with 0 by lia.
  - rewrite lookup_app_l by lia. rewrite last_lookup in Hsn.
    replace (length x - 2) with (pred (length raw)) by lia. by rewrite Hsn.
Qed.

Lemma slopes_last_repeated_witness :
  ∃ s v, _slopes log2_floor [0; 1; 3]%float [1; 2; 16]%float 5000 = Ok s ∧
         s !! (length [0; 1; 3]%float - 1) = Some v ∧
         s !! (length [0; 1; 3]%float - 2) = Some v.
Proof.
  apply (slopes_last_repeated log2_floor [0; 1; 3]%float [1; 2; 16]%float 5000);
    [reflexivity | simpl; lia].
Defined.

Lemma broadcast2_outcome op (a b : Np.array) :
  match Np.broadcast2 op a b with
  | Ok r =>
      (length a = length b ∨ length a = 1 ∨ length b = 1) ∧
      length r = (if length a =? 1 then length b else length a)
  | Raise e =>
      length a ≠ length b ∧ length a ≠ 1 ∧ length b ≠ 1 ∧
      ∃ msg, e = ValueError msg
  end.
Proof.
  unfold Np.broadcast2.
  destruct (Nat.eqb_spec (length a) (length b)) as [Hab|Hab].
  - split; [by left|]. rewrite length_zip_with.
    destruct (Nat.eqb_spec (length a) 1); lia.
  - destruct a as [|x [|x' a]], b as [|y [|y' b]]; simpl in *;
      try done; try (split; [lia|by rewrite ?length_fmap]);
      repeat split; try lia; eauto.
Qed.

(** [_slopes] does not compare the two lengths itself. Which of its
    outcomes occurs depends on the lengths alone: nothing for an empty
    input, one zero for a single time, one slope per value of the longer
    input when the lengths agree or one of them is 2 (NumPy broadcasts the
    single difference), [IndexError] for two times and one frequency, and
    [ValueError] in every other case. *)
Theorem slopes_outcome log2 (x y : Np.array) max_slope :
  match _slopes log2 x y max_slope with
  | Ok s =>
      (length x = 0 ∨ length y = 0) ∧ s = [] ∨
      length x = 1 ∧ 1 ≤ length y ∧ s = [0%float] ∨
      2 ≤ length x ∧ 2 ≤ length y ∧
      (length x = length y ∨ length x = 2 ∨ length y = 2) ∧
      length s = length x `max` length y
  | Raise (IndexError _) => length x = 2 ∧ length y = 1
  | Raise (ValueError _) =>
      2 ≤ length x ∧ 1 ≤ length y ∧
      length x ≠ length y ∧ length x ≠ 2 ∧ length y ≠ 2
  | Raise OutOfFuel => False
  end.
Proof.
  unfold _slopes.
  destruct (Nat.eqb_spec (length x) 0) as [|Hx0]; [by left; split; [left|]|].
  destruct (Nat.eqb_spec (length y) 0) as [|Hy0]; [by left; split; [right|]|].
  destruct (Nat.eqb_spec (length x) 1) as [|Hx1];
    [right; left; repeat split; [done|lia]|].
  simpl orb. cbv iota.
  set (y_octaves := if negb (Np.any y) then y else _).
  assert (length y_octaves = length y) as Hyo.
  { unfold y_octaves. destruct (negb (Np.any y)); [done|].
    unfold Np.isnan. by rewrite putmask_fmap, !length_fmap. }
  pose proof (length_diff y_octaves) as Hdy.
  pose proof (length_diff x) as Hdx.
  pose proof (broadcast2_outcome PrimFloat.div (Np.diff y_octaves) (Np.diff x))
    as Hb.
  destruct (Np.broadcast2 _ _ _) as [raw|e].
  - destruct Hb as [Hshape Hraw]. rewrite bind_Ok, getitem_last.
    destruct (last raw) as [sn|] eqn:Hsn.
    + rewrite bind_Ok. right; right.
      assert (length raw ≠ 0) as Hne.
      { intros H0. apply nil_length_inv in H0. by subst raw. }
      destruct (Nat.eqb_spec (length (Np.diff y_octaves)) 1) as [Hy1|Hy1].
      * repeat split; [lia..|].
        unfold Np.gt_scalar, Np.isnan, Np.abs, Np.append.
        rewrite !putmask_fmap, !length_fmap, length_app. simpl. lia.
      * repeat split; [lia..|].
        unfold Np.gt_scalar, Np.isnan, Np.abs, Np.append.
        rewrite !putmask_fmap, !length_fmap, length_app. simpl. lia.
    + apply last_None in Hsn. subst raw. simpl in Hraw. simpl.
      destruct (Nat.eqb_spec (length (Np.diff y_octaves)) 1); lia.
  - destruct Hb as (H1 & H2 & H3 & msg & ->). simpl. lia.
Qed.

End SlopeExtras.

(** ** A signal whose frequencies are all zero *)

Module SilentFacts.

Import PyFacts F64Facts NpFacts SmoothFacts SlopeFacts WindowFacts SlopeExtras.

Lemma eqb_zero_spec v : (v =? 0)%float = true → sf_zero (Prim2SF v) = true.
Proof.
  rewrite eqb_spec. change (Prim2SF 0) with (S754_zero false).
  by destruct (Prim2SF v) as [[]|[]| |[] m e].
Qed.

Lemma any_false (y : Np.array) :
  Np.any y = false → Forall (λ v, sf_zero (Prim2SF v) = true) y.
Proof.
  unfold Np.any. induction y as [|v y IH]; simpl; [constructor|].
  intros [Hv Hy]%orb_false_iff. constructor; [|by apply IH].
  apply eqb_zero_spec. by destruct (v =? 0)%float.
Qed.

Lemma diff_zero (y : Np.array) :
  Forall (λ v, sf_zero (Prim2SF v) = true) y →
  Forall (λ v, sf_zero (Prim2SF v) = true) (Np.diff y).
Proof.
  induction y as [|a [|b y] IH]; intros H; [constructor..|].
  apply Forall_cons in H as [Ha H]. pose proof H as Hb.
  apply Forall_cons in Hb as [Hb _].
  change (Np.diff (a :: b :: y)) with ((b - a)%float :: Np.diff (b :: y)).
  constructor; [|by apply IH].
  rewrite sub_spec.
  by destruct (Prim2SF a) as [[]| | |], (Prim2SF b) as [[]| | |].
Qed.

Lemma div_zero (a b : Np.array) :
  Forall (λ v, sf_zero (Prim2SF v) = true) a →
  Forall (λ v, sf_zero_or_nan (Prim2SF v) = true) (zip_with PrimFloat.div a b).
Proof.
  intros Ha. revert b. induction Ha as [|x a Hx Ha IH]; intros b; [constructor|].
  destruct b as [|y b]; [constructor|]. simpl. constructor; [|apply IH].
  rewrite div_spec.
  by destruct (Prim2SF x) as [[]| | |], (Prim2SF y) as [[]|[]| |[] my ey].
Qed.

Lemma clipped_zero max_slope r :
  sf_zero_or_nan (Prim2SF r) = true → clipped max_slope r = 0%float.
Proof.
  intros Hr. unfold clipped, F64.gtb.
  destruct (is_nan (PrimFloat.abs r)) eqn:Hnan.
  - assert ((max_slope <? PrimFloat.abs r)%float = false) as ->.
    { destruct (max_slope <? PrimFloat.abs r)%float eqn:E; [|done].
      apply ltb_not_nan_r in E. congruence. }
    by rewrite Hnan.
  - assert (PrimFloat.abs r = 0%float) as ->.
    { apply Prim2SF_inj. rewrite is_nan_spec in Hnan. rewrite abs_spec in *.
      change (Prim2SF 0) with (S754_zero false).
      by destruct (Prim2SF r) as [[]| | |]. }
    by destruct (max_slope <? 0)%float.
Qed.

Lemma clipped_all_zero max_slope (l : Np.array) :
  Forall (λ v, sf_zero_or_nan (Prim2SF v) = true) l →
  clipped max_slope <$> l = replicate (length l) 0%float.
Proof.
  induction 1 as [|r l Hr _ IH]; [done|].
  rewrite fmap_cons, IH, clipped_zero by done. done.
Qed.

Lemma cumsum_from_zero n :
  Np.cumsum_from 0 (replicate n 0%float) = replicate n 0%float.
Proof. induction n as [|n IH]; [done|]. simpl. f_equal. exact IH. Qed.

Lemma moving_average_zero n :
  moving_average (replicate n 0%float) = replicate (n - 2) 0%float.
Proof.
  unfold moving_average, Np.cumsum, Np.div_scalar, WINDOW_SIZE.
  rewrite cumsum_from_zero.
  change (0%float :: replicate n 0%float) with (replicate (S n) 0%float).
  rewrite drop_replicate, take_replicate, length_replicate.
  replace (Nat.min (S n - 3) (S n)) with (S n - 3) by lia.
  rewrite zip_with_replicate, fmap_replicate.
  by replace (S n - 3) with (n - 2) by lia.
Qed.

Lemma smooth_zero n :
  _smooth (replicate n 0%float) = Ok (replicate n 0%float).
Proof.
  destruct (decide (WINDOW_SIZE < n)) as [Hn|Hn]; unfold WINDOW_SIZE in Hn.
  - destruct (smooth_long (replicate n 0%float)) as (s0 & sn & m & Hm & Hh & Hl & ->);
      [by rewrite length_replicate|].
    assert (nan_to_zero (replicate n 0%float) = replicate n 0%float) as Hz
      by (unfold nan_to_zero; by rewrite fmap_replicate).
    rewrite Hz, moving_average_zero in Hm. subst m.
    rewrite pad_shape by done. f_equal.
    apply last_Some_elem_of, elem_of_replicate_inv in Hl as ->.
    apply head_Some_elem_of, elem_of_replicate_inv in Hh as ->.
    change (0%float :: replicate (n - 2) 0%float ++ [0%float])
      with (replicate 1 0%float ++ replicate (n - 2) 0%float
            ++ replicate 1 0%float).
    rewrite <- !replicate_add. f_equal. lia.
  - unfold _smooth, Np.zeros. rewrite length_replicate.
    by destruct (Nat.leb_spec n WINDOW_SIZE); [|unfold WINDOW_SIZE in *; lia].
Qed.

(** When no frequency of a well-formed signal differs from zero, every
    slope is [0.0], smoothed or not, whatever the times and [max_slope]:
    [np.log2] is not applied, and a division of zero by zero is cleared as
    NaN. *)
Theorem get_slopes_silent log2 zc (smooth : bool) max_slope :
  well_formed zc = true →
  Np.any (freqs zc) = false →
  get_slopes log2 zc smooth max_slope = Ok (replicate (__len__ zc) 0%float).
Proof.
  intros [Hf _]%well_formed_lengths Hany. unfold get_slopes, __len__.
  assert (_slopes log2 (times zc) (freqs zc) max_slope
          = Ok (replicate (length (times zc)) 0%float)) as ->.
  { destruct (decide (2 ≤ length (times zc))) as [Hlen|Hlen].
    - destruct (slopes_unfold log2 (times zc) (freqs zc) max_slope)
        as (yo & sn & Hyo & Hsn & ->); [done..|].
      rewrite Hany in Hyo. simpl in Hyo. subst yo.
      pose proof (div_zero _ (Np.diff (times zc))
                    (diff_zero _ (any_false _ Hany))) as Hraw.
      set (raw := zip_with PrimFloat.div (Np.diff (freqs zc))
                    (Np.diff (times zc))) in *.
      rewrite clipped_all_zero.
      + f_equal. f_equal.
        rewrite length_app. unfold raw.
        rewrite length_zip_with, !length_diff. simpl. lia.
      + apply Forall_app. split; [done|]. constructor; [|constructor].
        rewrite Forall_forall in Hraw. apply Hraw.
        by apply last_Some_elem_of.
    - unfold _slopes.
      destruct (times zc) as [|x0 [|x1 x]]; [| |simpl in Hlen; lia].
      + done.
      + by destruct (freqs zc) as [|y0 [|y1 y]]. }
  rewrite bind_Ok. destruct smooth; [apply smooth_zero|done].
Qed.

Lemma get_slopes_silent_witness :
  get_slopes log2_floor
    (mkZeroCross [0; 1; 1; 2; 3]%float [0; -0; 0; 0; -0]%float None ∅)
    true (-1)
  = Ok (replicate 5 0%float).
Proof.
  apply (get_slopes_silent log2_floor
           (mkZeroCross [0; 1; 1; 2; 3]%float [0; -0; 0; 0; -0]%float None ∅)
           true (-1)); reflexivity.
Defined.

End SilentFacts.

(** ** More on the writer *)

Module WriterExtras.

Import PyFacts NpFacts WriterFacts.

(** The amplitudes survive in the embedded metadata.  Whenever the output
    directory exists or can be made, [run] hands a header to the writer;
    when the signal has amplitudes, that header carries a GUANO block whose
    only key, [ZCANT|Amplitudes], holds the amplitude array as it is; when
    it has none, no block is attached. *)
Theorem run_guano_amplitudes (fs_exists : string → bool)
    (fs_makedirs : string → option os_error) (zc : ZeroCross) (fname : string)
    (divratio : Z) :
  directory_ready fs_exists fs_makedirs fname = true →
  ∃ w,
    AnabatFileWriteThread_run fs_exists fs_makedirs zc fname divratio
    = Wrote w ∧
    (∀ a, amplitudes zc = Some a →
          ∃ g, h_guano (w_header w) = Some g ∧
               g !! "ZCANT|Amplitudes" = Some a ∧
               ∀ k, k ≠ "ZCANT|Amplitudes" → g !! k = None) ∧
    (amplitudes zc = None → h_guano (w_header w) = None).
Proof.
  intros Hr.
  destruct (run_ready fs_exists fs_makedirs zc fname divratio Hr)
    as (w & Hw & _ & _ & _ & _ & _ & Hg & _).
  exists w. split; [done|]. rewrite Hg. split.
  - intros a ->. eexists. split; [done|].
    split; [apply lookup_singleton_eq|].
    intros k Hk. by apply lookup_singleton_ne.
  - by intros ->.
Qed.

Lemma run_guano_amplitudes_witness :
  ∃ w,
    AnabatFileWriteThread_run (λ _, false) (λ _, None) three_dots
      "out/a.00#" 8 = Wrote w ∧
    (∀ a, amplitudes three_dots = Some a →
          ∃ g, h_guano (w_header w) = Some g ∧
               g !! "ZCANT|Amplitudes" = Some a ∧
               ∀ k, k ≠ "ZCANT|Amplitudes" → g !! k = None) ∧
    (amplitudes three_dots = None → h_guano (w_header w) = None).
Proof.
  apply (run_guano_amplitudes (λ _, false) (λ _, None) three_dots
           "out/a.00#" 8).
  reflexivity.
Defined.

(** [run] either makes its calls on the writer or ends with the [OSError]
    of [os.makedirs], before the writer is opened.  It writes exactly when
    the output directory exists or can be made; a file name without a
    directory part has the empty directory, which neither exists nor can be
    made, so [run] raises on it whatever the file system.  When it writes,
    the directory was made exactly when it did not exist, and no key of the
    metadata was needed: a missing timestamp is passed as [None], a missing
    species as the empty text, a present one as it is; the division ratio
    is passed as given; and the body holds one interval fewer than there
    are dots, none for a signal of no dot or one. *)
Theorem run_writes_or_raises (fs_exists : string → bool)
    (fs_makedirs : string → option os_error) (zc : ZeroCross) (fname : string)
    (divratio : Z) :
  let r := AnabatFileWriteThread_run fs_exists fs_makedirs zc fname divratio in
  let outdir := OsPath.dirname fname in
  (directory_ready fs_exists fs_makedirs fname = true ↔ ∃ w, r = Wrote w) ∧
  (outdir = "" → r = Died (OSError 2 "No such file or directory" "")) ∧
  (∀ e, r = Died e →
        path_exists fs_exists outdir = false ∧
        makedirs fs_makedirs outdir = Some e) ∧
  (∀ w, r = Wrote w →
        (w_makedirs w = Some outdir ↔ path_exists fs_exists outdir = false) ∧
        (w_makedirs w = None ↔ path_exists fs_exists outdir = true) ∧
        (path_exists fs_exists outdir = false →
         makedirs fs_makedirs outdir = None) ∧
        h_timestamp (w_header w) = metadata zc !! "timestamp" ∧
        (metadata zc !! "species" = None → h_species (w_header w) = "") ∧
        (∀ s, metadata zc !! "species" = Some s →
              h_species (w_header w) = s) ∧
        h_divratio (w_header w) = divratio ∧
        length (w_intervals w) = length (times zc) - 1).
Proof.
  intros r outdir. unfold r, outdir.
  destruct (directory_ready fs_exists fs_makedirs fname) eqn:Hr.
  - destruct (run_ready fs_exists fs_makedirs zc fname divratio Hr)
      as (w & Hw & Hm & Ht & Hd & Hs & _ & _ & Hi).
    rewrite Hw. split; [split; [eauto|done]|].
    split.
    { intros He. unfold directory_ready in Hr. rewrite He in Hr.
      by vm_compute in Hr. }
    split; [done|]. intros w' [= <-].
    unfold directory_ready in Hr.
    rewrite Hm, Ht, Hd, Hs, Hi, length_fmap, length_diff, length_fmap.
    destruct (path_exists fs_exists (OsPath.dirname fname)); simpl in Hr;
      (split; [done|]); (split; [done|]);
      (split; [try done; intros _;
               by destruct (makedirs fs_makedirs (OsPath.dirname fname))|]);
      (split; [done|]); (split; [by intros ->|]); (split; [by intros s ->|]);
      (split; [done|lia]).
  - destruct (run_not_ready fs_exists fs_makedirs zc fname divratio Hr)
      as (e & He & Hx & Hm).
    rewrite He. split; [split; [done|by intros [w ?]]|].
    split.
    { intros Hd. rewrite Hd in Hm. vm_compute in Hm. by injection Hm as <-. }
    split; [|done]. by intros e' [= <-].
Qed.

End WriterExtras.

(** ** Extraction *)

Module ExtractFacts.

Import PyFacts WindowFacts.

Section WithDecoders.

Context (kwargs : Type).
Context (extract_anabat wav2zc :
  string → kwargs →
  attempt (Np.array * Np.array * option Np.array * gmap string string)).
Context (splitext_ext basename : string → string).

Local Abbreviation extract :=
  (MainThread_extract kwargs extract_anabat wav2zc splitext_ext).

(** A signal handed to the callback is well-formed, holds the arrays the
    decoder returned, and carries the decoder's metadata with the path and
    the file name put in under [path] and [filename]. *)
Theorem run_delivers_well_formed path kw zc :
  MainThread_run kwargs extract_anabat wav2zc splitext_ext basename path kw
  = Some zc →
  well_formed zc = true ∧
  metadata zc !! "path" = Some path ∧
  metadata zc !! "filename" = Some (basename path) ∧
  ∃ t f a md,
    extract path kw = Done (t, f, a, md) ∧
    times zc = t ∧ freqs zc = f ∧ amplitudes zc = a ∧
    ∀ k, k ≠ "path" → k ≠ "filename" → metadata zc !! k = md !! k.
Proof.
  unfold MainThread_run.
  destruct (extract path kw) as [[[[t f] a] md]|e]; [|done].
  destruct (__init__ t f a _) as [r|] eqn:Hinit; [|done].
  intros [= ->]. split; [by eapply init_well_formed|].
  assert (zc = mkZeroCross t f a
                 (<["filename" := basename path]> (<["path" := path]> md)))
    as ->.
  { unfold __init__ in Hinit.
    destruct (negb _); [done|]. destruct a as [a|].
    - destruct (negb _); [done|]. by injection Hinit.
    - by injection Hinit. }
  simpl. split; [by rewrite lookup_insert_ne, lookup_insert_eq|].
  split; [by rewrite lookup_insert_eq|].
  exists t, f, a, md. do 4 (split; [done|]).
  intros k H1 H2. by rewrite !lookup_insert_ne.
Qed.

(** The callback gets [None] exactly when the extension is not a known one
    or the decoder raised, or when the decoder's arrays differ in length:
    nothing is raised to the caller, and no malformed signal is handed
    over. *)
Theorem run_delivers_none_iff path kw :
  MainThread_run kwargs extract_anabat wav2zc splitext_ext basename path kw
  = None ↔
  (∃ e, extract path kw = Failed e) ∨
  (∃ t f a md,
     extract path kw = Done (t, f, a, md) ∧
     (length t ≠ length f ∨ ∃ a', a = Some a' ∧ length t ≠ length a')).
Proof.
  unfold MainThread_run.
  destruct (extract path kw) as [[[[t f] a] md]|e].
  - unfold __init__.
    destruct (Nat.eqb_spec (length t) (length f)) as [Htf|Htf]; simpl.
    + destruct a as [a|].
      * destruct (Nat.eqb_spec (length t) (length a)) as [Hta|Hta]; simpl.
        -- split; [done|].
           intros [[e [=]]|(t' & f' & a' & md' & [= <- <- <- <-] & [?|(? & [= <-] & ?)])];
             done.
        -- split; [intros _|done]. right. exists t, f, (Some a), md.
           split; [done|]. right. eauto.
      * split; [done|].
        intros [[e [=]]|(t' & f' & a' & md' & [= <- <- <- <-] & [?|(? & [=] & ?)])];
          done.
    + split; [intros _|done]. right. exists t, f, a, md. eauto.
  - split; [eauto|done].
Qed.

(** An extension that is none of [.zc], [.wav] or one ending in [#], in
    any mix of cases, reaches no decoder. *)
Theorem extract_unknown_type path kw :
  let ext := Str.lower (splitext_ext path) in
  Str.endswith ext "#" = false → ext ≠ ".zc" → ext ≠ ".wav" →
  extract path kw = Failed (PlainException ["Unknown file type: %s"; path]) ∧
  MainThread_run kwargs extract_anabat wav2zc splitext_ext basename path kw
  = None.
Proof.
  intros ext H1 H2 H3. unfold MainThread_run, MainThread_extract. fold ext.
  rewrite H1. simpl.
  destruct (String.eqb_spec ext ".zc"); [done|].
  destruct (String.eqb_spec ext ".wav"); done.
Qed.

End WithDecoders.

(** A decoder returning two dots, on a path whose extension is [.ZC]. *)
Lemma run_delivers_well_formed_witness :
  well_formed delivered_two_dots = true ∧
  metadata delivered_two_dots !! "path" = Some "a.ZC" ∧
  metadata delivered_two_dots !! "filename" = Some (id "a.ZC") ∧
  ∃ t f a md,
    MainThread_extract unit two_dots_decoder failing_decoder (λ _, ".ZC")
      "a.ZC" tt = Done (t, f, a, md) ∧
    times delivered_two_dots = t ∧ freqs delivered_two_dots = f ∧
    amplitudes delivered_two_dots = a ∧
    ∀ k, k ≠ "path" → k ≠ "filename" →
         metadata delivered_two_dots !! k = md !! k.
Proof.
  apply (run_delivers_well_formed unit two_dots_decoder failing_decoder
           (λ _, ".ZC") id "a.ZC" tt delivered_two_dots).
  reflexivity.
Defined.

Lemma extract_unknown_type_witness :
  MainThread_extract unit two_dots_decoder two_dots_decoder
    (λ _, ".MP3") "song.MP3" tt
  = Failed (PlainException ["Unknown file type: %s"; "song.MP3"]) ∧
  MainThread_run unit two_dots_decoder two_dots_decoder
    (λ _, ".MP3") id "song.MP3" tt = None.
Proof.
  apply (extract_unknown_type unit two_dots_decoder two_dots_decoder
           (λ _, ".MP3") id "song.MP3" tt); [reflexivity | done | done].
Defined.

End ExtractFacts.

(** ** The duration of a signal *)

Module DurationFacts.

Import PyFacts F64Facts NpFacts SlopeFacts WindowFacts.

Lemma sf_nonneg_leb x : sf_nonneg x = true → SFleb (S754_zero false) x = true.
Proof. by destruct x as [[]|[]| |[] m e]. Qed.

Lemma iter_pos_invariant {A} (P : A → Prop) (f : A → A) p x :
  (∀ y, P y → P (f y)) → P x → P (iter_pos f p x).
Proof.
  intros Hf. revert x. induction p as [p IH|p IH|]; intros x Hx; simpl; auto.
Qed.

Lemma shr_1_nonneg mrs : (0 ≤ shr_m mrs)%Z → (0 ≤ shr_m (shr_1 mrs))%Z.
Proof. destruct mrs as [[|[p|p|]|p] r s]; simpl; lia. Qed.

Lemma shr_fexp_nonneg m e l :
  (0 ≤ m)%Z → (0 ≤ shr_m (shr_fexp prec emax m e l).1)%Z.
Proof.
  intros Hm. unfold shr_fexp, shr.
  assert (shr_m (shr_record_of_loc m l) = m) as Hrec by (by destruct l as [|[]]).
  destruct (_ - e)%Z; simpl; rewrite ?Hrec; try done.
  apply (iter_pos_invariant (λ r, 0 ≤ shr_m r)%Z); [apply shr_1_nonneg|].
  by rewrite Hrec.
Qed.

Lemma binary_round_aux_nonneg m e l :
  (0 ≤ m)%Z → sf_nonneg (binary_round_aux prec emax false m e l) = true.
Proof.
  intros Hm. unfold binary_round_aux.
  pose proof (shr_fexp_nonneg m e l Hm) as H1.
  destruct (shr_fexp prec emax m e l) as [mrs' e'] eqn:E1. simpl in H1.
  assert (0 ≤ round_nearest_even (shr_m mrs') (loc_of_shr_record mrs'))%Z as H2.
  { unfold round_nearest_even.
    destruct (loc_of_shr_record mrs') as [|[]]; try done; try lia.
    destruct (Z.even _); lia. }
  pose proof (shr_fexp_nonneg _ e' loc_Exact H2) as H3.
  destruct (shr_fexp prec emax _ e' loc_Exact) as [mrs'' e''] eqn:E2.
  simpl in H3.
  destruct (shr_m mrs''); [done| |lia].
  by destruct (_ <=? _)%Z.
Qed.

Lemma binary_normalize_nonneg z e :
  (0 ≤ z)%Z → sf_nonneg (binary_normalize prec emax z e false) = true.
Proof.
  intros Hz. destruct z as [|m|m]; [done| |lia].
  unfold binary_normalize, binary_round.
  destruct (shl_align _ _ _) as [mz ez]. by apply binary_round_aux_nonneg.
Qed.

Lemma pos_iter_xO m d : Zpos (Pos.iter xO m d) = (Zpos m * 2 ^ Zpos d)%Z.
Proof.
  induction d as [|d IH] using Pos.peano_ind.
  - simpl. lia.
  - rewrite Pos.iter_succ, Pos2Z.inj_xO, IH, Pos2Z.inj_succ, Z.pow_succ_r; lia.
Qed.

Lemma shl_align_fst m e e' :
  (e' ≤ e)%Z → Zpos (shl_align m e e').1 = (Zpos m * 2 ^ (e - e'))%Z.
Proof.
  intros Hle. unfold shl_align.
  destruct (e' - e)%Z as [|p|p] eqn:E; simpl.
  - replace (e - e')%Z with 0%Z by lia. lia.
  - lia.
  - rewrite pos_iter_xO. f_equal. f_equal. lia.
Qed.

Lemma digits2_pos_bounds m :
  (2 ^ (Zpos (digits2_pos m) - 1) ≤ Zpos m < 2 ^ Zpos (digits2_pos m))%Z.
Proof.
  induction m as [m IH|m IH|]; simpl digits2_pos;
    rewrite ?Pos2Z.inj_succ.
  - replace (Z.succ (Zpos (digits2_pos m)) - 1)%Z
      with (Z.succ (Zpos (digits2_pos m) - 1)) by lia.
    rewrite !Z.pow_succ_r by lia. lia.
  - replace (Z.succ (Zpos (digits2_pos m)) - 1)%Z
      with (Z.succ (Zpos (digits2_pos m) - 1)) by lia.
    rewrite !Z.pow_succ_r by lia. lia.
  - simpl. lia.
Qed.

(** What validity says of a mantissa and its exponent in binary64. *)
Lemma bounded_digits m e :
  bounded prec emax m e = true →
  (-1074 ≤ e)%Z ∧ (Zpos (digits2_pos m) ≤ 53)%Z ∧
  ((-1074 < e)%Z → Zpos (digits2_pos m) = 53%Z).
Proof.
  unfold bounded, canonical_mantissa, fexp, SpecFloat.emin, prec, emax.
  intros [H _]%andb_true_iff. apply Z.eqb_eq in H. lia.
Qed.

(** With the larger exponent comes the larger magnitude. *)
Lemma bounded_exponent_order m1 e1 m2 e2 :
  bounded prec emax m1 e1 = true → bounded prec emax m2 e2 = true →
  (e1 < e2)%Z → (Zpos m1 < Zpos m2 * 2 ^ (e2 - e1))%Z.
Proof.
  intros (Hm1 & Hd1 & _)%bounded_digits (Hm2 & _ & Hd2)%bounded_digits Hlt.
  specialize (Hd2 ltac:(lia)).
  pose proof (digits2_pos_bounds m1) as [_ Hu].
  pose proof (digits2_pos_bounds m2) as [Hl _]. rewrite Hd2 in Hl.
  assert (2 ^ Zpos (digits2_pos m1) ≤ 2 ^ 53)%Z
    by (apply Z.pow_le_mono_r; lia).
  assert (2 ^ 1 ≤ 2 ^ (e2 - e1))%Z by (apply Z.pow_le_mono_r; lia).
  change (2 ^ (53 - 1))%Z with (2 ^ 52)%Z in Hl.
  change (2 ^ 53)%Z with (2 ^ 52 * 2 ^ 1)%Z in *. nia.
Qed.

Lemma SFsub_nonneg X Y :
  valid_binary X = true → valid_binary Y = true →
  sf_finite X = true → sf_finite Y = true →
  SFleb Y X = true →
  sf_nonneg (SF64sub X Y) = true.
Proof.
  intros HvX HvY HfX HfY Hle.
  destruct X as [sx| | |sx mx ex], Y as [sy| | |sy my ey]; try done.
  - by destruct sx, sy.
  - by destruct sy.
  - by destruct sx.
  - simpl in HvX, HvY. unfold SF64sub, SFsub.
    apply binary_normalize_nonneg.
    pose proof (Z.le_min_l ex ey). pose proof (Z.le_min_r ex ey).
    rewrite !shl_align_fst by lia.
    assert (0 < 2 ^ (ex - Z.min ex ey))%Z by (apply Z.pow_pos_nonneg; lia).
    assert (0 < 2 ^ (ey - Z.min ex ey))%Z by (apply Z.pow_pos_nonneg; lia).
    unfold SFleb, SFcompare in Hle.
    destruct sx, sy; simpl; try done; try nia.
    + (* both negative *)
      destruct (Z.compare_spec ey ex) as [->|Hlt|Hgt]; try done.
      * rewrite Z.min_id, Z.sub_diag in *.
        change (Pos.compare_cont Eq my mx) with (Pos.compare my mx) in Hle.
        destruct (Pos.compare_spec my mx); simpl in Hle; try done; lia.
      * pose proof (bounded_exponent_order _ _ _ _ HvX HvY Hgt).
        replace (Z.min ex ey) with ex in * by lia.
        rewrite Z.sub_diag. lia.
    + (* both positive *)
      destruct (Z.compare_spec ey ex) as [->|Hlt|Hgt]; try done.
      * rewrite Z.min_id, Z.sub_diag in *.
        change (Pos.compare_cont Eq my mx) with (Pos.compare my mx) in Hle.
        destruct (Pos.compare_spec my mx); simpl in Hle; try done; lia.
      * pose proof (bounded_exponent_order _ _ _ _ HvY HvX Hlt).
        replace (Z.min ex ey) with ey in * by lia.
        rewrite Z.sub_diag. lia.
Qed.

Lemma sub_nonneg x y :
  is_finite x = true → is_finite y = true → (y <=? x)%float = true →
  (0 <=? x - y)%float = true.
Proof.
  rewrite !is_finite_spec, !leb_spec, sub_spec.
  change (Prim2SF 0) with (S754_zero false).
  intros Hx Hy Hle. apply sf_nonneg_leb, SFsub_nonneg; try done.
  - apply Prim2SF_valid.
  - apply Prim2SF_valid.
Qed.

Lemma all_finite_lookup (a : Np.array) i v :
  all_finite a = true → a !! i = Some v → is_finite v = true.
Proof.
  unfold all_finite. rewrite forallb_forall. intros H Hv.
  apply H, list_elem_of_In, list_elem_of_lookup. eauto.
Qed.

(** [duration] never raises.  Below two dots it is zero; from two dots on
    it is the last time minus the first, and on ascending, finite times it
    is never negative (and never NaN), rounding included. *)
Theorem duration_nonneg zc :
  ascending (times zc) = true →
  all_finite (times zc) = true →
  ∃ d, duration zc = Ok d ∧
       (0 <=? d)%float = true ∧
       (length (times zc) < 2 → d = 0%float) ∧
       (2 ≤ length (times zc) →
        ∃ t0 tn, head (times zc) = Some t0 ∧ last (times zc) = Some tn ∧
                 d = (tn - t0)%float).
Proof.
  intros Hasc Hfin. unfold duration.
  destruct (Nat.ltb_spec (length (times zc)) 2) as [Hlt|Hge].
  { exists 0%float. do 3 (split; [done|]). lia. }
  destruct (head (times zc)) as [t0|] eqn:Hh;
    [|apply head_None in Hh; rewrite Hh in Hge; simpl in Hge; lia].
  destruct (last (times zc)) as [tn|] eqn:Hl;
    [|apply last_None in Hl; rewrite Hl in Hge; simpl in Hge; lia].
  exists (tn - t0)%float.
  rewrite (getitem_last_Some _ _ Hl), bind_Ok, getitem_0, Hh, bind_Ok.
  split; [done|]. split; [|split; [lia|eauto]].
  rewrite head_lookup in Hh. rewrite last_lookup in Hl.
  apply sub_nonneg.
  - by eapply all_finite_lookup.
  - by eapply all_finite_lookup.
  - apply (BisectFacts.ascending_lookup (times zc) 0 (pred (length (times zc))));
      [done|lia|done|done].
Qed.

Lemma duration_nonneg_witness :
  ∃ d, duration three_dots = Ok d ∧
       (0 <=? d)%float = true ∧
       (length (times three_dots) < 2 → d = 0%float) ∧
       (2 ≤ length (times three_dots) →
        ∃ t0 tn, head (times three_dots) = Some t0 ∧
                 last (times three_dots) = Some tn ∧
                 d = (tn - t0)%float).
Proof. apply (duration_nonneg three_dots); reflexivity. Defined.

End DurationFacts.

(** ** Monotone rounding

    Round-to-nearest keeps the order of exact values.  From it: multiplying
    by a positive constant and adding a non-negative value keep the order of
    floats, which is what the writer's intervals and the moving average of
    [_smooth] rest on. *)

Module RoundingFacts.

Import PyFacts F64Facts NpFacts SlopeFacts DurationFacts.

Local Open Scope Z_scope.

Lemma iter_pos_nat {A} (f : A → A) p x :
  iter_pos f p x = Nat.iter (Pos.to_nat p) f x.
Proof.
  revert x. induction p as [p IH|p IH|]; intros x; simpl iter_pos.
  - rewrite !IH, Pos2Nat.inj_xI, Nat.iter_succ_r.
    replace (2 * Pos.to_nat p)%nat with (Pos.to_nat p + Pos.to_nat p)%nat by lia.
    by rewrite Nat.iter_add.
  - rewrite !IH, Pos2Nat.inj_xO.
    replace (2 * Pos.to_nat p)%nat with (Pos.to_nat p + Pos.to_nat p)%nat by lia.
    by rewrite Nat.iter_add.
  - done.
Qed.

Lemma shr_1_spec m r s :
  0 ≤ m →
  shr_1 (Build_shr_record m r s) = Build_shr_record (m / 2) (Z.odd m) (r || s).
Proof.
  intros Hm. rewrite <- Z.div2_div.
  destruct m as [|[p|p|]|p]; try done; lia.
Qed.

Lemma pow2_nat_pos (k : nat) : 0 < 2 ^ Z.of_nat k.
Proof. apply Z.pow_pos_nonneg; lia. Qed.

Lemma pow2_succ (k : nat) : 2 ^ Z.of_nat (S k) = 2 * 2 ^ Z.of_nat k.
Proof. rewrite Nat2Z.inj_succ, Z.pow_succ_r; lia. Qed.

(** A mantissa cut at bit [k]: the part above, the bit below, the rest. *)
Lemma split_at_bit m (k : nat) :
  0 ≤ m →
  m = 2 ^ Z.of_nat (S k) * (m / 2 ^ Z.of_nat (S k))
      + 2 ^ Z.of_nat k * Z.b2z (Z.odd (m / 2 ^ Z.of_nat k))
      + m mod 2 ^ Z.of_nat k ∧
  0 ≤ m mod 2 ^ Z.of_nat k < 2 ^ Z.of_nat k.
Proof.
  intros Hm. pose proof (pow2_nat_pos k) as Hk.
  split; [|by apply Z.mod_pos_bound].
  rewrite pow2_succ.
  pose proof (Z.div_mod m (2 ^ Z.of_nat k) ltac:(lia)) as H1.
  pose proof (Z.div_mod (m / 2 ^ Z.of_nat k) 2 ltac:(lia)) as H2.
  rewrite Zmod_odd in H2.
  assert (m / 2 ^ Z.of_nat k / 2 = m / (2 * 2 ^ Z.of_nat k)) as H3.
  { rewrite Z.div_div by lia. f_equal. lia. }
  rewrite <- H3.
  destruct (Z.odd (m / 2 ^ Z.of_nat k)); simpl Z.b2z; nia.
Qed.

Lemma shr_n_spec m (k : nat) :
  0 ≤ m → Nat.iter k shr_1 (Build_shr_record m false false) = halved m k.
Proof.
  intros Hm. induction k as [|k IH].
  - unfold halved. simpl. by rewrite Z.div_1_r.
  - simpl Nat.iter. rewrite IH. unfold halved at 1.
    rewrite shr_1_spec by (apply Z.div_pos; [done|apply pow2_nat_pos]).
    unfold halved. f_equal.
    + rewrite Z.div_div by (pose proof (pow2_nat_pos k); lia).
      f_equal. rewrite pow2_succ. lia.
    + destruct k as [|j]; [simpl; by rewrite Z.mod_1_r|].
      destruct (split_at_bit m j Hm) as [Hs Hb].
      pose proof (pow2_nat_pos j) as Hj.
      pose proof (Z.div_mod m (2 ^ Z.of_nat (S j)) ltac:(pose proof (pow2_nat_pos (S j)); lia)) as Hd.
      rewrite pow2_succ in *.
      destruct (Z.odd (m / 2 ^ Z.of_nat j)); simpl Z.b2z in Hs; simpl orb.
      * symmetry. apply negb_true_iff, Z.eqb_neq. lia.
      * f_equal. apply eq_true_iff_eq. rewrite !Z.eqb_eq. lia.
Qed.

Lemma round_halved m (k : nat) :
  0 ≤ m →
  round_nearest_even (shr_m (halved m k)) (loc_of_shr_record (halved m k))
  = rne m k.
Proof.
  intros Hm. destruct k as [|j]; [unfold halved; simpl; by rewrite Z.div_1_r|].
  unfold rne, halved. cbn [shr_m loc_of_shr_record].
  destruct (split_at_bit m j Hm) as [Hs Hb].
  pose proof (pow2_nat_pos j) as Hj. rewrite pow2_succ in *.
  set (M := m / (2 * 2 ^ Z.of_nat j)) in *.
  set (h := 2 ^ Z.of_nat j) in *.
  set (low := m mod h) in *.
  destruct (Z.odd (m / h)), (Z.eqb_spec low 0) as [H0|H0],
    (Z.odd M) eqn:EM;
    simpl Z.b2z in *; cbn [negb round_nearest_even];
    rewrite <- ?Z.negb_odd, ?EM; cbn [negb]; clearbody M h low.
  all: first
    [ apply (Z.div_unique _ _ _ (m + h - 1 + 1 - 2 * h * M)); lia
    | apply (Z.div_unique _ _ _ (m + h - 1 + 0 - 2 * h * M)); lia
    | apply (Z.div_unique _ _ _ (m + h - 1 + 1 - 2 * h * (M + 1))); lia
    | apply (Z.div_unique _ _ _ (m + h - 1 + 0 - 2 * h * (M + 1))); lia ].
Qed.

Lemma rne_bounds m (k : nat) :
  0 ≤ m → m / 2 ^ Z.of_nat k ≤ rne m k ≤ m / 2 ^ Z.of_nat k + 1.
Proof.
  intros Hm. rewrite <- (round_halved m k Hm). unfold halved.
  cbn [shr_m loc_of_shr_record]. unfold round_nearest_even.
  repeat match goal with |- context [match ?x with _ => _ end] =>
    destruct x end; lia.
Qed.

Lemma rne_mono m1 m2 (k : nat) : 0 ≤ m1 ≤ m2 → rne m1 k ≤ rne m2 k.
Proof.
  intros Hm. destruct k as [|j]; [simpl; lia|]. unfold rne.
  destruct (Z.eq_dec m1 m2) as [->|Hne]; [done|].
  apply Z.div_le_mono; [apply pow2_nat_pos|].
  destruct (Z.odd (m1 / _)), (Z.odd (m2 / _)); simpl Z.b2z; lia.
Qed.

(** Stage one of the rounding, on an exact input with a fine exponent. *)
Lemma shr_fexp_iter m e :
  fine m e →
  shr_fexp prec emax m e loc_Exact
  = (Nat.iter (Z.to_nat (fexp prec emax (Zdigits2 m + e) - e)) shr_1
       (Build_shr_record m false false),
     fexp prec emax (Zdigits2 m + e)).
Proof.
  unfold fine. intros Hf. unfold shr_fexp, shr. cbn [shr_record_of_loc].
  destruct (fexp prec emax (Zdigits2 m + e) - e) as [|p|p] eqn:En.
  - simpl. f_equal. lia.
  - rewrite iter_pos_nat, Z2Nat.inj_pos. f_equal. lia.
  - lia.
Qed.

Lemma shr_fexp_exact m e :
  0 ≤ m → fine m e →
  shr_fexp prec emax m e loc_Exact
  = (halved m (Z.to_nat (fexp prec emax (Zdigits2 m + e) - e)),
     fexp prec emax (Zdigits2 m + e)).
Proof. intros Hm Hf. by rewrite shr_fexp_iter, shr_n_spec. Qed.

Lemma digits_bounds z :
  0 < z → 2 ^ (Zdigits2 z - 1) ≤ z < 2 ^ Zdigits2 z.
Proof. destruct z as [|p|p]; try lia. intros _. apply digits2_pos_bounds. Qed.

Lemma digits_pos z : 0 < z → 0 < Zdigits2 z.
Proof. destruct z; simpl; lia. Qed.

Lemma digits_unique z d : 0 < z → 2 ^ (d - 1) ≤ z < 2 ^ d → Zdigits2 z = d.
Proof.
  intros Hz [Hl Hu]. pose proof (digits_bounds z Hz) as [Hl' Hu'].
  destruct (Z.lt_trichotomy (Zdigits2 z) d) as [Hlt|[Heq|Hgt]]; [|done|].
  - assert (2 ^ Zdigits2 z ≤ 2 ^ (d - 1)) by (apply Z.pow_le_mono_r; lia). lia.
  - assert (2 ^ d ≤ 2 ^ (Zdigits2 z - 1)) by (apply Z.pow_le_mono_r; lia). lia.
Qed.

Lemma digits_le z k : 0 < z < 2 ^ k → Zdigits2 z ≤ k.
Proof.
  intros [Hz Hu]. pose proof (digits_bounds z Hz) as [Hl' Hu'].
  destruct (Z.le_gt_cases (Zdigits2 z) k) as [|Hgt]; [done|].
  assert (2 ^ k ≤ 2 ^ (Zdigits2 z - 1)) by (apply Z.pow_le_mono_r; lia). lia.
Qed.

Lemma digits_mono z1 z2 : 0 < z1 ≤ z2 → Zdigits2 z1 ≤ Zdigits2 z2.
Proof.
  intros [Hz Hle]. apply digits_le. split; [done|].
  pose proof (digits_bounds z2 ltac:(lia)). lia.
Qed.

Lemma digits_shift z (k : nat) :
  0 < z → Zdigits2 (z * 2 ^ Z.of_nat k) = Zdigits2 z + Z.of_nat k.
Proof.
  intros Hz. pose proof (digits_bounds z Hz) as [Hl Hu].
  pose proof (digits_pos z Hz). pose proof (pow2_nat_pos k).
  apply digits_unique; [lia|].
  replace (Zdigits2 z + Z.of_nat k - 1) with (Zdigits2 z - 1 + Z.of_nat k)
    by lia.
  rewrite !Z.pow_add_r by lia. nia.
Qed.

(** The mantissa left by stage one: below [2^53], and at least [2^52]
    above the smallest exponent. *)
Lemma stage_one m e :
  0 < m → fine m e →
  let E := fexp prec emax (Zdigits2 m + e) in
  let M := m / 2 ^ Z.of_nat (Z.to_nat (E - e)) in
  -1074 ≤ E ∧ 0 ≤ M < 2 ^ 53 ∧ (-1074 < E → 2 ^ 52 ≤ M).
Proof.
  intros Hm Hf E M. unfold fine in Hf.
  pose proof (digits_bounds m Hm) as [Hl Hu].
  pose proof (digits_pos m Hm) as Hd.
  assert (Z.of_nat (Z.to_nat (E - e)) = E - e) as Hn by (unfold E; lia).
  pose proof (pow2_nat_pos (Z.to_nat (E - e))) as Hp.
  unfold M. rewrite Hn in *.
  assert (E = Z.max (Zdigits2 m + e - 53) (-1074)) as HE by done.
  split; [lia|]. split; [split|].
  - apply Z.div_pos; lia.
  - apply Z.div_lt_upper_bound; [done|].
    rewrite <- Z.pow_add_r by lia.
    assert (2 ^ Zdigits2 m ≤ 2 ^ (E - e + 53))
      by (apply Z.pow_le_mono_r; lia). lia.
  - intros HE'. apply Z.div_le_lower_bound; [done|].
    rewrite <- Z.pow_add_r by lia.
    replace (E - e + 52) with (Zdigits2 m - 1) by lia. done.
Qed.

Lemma bra_key s m e :
  0 < m → fine m e →
  binary_round_aux prec emax s m e loc_Exact = of_key s (round_key m e).
Proof.
  intros Hm Hf. unfold binary_round_aux, round_key.
  rewrite shr_fexp_exact by first [done | lia].
  rewrite round_halved by lia.
  destruct (stage_one m e Hm Hf) as (HE & HM & _).
  set (E := fexp prec emax (Zdigits2 m + e)) in *.
  pose proof (rne_bounds m (Z.to_nat (E - e)) ltac:(lia)) as HR.
  set (R := rne m (Z.to_nat (E - e))) in *.
  replace (e + (E - e)) with E by lia.
  destruct (Z.eqb_spec R (2 ^ 53)) as [HR53|HR53].
  - rewrite HR53. unfold shr_fexp. change (Zdigits2 (2 ^ 53)) with 54.
    assert (fexp prec emax (54 + E) - E = 1) as ->
      by (unfold fexp, prec, emax, SpecFloat.emin; lia).
    unfold of_key. simpl. by replace (E + 1 - 0) with (E + 1) by lia.
  - assert (fexp prec emax (Zdigits2 R + E) - E ≤ 0) as Hn.
    { destruct (Z.eq_dec R 0) as [->|HR0].
      - simpl Zdigits2. unfold fexp, prec, emax, SpecFloat.emin. lia.
      - pose proof (digits_le R 53 ltac:(lia)).
        unfold fexp, prec, emax, SpecFloat.emin. lia. }
    unfold shr_fexp, shr. cbn [shr_record_of_loc].
    destruct (fexp prec emax (Zdigits2 R + E) - E) as [|p|p]; [done|lia|done].
Qed.

Lemma of_key_le M1 F1 M2 F2 :
  0 ≤ M1 → 0 ≤ M2 →
  (0 < M1 → 0 < M2 ∧ (F1 < F2 ∨ F1 = F2 ∧ M1 ≤ M2)) →
  SFleb (of_key false (M1, F1)) (of_key false (M2, F2)) = true.
Proof.
  intros H1 H2 H. unfold of_key. cbn [fst snd].
  destruct M1 as [|p1|p1]; [|specialize (H ltac:(lia))|lia].
  - destruct M2 as [|p2|p2]; [done| |lia]. by destruct (_ <=? _).
  - destruct H as [Hp Hlex]. destruct M2 as [|p2|p2]; [lia| |lia].
    destruct (Z.leb_spec F1 (emax - prec)), (Z.leb_spec F2 (emax - prec));
      try done; [|lia].
    unfold SFleb, SFcompare.
    destruct (Z.compare_spec F1 F2) as [Heq|Hlt|Hgt]; [|done|lia].
    change (Pos.compare_cont Eq p1 p2) with (Pos.compare p1 p2).
    destruct (Pos.compare_spec p1 p2); try done; lia.
Qed.

(** Rounding is monotone on mantissas of one exponent. *)
Lemma key_mono m1 m2 e :
  0 < m1 ≤ m2 → fine m1 e → fine m2 e →
  SFleb (of_key false (round_key m1 e)) (of_key false (round_key m2 e)) = true.
Proof.
  intros [Hm1 Hle] Hf1 Hf2.
  destruct (stage_one m1 e Hm1 Hf1) as (HE1 & HM1 & HN1).
  destruct (stage_one m2 e ltac:(lia) Hf2) as (HE2 & HM2 & HN2).
  pose proof (digits_mono m1 m2 ltac:(lia)) as Hd.
  unfold round_key, fine in *.
  set (E1 := fexp prec emax (Zdigits2 m1 + e)) in *.
  set (E2 := fexp prec emax (Zdigits2 m2 + e)) in *.
  assert (E1 ≤ E2) as HE
    by (unfold E1, E2, fexp, prec, emax, SpecFloat.emin; lia).
  pose proof (rne_bounds m1 (Z.to_nat (E1 - e)) ltac:(lia)) as HR1.
  pose proof (rne_bounds m2 (Z.to_nat (E2 - e)) ltac:(lia)) as HR2.
  assert (E1 = E2 → rne m1 (Z.to_nat (E1 - e)) ≤ rne m2 (Z.to_nat (E2 - e)))
    as Hmono.
  { intros ->. apply rne_mono. lia. }
  set (R1 := rne m1 (Z.to_nat (E1 - e))) in *.
  set (R2 := rne m2 (Z.to_nat (E2 - e))) in *.
  clearbody R1 R2 E1 E2.
  replace (e + (E1 - e)) with E1 by lia.
  replace (e + (E2 - e)) with E2 by lia.
  change (2 ^ 53) with 9007199254740992 in *.
  change (2 ^ 52) with 4503599627370496 in *.
  destruct (Z.eqb_spec R1 9007199254740992), (Z.eqb_spec R2 9007199254740992);
    apply of_key_le; lia.
Qed.

(** Scaling the mantissa by a power of two and lowering the exponent to
    match does not change the rounding. *)
Lemma shr_n_shift m (k : nat) :
  0 ≤ m →
  Nat.iter k shr_1 (Build_shr_record (m * 2 ^ Z.of_nat k) false false)
  = Build_shr_record m false false.
Proof.
  intros Hm. induction k as [|k IH]; [simpl; f_equal; lia|].
  rewrite Nat.iter_succ_r, shr_1_spec
    by (pose proof (pow2_nat_pos (S k)); nia).
  rewrite pow2_succ.
  replace (m * (2 * 2 ^ Z.of_nat k)) with (m * 2 ^ Z.of_nat k * 2) by lia.
  rewrite Z.div_mul by lia. rewrite Z.odd_mul. simpl Z.odd.
  by rewrite andb_false_r.
Qed.

Lemma fine_shift m e (k : nat) :
  0 < m → fine m e → fine (m * 2 ^ Z.of_nat k) (e - Z.of_nat k).
Proof.
  unfold fine. intros Hm Hf. rewrite digits_shift by done.
  replace (Zdigits2 m + Z.of_nat k + (e - Z.of_nat k)) with (Zdigits2 m + e)
    by lia. lia.
Qed.

Lemma bra_shift s m e (k : nat) :
  0 < m → fine m e →
  binary_round_aux prec emax s (m * 2 ^ Z.of_nat k) (e - Z.of_nat k) loc_Exact
  = binary_round_aux prec emax s m e loc_Exact.
Proof.
  intros Hm Hf. unfold binary_round_aux.
  rewrite (shr_fexp_iter (m * _)) by by apply fine_shift.
  rewrite (shr_fexp_iter m) by done.
  rewrite digits_shift by done.
  replace (Zdigits2 m + Z.of_nat k + (e - Z.of_nat k)) with (Zdigits2 m + e)
    by lia.
  unfold fine in Hf.
  replace (Z.to_nat (fexp prec emax (Zdigits2 m + e) - (e - Z.of_nat k)))
    with (Z.to_nat (fexp prec emax (Zdigits2 m + e) - e) + k)%nat by lia.
  by rewrite Nat.iter_add, shr_n_shift by lia.
Qed.

(** Rounding to nearest is monotone: of two exact positive values, the
    smaller does not round above the larger. *)
Lemma bra_mono m1 e1 m2 e2 e :
  0 < m1 → 0 < m2 → fine m1 e1 → fine m2 e2 → e ≤ e1 → e ≤ e2 →
  m1 * 2 ^ (e1 - e) ≤ m2 * 2 ^ (e2 - e) →
  SFleb (binary_round_aux prec emax false m1 e1 loc_Exact)
        (binary_round_aux prec emax false m2 e2 loc_Exact) = true.
Proof.
  intros Hm1 Hm2 Hf1 Hf2 He1 He2 Hle.
  rewrite <- (bra_shift false m1 e1 (Z.to_nat (e1 - e))) by done.
  rewrite <- (bra_shift false m2 e2 (Z.to_nat (e2 - e))) by done.
  pose proof (fine_shift m1 e1 (Z.to_nat (e1 - e)) Hm1 Hf1) as Hf1'.
  pose proof (fine_shift m2 e2 (Z.to_nat (e2 - e)) Hm2 Hf2) as Hf2'.
  rewrite !Z2Nat.id in * by lia.
  replace (e1 - (e1 - e)) with e in * by lia.
  replace (e2 - (e2 - e)) with e in * by lia.
  assert (0 < 2 ^ (e1 - e)) by (apply Z.pow_pos_nonneg; lia).
  rewrite !bra_key by (done || nia).
  apply key_mono; [nia|done..].
Qed.

Lemma digits_mul_ge a b :
  0 < a → 0 < b → Zdigits2 a + Zdigits2 b - 1 ≤ Zdigits2 (a * b).
Proof.
  intros Ha Hb.
  pose proof (digits_bounds a Ha) as [Hla _].
  pose proof (digits_bounds b Hb) as [Hlb _].
  pose proof (digits_bounds (a * b) ltac:(nia)) as [_ Hu].
  pose proof (digits_pos a Ha). pose proof (digits_pos b Hb).
  destruct (Z.le_gt_cases (Zdigits2 a + Zdigits2 b - 1) (Zdigits2 (a * b)))
    as [|Hgt]; [done|].
  assert (2 ^ Zdigits2 (a * b) ≤ 2 ^ (Zdigits2 a - 1 + (Zdigits2 b - 1)))
    as Hp by (apply Z.pow_le_mono_r; lia).
  rewrite Z.pow_add_r in Hp by lia.
  assert (0 < 2 ^ (Zdigits2 a - 1)) by (apply Z.pow_pos_nonneg; lia).
  assert (0 < 2 ^ (Zdigits2 b - 1)) by (apply Z.pow_pos_nonneg; lia).
  nia.
Qed.

(** The exact product of two valid mantissas has a fine exponent. *)
Lemma fine_mul mx ex my ey :
  bounded prec emax mx ex = true → bounded prec emax my ey = true →
  fine (Zpos (mx * my)) (ex + ey).
Proof.
  intros (Hex & Hdx & Hnx)%bounded_digits (Hey & Hdy & Hny)%bounded_digits.
  unfold fine. rewrite Pos2Z.inj_mul.
  pose proof (digits_mul_ge (Zpos mx) (Zpos my) ltac:(lia) ltac:(lia)) as Hd.
  simpl Zdigits2 in Hd at 1 2.
  unfold fexp, prec, emax, SpecFloat.emin. lia.
Qed.

Lemma bra_opp m e l :
  binary_round_aux prec emax true m e l
  = SFopp (binary_round_aux prec emax false m e l).
Proof.
  unfold binary_round_aux.
  destruct (shr_fexp prec emax m e l) as [mrs' e'].
  destruct (shr_fexp prec emax _ e' loc_Exact) as [mrs'' e''].
  destruct (shr_m mrs''); [done| |done]. by destruct (_ <=? _).
Qed.

Lemma SFleb_opp x y : SFleb (SFopp x) (SFopp y) = SFleb y x.
Proof.
  unfold SFleb, SFcompare.
  destruct x as [[]|[]| |[] mx ex], y as [[]|[]| |[] my ey]; simpl; try done.
  - rewrite (Z.compare_antisym ex ey).
    destruct (ex ?= ey); simpl; try done.
    change (Pos.compare_cont Eq my mx) with (Pos.compare my mx).
    change (Pos.compare_cont Eq mx my) with (Pos.compare mx my).
    rewrite (Pos.compare_antisym mx my). by destruct (mx ?= my)%positive.
  - rewrite (Z.compare_antisym ey ex).
    destruct (ey ?= ex); simpl; try done.
    change (Pos.compare_cont Eq my mx) with (Pos.compare my mx).
    change (Pos.compare_cont Eq mx my) with (Pos.compare mx my).
    rewrite (Pos.compare_antisym my mx). by destruct (my ?= mx)%positive.
Qed.

Lemma sf_nonneg_zero_leb s x : sf_nonneg x = true → SFleb (S754_zero s) x = true.
Proof. by destruct x as [[]|[]| |[] m e]. Qed.

Lemma sf_nonneg_opp_leb x y :
  sf_nonneg x = true → sf_nonneg y = true → SFleb (SFopp x) y = true.
Proof. by destruct x as [[]|[]| |[] mx ex], y as [[]|[]| |[] my ey]. Qed.

(** The order of two valid positive floats is that of their values. *)
Lemma SFleb_value mx ex my ey :
  bounded prec emax mx ex = true → bounded prec emax my ey = true →
  SFleb (S754_finite false mx ex) (S754_finite false my ey) = true →
  Zpos mx * 2 ^ (ex - Z.min ex ey) ≤ Zpos my * 2 ^ (ey - Z.min ex ey).
Proof.
  intros Hx Hy. unfold SFleb, SFcompare.
  destruct (Z.compare_spec ex ey) as [->|Hlt|Hgt]; [| |done].
  - rewrite Z.min_id, Z.sub_diag.
    change (Pos.compare_cont Eq mx my) with (Pos.compare mx my).
    destruct (Pos.compare_spec mx my); try done; lia.
  - intros _. pose proof (bounded_exponent_order _ _ _ _ Hx Hy Hlt).
    replace (Z.min ex ey) with ex by lia. rewrite Z.sub_diag. lia.
Qed.

Lemma SFmul_pos_mono mx ex my ey mc ec :
  bounded prec emax mx ex = true → bounded prec emax my ey = true →
  bounded prec emax mc ec = true →
  SFleb (S754_finite false mx ex) (S754_finite false my ey) = true →
  SFleb (binary_round_aux prec emax false (Zpos (mx * mc)) (ex + ec) loc_Exact)
        (binary_round_aux prec emax false (Zpos (my * mc)) (ey + ec) loc_Exact)
  = true.
Proof.
  intros Hx Hy Hc Hle.
  pose proof (SFleb_value _ _ _ _ Hx Hy Hle) as Hv.
  apply (bra_mono _ _ _ _ (Z.min ex ey + ec));
    [lia|lia|by apply fine_mul|by apply fine_mul|lia|lia|].
  rewrite !Pos2Z.inj_mul.
  replace (ex + ec - (Z.min ex ey + ec)) with (ex - Z.min ex ey) by lia.
  replace (ey + ec - (Z.min ex ey + ec)) with (ey - Z.min ex ey) by lia.
  nia.
Qed.

(** Multiplying by a positive finite constant keeps the order of two
    floats, rounding and overflow included. *)
Lemma SFmul_mono X Y mc ec :
  valid_binary X = true → valid_binary Y = true →
  bounded prec emax mc ec = true →
  SFleb X Y = true →
  SFleb (SF64mul X (S754_finite false mc ec))
        (SF64mul Y (S754_finite false mc ec)) = true.
Proof.
  intros HvX HvY Hc Hle.
  assert (∀ s m e, ∃ r, binary_round_aux prec emax s (Zpos m) e loc_Exact = r ∧
            F64.sf_nan r = false ∧ (s = false → sf_nonneg r = true) ∧
            (s = true → sf_nonneg (SFopp r) = true)) as Hshape.
  { intros s m e. eexists. split; [done|].
    pose proof (binary_round_aux_nonneg (Zpos m) e loc_Exact ltac:(lia)) as Hn.
    destruct s; [rewrite bra_opp|];
      by destruct (binary_round_aux prec emax false _ _ _) as [[]|[]| |[] ? ?]. }
  destruct X as [sx|sx| |sx mx ex], Y as [sy|sy| |sy my ey]; try done;
    unfold SF64mul, SFmul; simpl in HvX, HvY; rewrite ?xorb_false_r;
    try done.
  - destruct sy; [by destruct sx|].
    by apply sf_nonneg_zero_leb, binary_round_aux_nonneg.
  - destruct sx; [|by destruct sy].
    destruct (Hshape sy (my * mc)%positive (ey + ec)) as (r & -> & Hr & _).
    by destruct r as [[]|[]| |[] ? ?].
  - destruct sx; [|by destruct sy].
    destruct (Hshape true (mx * mc)%positive (ex + ec)) as (r & -> & _ & _ & Hr).
    specialize (Hr eq_refl). by destruct r as [[]|[]| |[] ? ?].
  - destruct sy; [by destruct sx|].
    destruct (Hshape sx (mx * mc)%positive (ex + ec)) as (r & -> & Hr & _).
    by destruct r as [[]|[]| |[] ? ?].
  - destruct sx, sy; try done.
    + rewrite !bra_opp, SFleb_opp.
      apply SFmul_pos_mono; try done. by rewrite <- SFleb_opp.
    + rewrite bra_opp. apply sf_nonneg_opp_leb;
        by apply binary_round_aux_nonneg.
    + by apply SFmul_pos_mono.
Qed.

(** The difference of two ordered floats is not negative: it is NaN (for
    two infinities of one sign) or of non-negative sign. *)
Lemma SFsub_ordered X Y :
  valid_binary X = true → valid_binary Y = true →
  SFleb Y X = true →
  F64.sf_nan (SF64sub X Y) = true ∨ sf_nonneg (SF64sub X Y) = true.
Proof.
  intros HvX HvY Hle.
  destruct (sf_finite X) eqn:HfX, (sf_finite Y) eqn:HfY.
  - right. by apply SFsub_nonneg.
  - destruct X as [[]|[]| |[] mx ex], Y as [[]|[]| |[] my ey]; try done;
      by right.
  - destruct X as [[]|[]| |[] mx ex], Y as [[]|[]| |[] my ey]; try done;
      by right.
  - destruct X as [[]|[]| |[] mx ex], Y as [[]|[]| |[] my ey]; try done;
      first [by left | by right].
Qed.

Lemma mul_mono a b c :
  is_finite c = true → (0 <? c)%float = true → (a <=? b)%float = true →
  (a * c <=? b * c)%float = true.
Proof.
  rewrite is_finite_spec, ltb_spec, !leb_spec, !mul_spec.
  change (Prim2SF 0) with (S754_zero false).
  pose proof (Prim2SF_valid c) as Hc.
  destruct (Prim2SF c) as [sc| | |sc mc ec]; try done.
  destruct sc; [done|]. intros _ _ Hle.
  apply SFmul_mono; try done; apply Prim2SF_valid.
Qed.

(** Rounding leaves a valid float as it is. *)
Lemma bra_canonical s m e :
  bounded prec emax m e = true →
  binary_round_aux prec emax s (Zpos m) e loc_Exact = S754_finite s m e.
Proof.
  intros Hb. pose proof Hb as (He & Hd & _)%bounded_digits.
  apply andb_true_iff in Hb as [Hc Hmax].
  apply Z.eqb_eq in Hc. apply Z.leb_le in Hmax.
  rewrite bra_key by (unfold fine; simpl Zdigits2; lia).
  unfold round_key. simpl Zdigits2. rewrite Hc, Z.sub_diag. simpl rne.
  pose proof (digits2_pos_bounds m) as [_ Hu].
  assert (2 ^ Zpos (digits2_pos m) ≤ 2 ^ 53) by (apply Z.pow_le_mono_r; lia).
  destruct (Z.eqb_spec (Zpos m) (2 ^ 53)); [lia|].
  unfold of_key. cbn [fst snd]. rewrite Z.add_0_r.
  by destruct (Z.leb_spec e (emax - prec)); [|lia].
Qed.

(** The input [binary_round] hands to the rounding: the same value, at a
    fine exponent. *)
Lemma shl_align_fine p e :
  let r := shl_align p e (fexp prec emax (Zpos (digits2_pos p) + e)) in
  fine (Zpos r.1) r.2 ∧ r.2 ≤ e ∧ Zpos r.1 = Zpos p * 2 ^ (e - r.2).
Proof.
  intros r. unfold r, shl_align, fine.
  destruct (fexp prec emax (Zpos (digits2_pos p) + e) - e) as [|d|d] eqn:Ed;
    cbn [fst snd].
  - rewrite Z.sub_diag. simpl Zdigits2. lia.
  - rewrite Z.sub_diag. simpl Zdigits2. lia.
  - rewrite pos_iter_xO.
    assert (Zpos d = Z.of_nat (Pos.to_nat d)) as Hd by lia.
    rewrite Hd at 1. rewrite digits_shift by lia. simpl Zdigits2.
    split; [|split; [lia|f_equal; f_equal; lia]].
    replace (Zpos (digits2_pos p) + Z.of_nat (Pos.to_nat d)
             + fexp prec emax (Zpos (digits2_pos p) + e))
      with (Zpos (digits2_pos p) + e) by lia.
    lia.
Qed.

(** Adding a non-negative float never gives less, rounding included. *)
Lemma SFadd_ge A X :
  valid_binary A = true → valid_binary X = true →
  sf_finite A = true → sf_nonneg A = true → sf_nonneg X = true →
  SFleb A (SF64add A X) = true.
Proof.
  intros HvA HvX HfA HnA HnX.
  destruct A as [sa| | |[] ma ea], X as [sx|[]| |[] mx ex]; try done.
  - by destruct sa, sx.
  - unfold SF64add, SFadd, SFleb, SFcompare.
    by rewrite Z.compare_refl, pos_compare_cont_eq, Pos.compare_refl.
  - simpl in HvA, HvX. unfold SF64add, SFadd. cbn [cond_Zopp].
    pose proof (Z.le_min_l ea ex). pose proof (Z.le_min_r ea ex).
    set (ez := Z.min ea ex) in *.
    rewrite !shl_align_fst by lia.
    assert (0 < 2 ^ (ea - ez)) by (apply Z.pow_pos_nonneg; lia).
    assert (0 < 2 ^ (ex - ez)) by (apply Z.pow_pos_nonneg; lia).
    destruct (Zpos ma * 2 ^ (ea - ez) + Zpos mx * 2 ^ (ex - ez))
      as [|p|p] eqn:Ep; [nia| |nia].
    unfold binary_normalize, binary_round.
    destruct (shl_align_fine p ez) as (Hfine & Hle & Hval).
    destruct (shl_align p ez _) as [mz ez']. cbn [fst snd] in *.
    rewrite <- (bra_canonical false ma ea HvA).
    apply (bra_mono _ _ _ _ ez'); try lia; try done.
    + unfold fine. apply andb_true_iff in HvA as [Hc _].
      apply Z.eqb_eq in Hc. simpl Zdigits2. lia.
    + rewrite Z.sub_diag, Z.mul_1_r, Hval, <- Ep.
      replace (ea - ez') with (ea - ez + (ez - ez')) by lia.
      rewrite Z.pow_add_r by lia.
      assert (0 < 2 ^ (ez - ez')) by (apply Z.pow_pos_nonneg; lia).
      nia.
Qed.

Lemma leb_zero_nonneg v :
  (0 <=? v)%float = true → sf_nonneg (Prim2SF v) = true.
Proof.
  rewrite leb_spec. change (Prim2SF 0) with (S754_zero false).
  by destruct (Prim2SF v) as [[]|[]| |[] m e].
Qed.

Lemma add_ge a x :
  is_finite a = true → (0 <=? a)%float = true → (0 <=? x)%float = true →
  (a <=? a + x)%float = true.
Proof.
  intros Hfa Ha%leb_zero_nonneg Hx%leb_zero_nonneg.
  rewrite is_finite_spec in Hfa. rewrite leb_spec, add_spec.
  apply SFadd_ge; try done; apply Prim2SF_valid.
Qed.

Lemma SFdiv_nonneg X mc ec :
  sf_nonneg X = true →
  sf_nonneg (SF64div X (S754_finite false mc ec)) = true.
Proof.
  destruct X as [[]|[]| |[] mx ex]; try done. intros _.
  unfold SF64div, SFdiv, SFdiv_core_binary.
  set (m' := match _ with Z0 => Zpos mx | Zpos _ => _ | Zneg _ => _ end).
  assert (0 ≤ m') as Hm'.
  { unfold m'. destruct (_ - _); try lia. apply Z.shiftl_nonneg. lia. }
  pose proof (Z.div_pos m' (Zpos mc) Hm' ltac:(lia)) as Hq.
  unfold Z.div in Hq.
  destruct (Z.div_eucl m' (Zpos mc)) as [q r]. simpl in Hq.
  by apply binary_round_aux_nonneg.
Qed.

Lemma div_nonneg d c :
  is_finite c = true → (0 <? c)%float = true → (0 <=? d)%float = true →
  (0 <=? d / c)%float = true.
Proof.
  rewrite is_finite_spec, ltb_spec. intros Hfc Hc Hd%leb_zero_nonneg.
  rewrite leb_spec, div_spec. change (Prim2SF 0) with (S754_zero false).
  destruct (Prim2SF c) as [[]|[]| |[] mc ec]; try done.
  by apply sf_nonneg_zero_leb, SFdiv_nonneg.
Qed.

End RoundingFacts.

(** ** The sign of the intervals written *)

Module IntervalSign.

Import PyFacts F64Facts NpFacts SlopeFacts DurationFacts WriterFacts PulseFacts
  RoundingFacts.

Lemma astype_int1_sign x :
  F64.sf_nan (Prim2SF x) = true ∨ sf_nonneg (Prim2SF x) = true →
  (0 ≤ Np.astype_int1 x)%Z ∨ Np.astype_int1 x = Np.int64_min.
Proof.
  unfold Np.astype_int1.
  destruct (Prim2SF x) as [s|[]| |[] m e]; intros [H|H]; try done;
    try (by left); try (by right).
  destruct (_ && _); [left|by right].
  apply Z.shiftl_nonneg. lia.
Qed.

(** No interval handed to the writer is negative, whatever the rounding of
    the products and of their difference, as long as the times ascend.
    The one exception is the value [astype(int)] gives a difference that
    is not finite or not below [2^63].  The writer gets its intervals
    whenever the output directory exists or can be made. *)
Theorem run_intervals_nonneg (fs_exists : string → bool)
    (fs_makedirs : string → option os_error) (zc : ZeroCross) (fname : string)
    (divratio : Z) :
  directory_ready fs_exists fs_makedirs fname = true →
  ascending (times zc) = true →
  ∃ w,
    AnabatFileWriteThread_run fs_exists fs_makedirs zc fname divratio
    = Wrote w ∧
    ∀ (i : nat) (k : Z),
      w_intervals w !! i = Some k →
      ∃ t0 t1,
        times zc !! i = Some t0 ∧ times zc !! S i = Some t1 ∧
        let d := (t1 * 1000000 - t0 * 1000000)%float in
        ((0 ≤ k)%Z ∨ k = Np.int64_min) ∧
        (is_finite d = true →
         (Qabs (F64.value d) < inject_Z (2 ^ 63))%Q → (0 ≤ k)%Z).
Proof.
  intros Hr Hasc.
  destruct (run_ready fs_exists fs_makedirs zc fname divratio Hr)
    as (w & Hw & _ & _ & _ & _ & _ & _ & Hi).
  exists w. split; [done|]. intros i k. rewrite Hi, list_lookup_fmap.
  destruct (Np.diff _ !! i) as [d|] eqn:Hd; [|done].
  intros [= <-].
  apply lookup_diff_inv in Hd as (s0 & s1 & H0 & H1 & ->).
  rewrite list_lookup_fmap in H0, H1.
  destruct (times zc !! i) as [t0|] eqn:Ht0; [|done].
  destruct (times zc !! S i) as [t1|] eqn:Ht1; [|done].
  injection H0 as <-. injection H1 as <-.
  exists t0, t1. do 2 (split; [done|]). intros d.
  assert ((0 ≤ Np.astype_int1 d)%Z ∨ Np.astype_int1 d = Np.int64_min) as Hk.
  { apply astype_int1_sign. unfold d. rewrite sub_spec.
    apply SFsub_ordered; try apply Prim2SF_valid.
    rewrite <- leb_spec. apply mul_mono; [done..|].
    by apply (BisectFacts.ascending_lookup (times zc) i (S i)); [|lia|..]. }
  split; [done|]. intros Hfin Hrange.
  destruct Hk as [|Hk]; [done|].
  destruct (astype_int1_truncates d Hfin Hrange) as (Habs & _).
  rewrite Hk in Habs. exfalso.
  apply (Qlt_irrefl (inject_Z (2 ^ 63))).
  eapply Qle_lt_trans; [|exact Hrange]. exact Habs.
Qed.

(** Dots at 1, 2 and 3 seconds, saved under a directory that is made:
    two intervals of 1,000,000 microseconds. *)
Lemma run_intervals_nonneg_witness :
  ∃ w,
    AnabatFileWriteThread_run (λ _, false) (λ _, None) three_dots
      "out/a.00#" 8 = Wrote w ∧
    ∀ (i : nat) (k : Z),
      w_intervals w !! i = Some k →
      ∃ t0 t1,
        times three_dots !! i = Some t0 ∧ times three_dots !! S i = Some t1 ∧
        let d := (t1 * 1000000 - t0 * 1000000)%float in
        ((0 ≤ k)%Z ∨ k = Np.int64_min) ∧
        (is_finite d = true →
         (Qabs (F64.value d) < inject_Z (2 ^ 63))%Q → (0 ≤ k)%Z).
Proof.
  apply (run_intervals_nonneg (λ _, false) (λ _, None) three_dots
           "out/a.00#" 8); reflexivity.
Defined.

End IntervalSign.

(** ** The sign of the slopes *)

Module SmoothSign.

Import PyFacts F64Facts NpFacts SmoothFacts SlopeFacts DurationFacts
  RoundingFacts.

(** The running sum of non-negative values ascends while it stays
    finite. *)
Lemma cumsum_from_ascending acc (a : Np.array) :
  is_finite acc = true → (0 <=? acc)%float = true →
  Forall (λ v, (0 <=? v)%float = true) a →
  all_finite (Np.cumsum_from acc a) = true →
  ascending (acc :: Np.cumsum_from acc a) = true.
Proof.
  intros Hf H0 Ha. revert acc Hf H0.
  induction Ha as [|x a Hx Ha IH]; intros acc Hf H0 Hfin; [done|].
  simpl in Hfin. apply andb_true_iff in Hfin as [Hs Hfin].
  pose proof (add_ge acc x Hf H0 Hx) as Hle.
  change (ascending (acc :: (acc + x)%float :: Np.cumsum_from (acc + x) a)
          = true).
  rewrite BisectFacts.ascending_cons, Hle. simpl andb.
  apply IH; [done| |done]. by eapply leb_trans.
Qed.

Lemma nan_to_zero_nonneg (a : Np.array) :
  Forall (λ v, (0 <=? v)%float = true) a → nan_to_zero a = a.
Proof.
  intros Ha. unfold nan_to_zero.
  induction Ha as [|x a Hx Ha IH]; [done|]. rewrite fmap_cons, IH. f_equal.
  rewrite is_nan_spec. apply leb_zero_nonneg in Hx.
  by destruct (Prim2SF x) as [[]|[]| |[] m e].
Qed.

(** No value of the moving average is negative: the difference of two
    running sums cannot go below zero however the sums were rounded. *)
Lemma moving_average_nonneg (a : Np.array) :
  Forall (λ v, (0 <=? v)%float = true) a →
  all_finite (Np.cumsum (0%float :: a)) = true →
  Forall (λ v, (0 <=? v)%float = true) (moving_average a).
Proof.
  intros Ha Hfin. simpl Np.cumsum in Hfin.
  assert (ascending (0%float :: Np.cumsum_from 0 a) = true) as Hasc.
  { by apply cumsum_from_ascending. }
  apply Forall_lookup. intros k v. unfold moving_average, Np.div_scalar.
  simpl Np.cumsum. rewrite list_lookup_fmap.
  destruct (zip_with _ _ _ !! k) as [d|] eqn:Hd; [|done]. intros [= <-].
  apply lookup_zip_with_Some in Hd as (x & y & -> & Hx & Hy).
  rewrite lookup_drop in Hx. apply lookup_take_Some in Hy as [Hy _].
  apply div_nonneg; [done..|].
  apply sub_nonneg.
  - by eapply all_finite_lookup.
  - by eapply all_finite_lookup.
  - apply (BisectFacts.ascending_lookup _ k (WINDOW_SIZE + k) y x Hasc);
      [unfold WINDOW_SIZE; lia|done..].
Qed.

(** What holds of zero and of every value of the moving average holds of
    every value [_smooth] returns. *)
Lemma smooth_forall (P : float → Prop) (slopes : Np.array) :
  P 0%float → Forall P (moving_average (nan_to_zero slopes)) →
  ∃ out, _smooth slopes = Ok out ∧ length out = length slopes ∧ Forall P out.
Proof.
  intros H0 Hall.
  destruct (smooth_total slopes) as (out & Hout & Hlen).
  exists out. do 2 (split; [done|]).
  destruct (decide (WINDOW_SIZE < length slopes)) as [Hlong|Hshort].
  - destruct (smooth_long slopes Hlong) as (s0 & sn & m & Hm & Hh & Hl & Heq).
    rewrite Heq in Hout. injection Hout as <-.
    rewrite pad_shape by done.
    rewrite Hm in Hall. rewrite Forall_forall in Hall.
    apply Forall_cons. split; [by apply Hall, head_Some_elem_of|].
    apply Forall_app. split; [by apply Forall_forall|].
    apply Forall_singleton. by apply Hall, last_Some_elem_of.
  - unfold _smooth in Hout.
    destruct (Nat.leb_spec (length slopes) WINDOW_SIZE); [|lia].
    injection Hout as <-. by apply Forall_replicate.
Qed.

(** Smoothing keeps slopes non-negative.  The moving average is taken as a
    difference of running sums; on non-negative slopes whose running sum
    stays finite, no rounding of those sums makes a smoothed slope
    negative or NaN. *)
Theorem smooth_nonneg (slopes : Np.array) :
  Forall (λ v, (0 <=? v)%float = true) slopes →
  all_finite (Np.cumsum (0%float :: slopes)) = true →
  ∃ out, _smooth slopes = Ok out ∧
         length out = length slopes ∧
         Forall (λ v, (0 <=? v)%float = true) out.
Proof.
  intros Hs Hfin. apply smooth_forall; [done|].
  rewrite nan_to_zero_nonneg by done.
  by apply moving_average_nonneg.
Qed.

(** A large slope followed by small ones: the running sum absorbs the
    small ones, and the moving average comes out as zero, not below. *)
Lemma smooth_nonneg_witness :
  ∃ out, _smooth [0x1p60; 1; 1; 1; 1]%float = Ok out ∧
         length out = length [0x1p60; 1; 1; 1; 1]%float ∧
         Forall (λ v, (0 <=? v)%float = true) out.
Proof.
  apply (smooth_nonneg [0x1p60; 1; 1; 1; 1]%float);
    [repeat constructor | reflexivity].
Defined.

Lemma clipped_nonneg max_slope r : (0 <=? clipped max_slope r)%float = true.
Proof.
  unfold clipped. destruct (F64.gtb _ _); [done|].
  rewrite is_nan_spec, abs_spec.
  destruct (F64.sf_nan (SFabs (Prim2SF r))) eqn:E; [done|].
  rewrite leb_spec, abs_spec. change (Prim2SF 0) with (S754_zero false).
  by destruct (Prim2SF r) as [[]|[]| |[] m e].
Qed.

Lemma slopes_nonneg log2 (x y : Np.array) max_slope :
  length x = length y →
  ∃ s, _slopes log2 x y max_slope = Ok s ∧
       Forall (λ v, (0 <=? v)%float = true) s.
Proof.
  intros Hxy.
  destruct (decide (2 ≤ length x)) as [Hlen|Hlen].
  - destruct (SlopeExtras.slopes_unfold log2 x y max_slope Hxy Hlen)
      as (yo & sn & _ & _ & ->).
    eexists. split; [done|]. apply Forall_fmap, Forall_forall.
    intros v _. apply clipped_nonneg.
  - unfold _slopes. destruct x as [|x0 [|x1 x]]; [| |simpl in Hlen; lia].
    + by exists [].
    + destruct y as [|y0 [|y1 y]]; try done. exists [0%float].
      split; [done|]. by repeat constructor.
Qed.

(** No slope is negative or NaN.  Unsmoothed this holds for every signal
    and every [max_slope]; smoothed it holds as long as the running sum of
    the slopes stays finite. *)
Theorem get_slopes_nonneg log2 zc max_slope :
  well_formed zc = true →
  ∃ raw,
    get_slopes log2 zc false max_slope = Ok raw ∧
    Forall (λ v, (0 <=? v)%float = true) raw ∧
    (all_finite (Np.cumsum (0%float :: raw)) = true →
     ∃ s, get_slopes log2 zc true max_slope = Ok s ∧
          Forall (λ v, (0 <=? v)%float = true) s).
Proof.
  intros [Hf _]%WindowFacts.well_formed_lengths. unfold get_slopes.
  destruct (slopes_nonneg log2 (times zc) (freqs zc) max_slope (eq_sym Hf))
    as (raw & -> & Hraw).
  rewrite !bind_Ok. exists raw. do 2 (split; [done|]). intros Hfin.
  destruct (smooth_forall (λ v, (0 <=? v)%float = true) raw) as (s & ? & _ & ?);
    [done| |by exists s].
  rewrite nan_to_zero_nonneg by done.
  by apply moving_average_nonneg.
Qed.

Lemma get_slopes_nonneg_witness :
  ∃ raw,
    get_slopes log2_floor three_dots false 5000 = Ok raw ∧
    Forall (λ v, (0 <=? v)%float = true) raw ∧
    (all_finite (Np.cumsum (0%float :: raw)) = true →
     ∃ s, get_slopes log2_floor three_dots true 5000 = Ok s ∧
          Forall (λ v, (0 <=? v)%float = true) s).
Proof. apply (get_slopes_nonneg log2_floor three_dots 5000). reflexivity. Defined.

End SmoothSign.

(** ** Exact values and their rounding

    Subtraction and addition round the exact difference and sum of the
    values; with monotone rounding, a failed test [tl - start >= duration]
    leaves [tl <= start + duration]. *)

Module ExactFacts.

Import PyFacts F64Facts NpFacts SlopeFacts DurationFacts RoundingFacts.

Local Open Scope Z_scope.

Lemma SFleb_unsigned x y :
  SFleb x y = SFleb (unsigned_zero x) (unsigned_zero y).
Proof. by destruct x as [[]|[]| |[] ? ?], y as [[]|[]| |[] ? ?]. Qed.

Lemma binary_round_opp p e :
  binary_round prec emax true p e = SFopp (binary_round prec emax false p e).
Proof.
  unfold binary_round. destruct (shl_align _ _ _) as [mz ez]. apply bra_opp.
Qed.

Lemma binary_round_nonneg p e :
  sf_nonneg (binary_round prec emax false p e) = true.
Proof.
  unfold binary_round. destruct (shl_align _ _ _) as [mz ez].
  by apply binary_round_aux_nonneg.
Qed.

Lemma binary_round_mono p1 e1 p2 e2 c :
  c ≤ e1 → c ≤ e2 →
  Zpos p1 * 2 ^ (e1 - c) ≤ Zpos p2 * 2 ^ (e2 - c) →
  SFleb (binary_round prec emax false p1 e1)
        (binary_round prec emax false p2 e2) = true.
Proof.
  intros Hc1 Hc2 Hle. unfold binary_round.
  destruct (shl_align_fine p1 e1) as (Hf1 & Hl1 & Hv1).
  destruct (shl_align_fine p2 e2) as (Hf2 & Hl2 & Hv2).
  destruct (shl_align p1 e1 _) as [m1 z1].
  destruct (shl_align p2 e2 _) as [m2 z2]. cbn [fst snd] in *.
  set (c' := Z.min c (Z.min z1 z2)).
  apply (bra_mono _ _ _ _ c'); try done; try lia.
  rewrite Hv1, Hv2, <- !Z.mul_assoc, <- !Z.pow_add_r by lia.
  replace (e1 - z1 + (z1 - c')) with (e1 - c + (c - c')) by lia.
  replace (e2 - z2 + (z2 - c')) with (e2 - c + (c - c')) by lia.
  rewrite !Z.pow_add_r, !Z.mul_assoc by lia.
  apply Z.mul_le_mono_nonneg_r; [|done].
  apply Z.pow_nonneg. lia.
Qed.

(** Rounding an exact value is monotone, whatever the signs. *)
Lemma normalize_mono z1 e1 s1 z2 e2 s2 c :
  c ≤ e1 → c ≤ e2 →
  z1 * 2 ^ (e1 - c) ≤ z2 * 2 ^ (e2 - c) →
  SFleb (binary_normalize prec emax z1 e1 s1)
        (binary_normalize prec emax z2 e2 s2) = true.
Proof.
  intros Hc1 Hc2 Hle.
  assert (0 < 2 ^ (e1 - c)) by (apply Z.pow_pos_nonneg; lia).
  assert (0 < 2 ^ (e2 - c)) by (apply Z.pow_pos_nonneg; lia).
  destruct z1 as [|p1|p1], z2 as [|p2|p2]; try nia; unfold binary_normalize.
  - by destruct s1, s2.
  - apply sf_nonneg_zero_leb, binary_round_nonneg.
  - by apply (binary_round_mono _ _ _ _ c).
  - rewrite binary_round_opp.
    pose proof (binary_round_nonneg p1 e1).
    by destruct (binary_round prec emax false p1 e1) as [[]|[]| |[] ? ?].
  - rewrite binary_round_opp. apply sf_nonneg_opp_leb;
      apply binary_round_nonneg.
  - rewrite !binary_round_opp, SFleb_opp.
    apply (binary_round_mono _ _ _ _ c); try done. lia.
Qed.

(** A valid float is the rounding of its own value. *)
Lemma normalize_exact (s : bool) m e sz :
  bounded prec emax m e = true →
  binary_normalize prec emax (if s then Zneg m else Zpos m) e sz
  = S754_finite s m e.
Proof.
  intros Hb. pose proof Hb as [Hc _]%andb_true_iff.
  apply Z.eqb_eq in Hc.
  assert (binary_round prec emax false m e = S754_finite false m e) as Hr.
  { unfold binary_round. rewrite Hc. unfold shl_align.
    rewrite Z.sub_diag. by apply bra_canonical. }
  destruct s; simpl; [|done]. by rewrite binary_round_opp, Hr.
Qed.

Lemma unsigned_self X :
  valid_binary X = true → sf_finite X = true →
  unsigned_zero X
  = unsigned_zero (binary_normalize prec emax (mant X) (expo X) false).
Proof.
  destruct X as [s| | |s m e]; try done. intros Hv _.
  simpl mant. simpl expo. by rewrite normalize_exact.
Qed.

Lemma pow_split a b c : c ≤ b → b ≤ a → 2 ^ (a - c) = 2 ^ (a - b) * 2 ^ (b - c).
Proof.
  intros. rewrite <- Z.pow_add_r by lia. f_equal. lia.
Qed.

(** The difference of two finite floats is the rounding of the exact
    difference of their values. *)
Lemma SFsub_value X Y :
  valid_binary X = true → valid_binary Y = true →
  sf_finite X = true → sf_finite Y = true →
  ∃ z e,
    unsigned_zero (SF64sub X Y)
    = unsigned_zero (binary_normalize prec emax z e false) ∧
    ∀ c, c ≤ expo X → c ≤ expo Y →
         c ≤ e ∧
         z * 2 ^ (e - c)
         = mant X * 2 ^ (expo X - c) - mant Y * 2 ^ (expo Y - c).
Proof.
  intros HvX HvY HfX HfY.
  destruct X as [sx| | |sx mx ex], Y as [sy| | |sy my ey]; try done;
    simpl in HvX, HvY.
  - exists 0, 0. split; [by destruct sx, sy|]. intros c ? ?.
    cbn [mant expo] in *. lia.
  - exists (mant (S754_finite (negb sy) my ey)), ey. split.
    + unfold SF64sub, SFsub. simpl mant. by rewrite normalize_exact.
    + intros c ? ?. cbn [mant expo] in *. split; [done|].
      destruct sy; cbn [negb]; lia.
  - exists (mant (S754_finite sx mx ex)), ex. split.
    + unfold SF64sub, SFsub. simpl mant. by rewrite normalize_exact.
    + intros c ? ?. cbn [mant expo] in *. split; [done|]. lia.
  - eexists _, (Z.min ex ey). split; [done|].
    intros c Hx Hy. simpl in Hx, Hy. split; [lia|].
    pose proof (Z.le_min_l ex ey). pose proof (Z.le_min_r ex ey).
    rewrite !shl_align_fst by lia. simpl mant. simpl expo.
    rewrite (pow_split ex (Z.min ex ey) c), (pow_split ey (Z.min ex ey) c)
      by lia.
    destruct sx, sy; simpl cond_Zopp; lia.
Qed.

Lemma SFadd_value X Y :
  valid_binary X = true → valid_binary Y = true →
  sf_finite X = true → sf_finite Y = true →
  ∃ z e,
    unsigned_zero (SF64add X Y)
    = unsigned_zero (binary_normalize prec emax z e false) ∧
    ∀ c, c ≤ expo X → c ≤ expo Y →
         c ≤ e ∧
         z * 2 ^ (e - c)
         = mant X * 2 ^ (expo X - c) + mant Y * 2 ^ (expo Y - c).
Proof.
  intros HvX HvY HfX HfY.
  destruct X as [sx| | |sx mx ex], Y as [sy| | |sy my ey]; try done;
    simpl in HvX, HvY.
  - exists 0, 0. split; [by destruct sx, sy|]. intros c ? ?.
    cbn [mant expo] in *. lia.
  - exists (mant (S754_finite sy my ey)), ey. split.
    + unfold SF64add, SFadd. simpl mant. by rewrite normalize_exact.
    + intros c ? ?. cbn [mant expo] in *. split; [done|]. lia.
  - exists (mant (S754_finite sx mx ex)), ex. split.
    + unfold SF64add, SFadd. simpl mant. by rewrite normalize_exact.
    + intros c ? ?. cbn [mant expo] in *. split; [done|]. lia.
  - eexists _, (Z.min ex ey). split; [done|].
    intros c Hx Hy. simpl in Hx, Hy. split; [lia|].
    pose proof (Z.le_min_l ex ey). pose proof (Z.le_min_r ex ey).
    rewrite !shl_align_fst by lia. simpl mant. simpl expo.
    rewrite (pow_split ex (Z.min ex ey) c), (pow_split ey (Z.min ex ey) c)
      by lia.
    destruct sx, sy; simpl cond_Zopp; lia.
Qed.

(** If [T - S], rounded, is below [D], then [T] is at most [S + D],
    rounded: both roundings are monotone, and between them stands the
    exact inequality. *)
Lemma SF_sub_below_add T S D :
  valid_binary T = true → valid_binary S = true → valid_binary D = true →
  sf_finite T = true → sf_finite S = true → sf_finite D = true →
  SFleb D (SF64sub T S) = false →
  SFleb T (SF64add S D) = true.
Proof.
  intros HvT HvS HvD HfT HfS HfD Hlt.
  destruct (SFsub_value T S HvT HvS HfT HfS) as (z1 & e1 & Hs & Hsv).
  destruct (SFadd_value S D HvS HvD HfS HfD) as (z2 & e2 & Ha & Hav).
  set (c := Z.min (expo T) (Z.min (expo S) (expo D))).
  destruct (Hsv c ltac:(lia) ltac:(lia)) as [Hc1 Hv1].
  destruct (Hav c ltac:(lia) ltac:(lia)) as [Hc2 Hv2].
  rewrite SFleb_unsigned, Hs, (unsigned_self D), <- SFleb_unsigned in Hlt
    by done.
  rewrite SFleb_unsigned, Ha, (unsigned_self T), <- SFleb_unsigned by done.
  apply (normalize_mono _ _ _ _ _ _ c); [lia|done|].
  destruct (Z.le_gt_cases (mant D * 2 ^ (expo D - c)) (z1 * 2 ^ (e1 - c)))
    as [Hle|Hgt].
  - rewrite (normalize_mono _ _ _ _ _ _ c) in Hlt; [done|lia|done|done].
  - lia.
Qed.

Lemma normalize_not_nan z e s :
  F64.sf_nan (binary_normalize prec emax z e s) = false.
Proof.
  destruct z as [|p|p]; unfold binary_normalize; [done| |].
  - pose proof (binary_round_nonneg p e).
    by destruct (binary_round prec emax false p e) as [[]|[]| |[] ? ?].
  - rewrite binary_round_opp. pose proof (binary_round_nonneg p e).
    by destruct (binary_round prec emax false p e) as [[]|[]| |[] ? ?].
Qed.

Lemma SFsub_not_nan X Y :
  valid_binary X = true → valid_binary Y = true →
  sf_finite X = true → sf_finite Y = true →
  F64.sf_nan (SF64sub X Y) = false.
Proof.
  intros HvX HvY HfX HfY.
  destruct (SFsub_value X Y HvX HvY HfX HfY) as (z & e & Hs & _).
  pose proof (normalize_not_nan z e false) as Hn.
  destruct (SF64sub X Y) as [[]|[]| |[] ? ?]; try done.
  by destruct (binary_normalize prec emax z e false) as [[]|[]| |[] ? ?].
Qed.

(** The same with infinities among the three: as long as [S + D] is a
    number, a failed test [T - S >= D] leaves [T <= S + D]. *)
Lemma SF_failed_test T S D :
  valid_binary T = true → valid_binary S = true → valid_binary D = true →
  F64.sf_nan T = false → F64.sf_nan S = false →
  F64.sf_nan (SF64add S D) = false →
  SFleb D (SF64sub T S) = false →
  SFleb T (SF64add S D) = true.
Proof.
  intros HvT HvS HvD HnT HnS HnA Hlt.
  destruct (sf_finite T) eqn:HfT, (sf_finite S) eqn:HfS,
    (sf_finite D) eqn:HfD; [by apply SF_sub_below_add|..].
  all: try (pose proof (SFsub_not_nan T S HvT HvS HfT HfS) as Hn).
  all: destruct D as [sd|[]| |sd md ed]; try done.
  all: try (by destruct (SF64sub T S) as [[]|[]| |[] ? ?]).
  all: destruct S as [ss|[]| |[] ms es]; try done.
  all: try (by destruct T as [st|[]| |[] mt et]).
  all: try match goal with
           | |- context [SF64add ?a ?b] =>
               by destruct (SF64add a b) as [[]|[]| |[] ? ?],
                           T as [st|[]| |[] mt et]
           end.
Qed.

Lemma failed_normal_test tl start duration :
  is_nan tl = false → is_nan start = false →
  is_nan (start + duration) = false →
  F64.geb (tl - start) duration = false →
  (tl <=? start + duration)%float = true.
Proof.
  unfold F64.geb. rewrite !is_nan_spec, !leb_spec, add_spec, sub_spec.
  apply SF_failed_test; apply Prim2SF_valid.
Qed.

End ExactFacts.

(** ** The edges of a window (C1) *)

Module WindowCover.

Import PyFacts F64Facts NpFacts BisectFacts WindowFacts WindowEdges ExactFacts.

(** The times of a window, from the bounds of the slice. *)
Lemma windowed_times_bounds zc s d :
  well_formed zc = true → 2 ≤ length (times zc) →
  ∃ f t tn w,
    window_bounds zc s d = Ok (f, t) ∧
    f ≤ length (times zc) ∧ t ≤ length (times zc) ∧
    (normal_branch zc s d = true →
       bisect (times zc) s = Ok f ∧ bisect (times zc) (s + d) = Ok t) ∧
    (normal_branch zc s d = false → t = length (times zc) - 1) ∧
    windowed zc s d = Ok w ∧
    let ts := Np.slice f t (times zc) in
    let ts1 := if match ts with [] => true | t0 :: _ => (s <? t0)%float end
               then s :: ts else ts in
    last ts1 = Some tn ∧
    times w = if (tn <? s + d)%float then ts1 ++ [(s + d)%float] else ts1.
Proof.
  intros Hwf Hlen.
  destruct (windowed_shape zc s d Hwf Hlen)
    as (f & t & tn & Hwb & Hf & Ht & Hn & Hnn & Htn & Hw).
  exists f, t, tn. eexists. do 5 (split; [done|]). split; [exact Hw|].
  revert Htn.
  unfold padded_front, leading_test, F64.gtb, with_leading, append_trailing,
    sliced, Np.append.
  simpl. destruct (Np.slice f t (times zc)) as [|t0 ts]; simpl.
  - intros [= <-]. split; [done|]. by destruct (s <? s + d)%float.
  - destruct (s <? t0)%float; simpl; intros Htn; (split; [done|]);
      by destruct (tn <? s + d)%float.
Qed.

(** C1, as the code has it.  For a well-formed signal of two dots or more
    whose times hold no NaN, and [start] and [start + duration] not NaN,
    [windowed] returns a signal whose first time is at most [start] and
    whose last time is at least [start + duration]: the window is covered.

    The first time is [start], unless the first retained dot, the one at
    [window_from], is earlier than [start]: then the window begins at that
    dot.  In the normal branch no retained dot is earlier, and the first
    time is [start].

    The last time is [start + duration] in the normal branch, and in the
    two other branches on ascending times, as long as a dot is retained or
    the window does not end before it starts.  In those two branches the
    last dot of the signal is not beyond [start + duration]: the failed
    test of the normal branch says so, rounding included. *)
Theorem windowed_covers_window zc start duration :
  well_formed zc = true →
  2 ≤ length (times zc) →
  nan_free (times zc) = true →
  is_nan start = false →
  is_nan (start + duration) = false →
  ∃ w t0 tn f t,
    windowed zc start duration = Ok w ∧
    window_bounds zc start duration = Ok (f, t) ∧
    head (times w) = Some t0 ∧ last (times w) = Some tn ∧
    (t0 <=? start)%float = true ∧
    (start + duration <=? tn)%float = true ∧
    (normal_branch zc start duration = true → t0 = start) ∧
    (∀ x0, f < t → times zc !! f = Some x0 →
           (x0 <? start)%float = true → t0 = x0) ∧
    ((∀ x0, f < t → times zc !! f = Some x0 →
            (x0 <? start)%float = false) →
     (t0 =? start)%float = true) ∧
    (normal_branch zc start duration = true ∨ ascending (times zc) = true →
     (start <=? start + duration)%float = true ∨ f < t →
     (tn =? start + duration)%float = true).
Proof.
  intros Hwf Hlen Hnf Hs Hsd.
  destruct (windowed_times_bounds zc start duration Hwf Hlen)
    as (f & t & tn & w & Hwb & Hf & Ht & Hn & Hnn & Hw & Htn & Htimes).
  simpl in Htn, Htimes.
  destruct (decide (f < t)) as [Hft|Hft].
  - (* the slice holds a dot: its first is [x0], its last [xn] *)
    pose proof (head_slice f t (times zc) Hft) as Hhead.
    pose proof (last_slice f t (times zc) Hft Ht) as Hlast.
    destruct (times zc !! f) as [x0|] eqn:Hx0;
      [|apply lookup_ge_None in Hx0; lia].
    destruct (times zc !! (t - 1)) as [xn|] eqn:Hxn;
      [|apply lookup_ge_None in Hxn; lia].
    pose proof (nan_free_lookup _ _ _ Hnf Hx0) as Hx0n.
    pose proof (nan_free_lookup _ _ _ Hnf Hxn) as Hxnn.
    destruct (Np.slice f t (times zc)) as [|t0 ts] eqn:Hsl; [done|].
    simpl in Hhead. injection Hhead as ->.
    assert (tn = xn) as ->.
    { destruct (start <? x0)%float; [rewrite last_cons_cons in Htn|];
        congruence. }
    set (ts1 := if (start <? x0)%float then start :: x0 :: ts else x0 :: ts)
      in *.
    assert (∃ t0, head ts1 = Some t0 ∧ (t0 <=? start)%float = true ∧
                  ((start <? x0)%float = true → t0 = start) ∧
                  ((start <? x0)%float = false → t0 = x0))
      as (t0 & Hh0 & Hle0 & Heq0 & Hne0).
    { unfold ts1. destruct (start <? x0)%float eqn:E.
      - exists start. by rewrite leb_refl.
      - exists x0. by rewrite ltb_false_leb. }
    destruct (trailing_edges ts1 (times w) t0 xn (start + duration)%float)
      as (tn' & Hhw & Hlw & Hge & Heq); [done..|].
    exists w, t0, tn', f, t. do 6 (split; [done|]).
    split; [|split; [|split]].
    + intros Hnorm. destruct (Hn Hnorm) as [Hbf _].
      destruct (bisect_above _ _ _ Hbf) as (v & Hv & Hlt); [lia|].
      apply Heq0. congruence.
    + intros x0' _ Hx Hlt. assert (x0' = x0) as -> by congruence.
      apply Hne0.
      by apply leb_ltb_false, ltb_leb.
    + intros Hall. specialize (Hall x0 Hft Hx0).
      destruct (start <? x0)%float eqn:E.
      * rewrite (Heq0 eq_refl). by apply eqb_refl.
      * rewrite (Hne0 eq_refl). apply leb_not_ltb_eqb; [|done].
        by apply ltb_false_leb.
    + intros Hcase _. apply Heq.
      destruct (normal_branch zc start duration) eqn:Hnb.
      * destruct (Hn eq_refl) as [_ Hbt].
        destruct (bisect_below _ _ _ Hbt) as (v' & Hv' & Hge'); [lia|].
        apply ltb_false_leb; [done|done|congruence].
      * destruct Hcase as [|Hasc]; [done|].
        rewrite (Hnn eq_refl) in Hxn, Hft.
        destruct (last (times zc)) as [tl|] eqn:Htl;
          [|apply last_None in Htl; rewrite Htl in Hlen; simpl in Hlen; lia].
        apply (leb_trans _ tl).
        -- rewrite last_lookup in Htl.
           apply (ascending_lookup (times zc) (length (times zc) - 1 - 1)
                    (pred (length (times zc)))); [done|lia|done|done].
        -- apply failed_normal_test; [|done|done|].
           ++ rewrite last_lookup in Htl.
              by apply (nan_free_lookup _ _ _ Hnf Htl).
           ++ unfold normal_branch in Hnb. by rewrite Htl in Hnb.
  - (* the slice is empty: the window is [start], and the trailing dot *)
    rewrite slice_empty in Htn, Htimes by lia.
    simpl in Htn. injection Htn as <-.
    destruct (trailing_edges [start] (times w) start start
                (start + duration)%float)
      as (tn' & Hhw & Hlw & Hge & Heq); [done..|].
    exists w, start, tn', f, t. do 4 (split; [done|]).
    split; [by apply leb_refl|]. split; [done|]. split; [done|].
    split; [intros; lia|]. split; [intros _; by apply eqb_refl|].
    intros _ [Hle|]; [by apply Heq|lia].
Qed.

(** C1 at three dots: the window from 1.5 lasting 1 (normal branch), and
    the window from 2 lasting 5 (larger than the recording), which begins
    at the dot at 1. *)
Lemma windowed_covers_window_witness :
  (∃ w t0 tn f t,
     windowed three_dots 1.5 1 = Ok w ∧
     window_bounds three_dots 1.5 1 = Ok (f, t) ∧
     head (times w) = Some t0 ∧ last (times w) = Some tn ∧
     (t0 <=? 1.5)%float = true ∧
     (1.5 + 1 <=? tn)%float = true ∧
     (normal_branch three_dots 1.5 1 = true → t0 = 1.5%float) ∧
     (∀ x0, f < t → times three_dots !! f = Some x0 →
            (x0 <? 1.5)%float = true → t0 = x0) ∧
     ((∀ x0, f < t → times three_dots !! f = Some x0 →
             (x0 <? 1.5)%float = false) →
      (t0 =? 1.5)%float = true) ∧
     (normal_branch three_dots 1.5 1 = true
      ∨ ascending (times three_dots) = true →
      (1.5 <=? 1.5 + 1)%float = true ∨ f < t →
      (tn =? 1.5 + 1)%float = true)) ∧
  (∃ w t0 tn f t,
     windowed three_dots 2 5 = Ok w ∧
     window_bounds three_dots 2 5 = Ok (f, t) ∧
     head (times w) = Some t0 ∧ last (times w) = Some tn ∧
     (t0 <=? 2)%float = true ∧
     (2 + 5 <=? tn)%float = true ∧
     (normal_branch three_dots 2 5 = true → t0 = 2%float) ∧
     (∀ x0, f < t → times three_dots !! f = Some x0 →
            (x0 <? 2)%float = true → t0 = x0) ∧
     ((∀ x0, f < t → times three_dots !! f = Some x0 →
             (x0 <? 2)%float = false) →
      (t0 =? 2)%float = true) ∧
     (normal_branch three_dots 2 5 = true
      ∨ ascending (times three_dots) = true →
      (2 <=? 2 + 5)%float = true ∨ f < t →
      (tn =? 2 + 5)%float = true)).
Proof.
  split.
  - apply (windowed_covers_window three_dots 1.5 1);
      [reflexivity | simpl; lia | reflexivity | reflexivity | reflexivity].
  - apply (windowed_covers_window three_dots 2 5);
      [reflexivity | simpl; lia | reflexivity | reflexivity | reflexivity].
Defined.

End WindowCover.
